(** * SPH solver core: root finders, smoothing kernels, particle estimators
      and the static partitioner, embedded from the C++ sources.

    Numbers.  The C++ code is written against the template parameters [Num]
    and [Real]; the embedding keeps that parameter as the class [Number], so
    the control flow of the solvers and of the estimators is proved for
    every number type.  Identities that need arithmetic laws are proved for
    exact rational arithmetic ([Q], instance [Q_Number]); rounding and
    overflow of binary64 are outside this model. *)

From stdpp Require Import base list.
From Stdlib Require Import ZArith NArith QArith Qabs Qpower Lqa Lia.
From Stdlib Require PrimFloat.

Local Open Scope Z_scope.

(** ** Part I: the embedding *)

(** *** tit/core/math.hpp *)

(** The operations the templates use on their number parameter. *)
Class Number (Num : Type) := {
  num_0 : Num;                       (* Num{0}, Num{} *)
  num_1 : Num;                       (* Num{1} *)
  num_add : Num -> Num -> Num;
  num_sub : Num -> Num -> Num;
  num_mul : Num -> Num -> Num;
  num_div : Num -> Num -> Num;
  num_opp : Num -> Num;
  num_abs : Num -> Num;              (* std::abs *)
  num_leb : Num -> Num -> bool;      (* a <= b *)
  num_ltb : Num -> Num -> bool;      (* a < b *)
  num_eqb : Num -> Num -> bool;      (* a == b *)
  num_of_Z : Z -> Num;               (* static_cast<Num>(n) of an integer *)
  lit : Q -> Num;                    (* Num{c} of a decimal literal c *)
  small_number_v : Num;              (* small_number_v<Num> *)
}.

Declare Scope num_scope.
Delimit Scope num_scope with num.
Notation "a + b" := (num_add a b) : num_scope.
Notation "a - b" := (num_sub a b) : num_scope.
Notation "a * b" := (num_mul a b) : num_scope.
Notation "a / b" := (num_div a b) : num_scope.
Notation "- a" := (num_opp a) : num_scope.
Notation "a <=? b" := (num_leb a b) : num_scope.
Notation "a <? b" := (num_ltb a b) : num_scope.
Notation "a =? b" := (num_eqb a b) : num_scope.

Module NewtonRaphsonStatus.
Inductive t : Set :=
  | success
  | fail_max_iter
  | fail_zero_deriv.
End NewtonRaphsonStatus.

Module BisectionStatus.
Inductive t : Set :=
  | success
  | fail_max_iter
  | failure_sign.
End BisectionStatus.

Section Math.
Context {Num : Type} {number : Number Num}.
Local Open Scope num_scope.

(** [int{b}] of a comparison result [b]. *)
Definition int_of_bool (b : bool) : Z := if b then 1%Z else 0%Z.

(** [sign(a)]: [static_cast<Num>(int{Num{0} < a} - int{a < Num{0}})]. *)
Definition sign (a : Num) : Num :=
  num_of_Z (int_of_bool (num_0 <? a) - int_of_bool (a <? num_0)).

Definition pow2 (a : Num) : Num := a * a.

Definition pow3 (a : Num) : Num := a * a * a.

Definition pow4 (a : Num) : Num := let a_sqr := a * a in a_sqr * a_sqr.

Definition pow5 (a : Num) : Num := let a_sqr := a * a in a_sqr * a_sqr * a.

(** [pow(a, power)] at the natural exponents the kernels and the width
    solve pass ([Dim], [Dim + 1], [Dim + 2], [d]): the exact power. *)
Fixpoint pow (a : Num) (power : nat) : Num :=
  match power with
  | O => num_1
  | S n => a * pow a n
  end.

Definition inverse (a : Num) : Num := num_1 / a.

(** [is_small(a)]: [abs(a) <= small_number_v<Num>]. *)
Definition is_small (a : Num) : bool := num_abs a <=? small_number_v.

Definition approx_equal_to (a b : Num) : bool := is_small (a - b).

(** Modelled from the spec: [safe_divide] is called by the kernel gradient
    but its definition is not among the sources.  The spec gives the
    convention: the quotient, and 0 where the divisor is (near) zero. *)
Definition safe_divide (a b : Num) : Num :=
  if is_small b then num_0 else a / b.

End Math.

(** **** newton_raphson

    [x] is a reference into the caller's state and [f] a closure over that
    state: [St] is the state, [get_x] and [set_x] read and write the
    referenced number, and [f s] returns the pair [(y, df_dx)] together with
    the state the call leaves behind. *)
Section NewtonRaphson.
Context {Num : Type} {number : Number Num} {St : Type}.
Variable get_x : St -> Num.
Variable set_x : Num -> St -> St.
Variable f : St -> (Num * Num) * St.
Local Open Scope num_scope.

Fixpoint newton_raphson (eps : Num) (max_iter : nat) (s : St)
  : NewtonRaphsonStatus.t * St :=
  match max_iter with
  | O => (NewtonRaphsonStatus.fail_max_iter, s)
  | S remaining =>
      let '((y, df_dx), s1) := f s in
      if num_abs y <=? eps then (NewtonRaphsonStatus.success, s1)
      else if is_small df_dx then (NewtonRaphsonStatus.fail_zero_deriv, s1)
      else newton_raphson eps remaining (set_x (get_x s1 - y / df_dx) s1)
  end.

(** An iteration that did not return: invoke [f], then [x -= y / df_dx]. *)
Definition nr_update (s : St) : St :=
  let '((y, df_dx), s1) := f s in set_x (get_x s1 - y / df_dx) s1.

(** The state in which iteration [k] (from 0) is entered, if it is. *)
Fixpoint nr_iterate (k : nat) (s : St) : St :=
  match k with
  | O => s
  | S k' => nr_iterate k' (nr_update s)
  end.

(** The two exit tests of an iteration entered in state [s]. *)
Definition nr_converged (eps : Num) (s : St) : bool :=
  num_abs (fst (fst (f s))) <=? eps.

Definition nr_zero_deriv (s : St) : bool :=
  is_small (snd (fst (f s))).

Definition nr_continues (eps : Num) (s : St) : Prop :=
  nr_converged eps s = false /\ nr_zero_deriv s = false.

End NewtonRaphson.

(** **** bisection

    [min_x] and [max_x] are references: the result carries their values on
    return.  [f] is a function of its argument.  The function asserts
    [min_x <= max_x] on entry ([TIT_ASSERT]); the assertion is a
    precondition of the caller and appears as a hypothesis where a property
    needs it. *)
Section Bisection.
Context {Num : Type} {number : Number Num}.
Variable f : Num -> Num.
Variable eps : Num.
Local Open Scope num_scope.

Fixpoint bisection_loop (max_iter : nat) (min_x max_x min_f max_f : Num)
  : BisectionStatus.t * Num * Num :=
  match max_iter with
  | O => (BisectionStatus.fail_max_iter, min_x, max_x)
  | S remaining =>
      if sign max_f =? sign min_f
      then (BisectionStatus.failure_sign, min_x, max_x)
      else
        let x := min_x - min_f * (max_x - min_x) / (max_f - min_f) in
        let y := f x in
        if num_abs y <=? eps then (BisectionStatus.success, x, x)
        else
          let sign_y := sign y in
          if negb (sign_y =? sign min_f)
          then bisection_loop remaining min_x x min_f y
          else if negb (sign_y =? sign max_f)
          then bisection_loop remaining x max_x y max_f
          else bisection_loop remaining min_x max_x min_f max_f
  end.

Definition bisection (min_x max_x : Num) (max_iter : nat)
  : BisectionStatus.t * Num * Num :=
  let min_f := f min_x in
  if num_abs min_f <=? eps then (BisectionStatus.success, min_x, min_x)
  else
    let max_f := f max_x in
    if num_abs max_f <=? eps then (BisectionStatus.success, max_x, max_x)
    else bisection_loop max_iter min_x max_x min_f max_f.

End Bisection.

(** *** Vectors *)

(** Modelled from the spec: the vector header is not among the sources.
    [Vec<Real, Dim>] is a tuple of [Dim] numbers; the arithmetic of section
    [Vectors] below is componentwise, and [norm], [dot] and [cross] stay
    parameters ([VecOps]). *)
Definition Vec (Num : Type) : Type := list Num.

Class VecOps (Num : Type) := {
  norm : Vec Num -> Num;
  dot : Vec Num -> Vec Num -> Num;
  cross : Vec Num -> Vec Num -> Vec Num;
}.

Section Vectors.
Context {Num : Type} {number : Number Num}.
Local Open Scope num_scope.

Definition dim (a : Vec Num) : nat := length a.

(** [Vec<Real, Dim>{}]. *)
Definition vzero (Dim : nat) : Vec Num := replicate Dim num_0.

Definition vadd (a b : Vec Num) : Vec Num := zip_with num_add a b.

Definition vsub (a b : Vec Num) : Vec Num := zip_with num_sub a b.

Definition vopp (a : Vec Num) : Vec Num := map num_opp a.

(** [s * a]. *)
Definition vscale (s : Num) (a : Vec Num) : Vec Num := map (num_mul s) a.

(** [a * s]. *)
Definition vmul_r (a : Vec Num) (s : Num) : Vec Num :=
  map (fun x => x * s) a.

(** [a / s]. *)
Definition vdiv (a : Vec Num) (s : Num) : Vec Num :=
  map (fun x => x / s) a.

(** [a[i] -= s].  An index out of range leaves the vector as it is (the
    source has no defined behaviour there). *)
Definition vsub_at (i : nat) (s : Num) (a : Vec Num) : Vec Num :=
  match a !! i with
  | Some x => <[i := x - s]> a
  | None => a
  end.

(** [avg(a, b)] on vectors: [(a + b) / sizeof...(Nums)]. *)
Definition avg (a b : Vec Num) : Vec Num := vdiv (vadd a b) (num_of_Z 2).

End Vectors.

(** *** tit/sph/smooth_kernel.hpp *)

(** What a concrete kernel supplies to [SmoothingKernel<Derived>]. *)
Record Kernel (Real : Type) := {
  kernel_weight : nat -> Real;       (* weight<Real, Dim>() *)
  kernel_unit_radius : Real;         (* unit_radius<Real>() *)
  kernel_unit_value : Real -> Real;
  kernel_unit_deriv : Real -> Real;
}.
Arguments kernel_weight {Real}.
Arguments kernel_unit_radius {Real}.
Arguments kernel_unit_value {Real}.
Arguments kernel_unit_deriv {Real}.

(** A guarded return [if (lo <= q && q < hi) return e(q);]. *)
Definition Piece (Real : Type) : Type := (Real * Real * (Real -> Real))%type.

Section Piecewise.
Context {Real : Type} {number : Number Real}.
Local Open Scope num_scope.

(** A chain of guarded returns closed by [return Real{0.0};]. *)
Fixpoint piecewise (pieces : list (Piece Real)) (q : Real) : Real :=
  match pieces with
  | [] => lit 0.0
  | (lo, hi, e) :: rest =>
      if (lo <=? q) && (q <? hi) then e q else piecewise rest q
  end.

(** The boundaries between pieces: for the upper end [hi] of each piece, the
    triple of [hi], the value there of the piece below, and the value there
    of what applies from [hi] on (the next piece, or the closing
    [Real{0.0}]). *)
Fixpoint boundary_values (pieces : list (Piece Real))
  : list (Real * Real * Real) :=
  match pieces with
  | [] => []
  | (_, hi, e) :: rest =>
      (hi, e hi,
       match rest with
       | [] => lit 0.0
       | (_, _, e') :: _ => e' hi
       end) :: boundary_values rest
  end.

(** The pieces agree where they meet. *)
Definition boundaries_continuous (same : Real -> Real -> Prop)
  (pieces : list (Piece Real)) : Prop :=
  Forall (fun '(_, below, above) => same below above) (boundary_values pieces).

End Piecewise.

Module SmoothingKernel.
Section Base.
Context {Real : Type} {number : Number Real} `{!VecOps Real}.
Variable self : Kernel Real.
Local Open Scope num_scope.

(** Each function asserts [h > 0] (TIT_ASSERT); the assertion is the
    callers' precondition and is not part of the value computed. *)
Definition radius (h : Real) : Real := kernel_unit_radius self * h.

(** [operator()]. *)
Definition value (r : Vec Real) (h : Real) : Real :=
  let h_inverse := inverse h in
  let q := h_inverse * norm r in
  pow h_inverse (dim r) * kernel_weight self (dim r) * kernel_unit_value self q.

Definition grad (r : Vec Real) (h : Real) : Vec Real :=
  let h_inverse := inverse h in
  let q := h_inverse * norm r in
  vscale (pow h_inverse (dim r + 2) * kernel_weight self (dim r) *
          safe_divide (kernel_unit_deriv self q) q) r.

Definition radius_deriv (r : Vec Real) (h : Real) : Real :=
  let h_inverse := inverse h in
  let q := h_inverse * norm r in
  pow h_inverse (dim r + 1) * kernel_weight self (dim r) *
  (num_of_Z (- Z.of_nat (dim r)) * kernel_unit_value self q -
   q * kernel_unit_deriv self q).

End Base.
End SmoothingKernel.

Module GaussianSmoothingKernel.
Section K.
Context {Real : Type} {number : Number Real}.
Variable inv_sqrtpi : Real.          (* std::numbers::inv_sqrtpi_v<Real> *)
Variable exp : Real -> Real.         (* exp *)
Variable sqrt_neg_log_min : Real.    (* sqrt(-log(numeric_limits::min())) *)
Local Open Scope num_scope.

Definition weight (Dim : nat) : Real := pow inv_sqrtpi Dim.

Definition unit_radius : Real := sqrt_neg_log_min.

Definition unit_value (q : Real) : Real := exp (- pow2 q).

Definition unit_deriv (q : Real) : Real := - lit 2.0 * q * exp (- pow2 q).

Definition kernel : Kernel Real :=
  Build_Kernel Real weight unit_radius unit_value unit_deriv.

End K.
End GaussianSmoothingKernel.

Module CubicSmoothingKernel.
Section K.
Context {Real : Type} {number : Number Real}.
Variable inv_pi : Real.              (* std::numbers::inv_pi_v<Real> *)
Local Open Scope num_scope.

(** [static_assert(1 <= Dim && Dim <= 3)]: no other [Dim] compiles. *)
Definition weight (Dim : nat) : Real :=
  match Dim with
  | 1%nat => lit (2.0 / 3.0)
  | 2%nat => lit (10.0 / 7.0) * inv_pi
  | 3%nat => inv_pi
  | _ => num_0
  end.

Definition unit_radius : Real := lit 2.0.

Definition unit_value_pieces : list (Piece Real) :=
  [ (lit 0.0, lit 1.0,
     fun q => lit 0.25 * pow3 (lit 2.0 - q) - pow3 (lit 1.0 - q));
    (lit 1.0, lit 2.0,
     fun q => lit 0.25 * pow3 (lit 2.0 - q)) ].

Definition unit_value (q : Real) : Real := piecewise unit_value_pieces q.

Definition unit_deriv_pieces : list (Piece Real) :=
  [ (lit 0.0, lit 1.0,
     fun q => lit (-0.75) * pow2 (lit 2.0 - q) + lit 3.0 * pow2 (lit 1.0 - q));
    (lit 1.0, lit 2.0,
     fun q => lit (-0.75) * pow2 (lit 2.0 - q)) ].

Definition unit_deriv (q : Real) : Real := piecewise unit_deriv_pieces q.

Definition kernel : Kernel Real :=
  Build_Kernel Real weight unit_radius unit_value unit_deriv.

End K.
End CubicSmoothingKernel.

Module ThomasCouchmanSmoothingKernel.
Section K.
Context {Real : Type} {number : Number Real}.
Variable inv_pi : Real.              (* std::numbers::inv_pi_v<Real> *)
Local Open Scope num_scope.

Definition weight (Dim : nat) : Real :=
  CubicSmoothingKernel.weight inv_pi Dim.

Definition unit_radius : Real := CubicSmoothingKernel.unit_radius.

Definition unit_value (q : Real) : Real := CubicSmoothingKernel.unit_value q.

Definition unit_deriv_pieces : list (Piece Real) :=
  [ (lit 0.0, lit (2.0 / 3.0),
     fun q => - lit 1.0);
    (lit (2.0 / 3.0), lit 1.0,
     fun q => (lit 2.25 * q - lit 3.0) * q);
    (lit 1.0, lit 2.0,
     fun q => lit 0.75 * pow2 (lit 2.0 - q)) ].

Definition unit_deriv (q : Real) : Real := piecewise unit_deriv_pieces q.

Definition kernel : Kernel Real :=
  Build_Kernel Real weight unit_radius unit_value unit_deriv.

End K.
End ThomasCouchmanSmoothingKernel.

Module QuarticSmoothingKernel.
Section K.
Context {Real : Type} {number : Number Real}.
Variable inv_pi : Real.              (* std::numbers::inv_pi_v<Real> *)
Local Open Scope num_scope.

Definition weight (Dim : nat) : Real :=
  match Dim with
  | 1%nat => lit (1.0 / 24.0)
  | 2%nat => lit (96.0 / 1199.0) * inv_pi
  | 3%nat => lit (1.0 / 2.0) * inv_pi
  | _ => num_0
  end.

Definition unit_radius : Real := lit 2.5.

Definition unit_value_pieces : list (Piece Real) :=
  [ (lit 0.0, lit 0.5,
     fun q => lit 1.0 * pow4 (lit 2.5 - q) - lit 5.0 * pow4 (lit 1.5 - q) +
              lit 10.0 * pow4 (lit 0.5 - q));
    (lit 0.5, lit 1.5,
     fun q => lit 1.0 * pow4 (lit 2.5 - q) - lit 5.0 * pow4 (lit 1.5 - q));
    (lit 1.5, lit 2.5,
     fun q => lit 1.0 * pow4 (lit 2.5 - q)) ].

Definition unit_value (q : Real) : Real := piecewise unit_value_pieces q.

Definition unit_deriv_pieces : list (Piece Real) :=
  [ (lit 0.0, lit 0.5,
     fun q => lit (-4.0) * pow3 (lit 2.5 - q) + lit 20.0 * pow3 (lit 1.5 - q) -
              lit 40.0 * pow3 (lit 0.5 - q));
    (lit 0.5, lit 1.5,
     fun q => lit (-4.0) * pow3 (lit 2.5 - q) + lit 20.0 * pow3 (lit 1.5 - q));
    (lit 1.5, lit 2.5,
     fun q => lit (-4.0) * pow3 (lit 2.5 - q)) ].

Definition unit_deriv (q : Real) : Real := piecewise unit_deriv_pieces q.

Definition kernel : Kernel Real :=
  Build_Kernel Real weight unit_radius unit_value unit_deriv.

End K.
End QuarticSmoothingKernel.

Module QuinticSmoothingKernel.
Section K.
Context {Real : Type} {number : Number Real}.
Variable inv_pi : Real.              (* std::numbers::inv_pi_v<Real> *)
Local Open Scope num_scope.

Definition weight (Dim : nat) : Real :=
  match Dim with
  | 1%nat => lit (1.0 / 120.0)
  | 2%nat => lit (7.0 / 478.0) * inv_pi
  | 3%nat => lit (1.0 / 120.0) * inv_pi
  | _ => num_0
  end.

Definition unit_radius : Real := lit 3.0.

Definition unit_value_pieces : list (Piece Real) :=
  [ (lit 0.0, lit 1.0,
     fun q => lit 1.0 * pow5 (lit 3.0 - q) - lit 6.0 * pow5 (lit 2.0 - q) +
              lit 15.0 * pow5 (lit 1.0 - q));
    (lit 1.0, lit 2.0,
     fun q => lit 1.0 * pow5 (lit 3.0 - q) - lit 6.0 * pow5 (lit 2.0 - q));
    (lit 2.0, lit 3.0,
     fun q => pow5 (lit 3.0 - q)) ].

Definition unit_value (q : Real) : Real := piecewise unit_value_pieces q.

Definition unit_deriv_pieces : list (Piece Real) :=
  [ (lit 0.0, lit 1.0,
     fun q => lit (-5.0) * pow4 (lit 3.0 - q) + lit 30.0 * pow4 (lit 2.0 - q) -
              lit 75.0 * pow4 (lit 1.0 - q));
    (lit 1.0, lit 2.0,
     fun q => lit (-5.0) * pow4 (lit 3.0 - q) + lit 30.0 * pow4 (lit 2.0 - q));
    (lit 2.0, lit 3.0,
     fun q => lit (-5.0) * pow4 (lit 3.0 - q)) ].

Definition unit_deriv (q : Real) : Real := piecewise unit_deriv_pieces q.

Definition kernel : Kernel Real :=
  Build_Kernel Real weight unit_radius unit_value unit_deriv.

End K.
End QuinticSmoothingKernel.

(** *** Particle clouds

    Fields are stored per particle variable and indexed by particle:
    [h[a]] is the value of variable [h] at particle index [a].  The tags of
    namespace [particle_variables] are the constructors below. *)
Module particle_variables.
Inductive scalar : Set :=
  | h | Omega | m | rho | p | cs | div_v
  | eps | deps_dt | alpha | dalpha_dt.
Inductive vector : Set :=
  | r | v | dv_dt | curl_v.
End particle_variables.
Module PV := particle_variables.

#[export] Instance scalar_eq_dec : EqDecision PV.scalar.
Proof. solve_decision. Defined.

#[export] Instance vector_eq_dec : EqDecision PV.vector.
Proof. solve_decision. Defined.

Record Particle (Num : Type) := {
  fixed : bool;
  scalar_of : PV.scalar -> Num;
  vector_of : PV.vector -> Vec Num;
}.
Arguments fixed {Num}.
Arguments scalar_of {Num}.
Arguments vector_of {Num}.

Definition Cloud (Num : Type) : Type := list (Particle Num).

(** The strategies the estimators are configured with; each reads the
    fields of the particles it is handed. *)
Class EquationOfState (Num : Type) := {
  pressure : Particle Num -> Num;
  sound_speed : Particle Num -> Num;
}.

Class ArtificialViscosity (Num : Type) := {
  kinematic : Particle Num -> Particle Num -> Num;
  switch_deriv : Particle Num -> Num;
}.

(** What the cloud type provides: the neighbour query (the indices visited
    by [particles.nearby(a, radius, ...)], in order) and the compile-time
    capability test [has<A>(...)]. *)
Class ParticleCloud (Num : Type) := {
  nearby : Cloud Num -> nat -> Num -> list nat;
  has : PV.scalar -> bool;
  has_vec : PV.vector -> bool;
}.

Section Fields.
Context {Num : Type} {number : Number Num}.

#[export] Instance Particle_inhabited : Inhabited (Particle Num) :=
  populate {| fixed := false;
              scalar_of := fun _ => num_0;
              vector_of := fun _ => [] |}.

Definition with_scalar (x : PV.scalar) (val : Num) (pa : Particle Num)
  : Particle Num :=
  {| fixed := fixed pa;
     scalar_of := fun y => if decide (y = x) then val else scalar_of pa y;
     vector_of := vector_of pa |}.

Definition with_vector (x : PV.vector) (val : Vec Num) (pa : Particle Num)
  : Particle Num :=
  {| fixed := fixed pa;
     scalar_of := scalar_of pa;
     vector_of := fun y => if decide (y = x) then val else vector_of pa y |}.

(** [x[a]] read. *)
Definition sget (x : PV.scalar) (a : nat) (c : Cloud Num) : Num :=
  scalar_of (c !!! a) x.

Definition vget (x : PV.vector) (a : nat) (c : Cloud Num) : Vec Num :=
  vector_of (c !!! a) x.

Definition is_fixed (a : nat) (c : Cloud Num) : bool := fixed (c !!! a).

(** [x[a] = val]. *)
Definition sset (x : PV.scalar) (a : nat) (val : Num) (c : Cloud Num)
  : Cloud Num :=
  <[a := with_scalar x val (c !!! a)]> c.

Definition vset (x : PV.vector) (a : nat) (val : Vec Num) (c : Cloud Num)
  : Cloud Num :=
  <[a := with_vector x val (c !!! a)]> c.

(** [x[a, b]]: the difference [x[a] - x[b]]. *)
Definition vget2 (x : PV.vector) (a b : nat) (c : Cloud Num) : Vec Num :=
  vsub (vget x a c) (vget x b c).

(** [particles.for_each(body)]: the body runs once for every particle.  The
    source may run the iterations concurrently; each iteration writes the
    fields of its own particle only (lemmas [*_body_other] below), so the
    iterations are taken in index order. *)
Definition for_each (body : nat -> Cloud Num -> Cloud Num) (c : Cloud Num)
  : Cloud Num :=
  fold_left (fun c' a => body a c') (seq 0 (length c)) c.

(** The cloud in which the iteration of [for_each] for particle [a]
    starts. *)
Definition for_each_before (body : nat -> Cloud Num -> Cloud Num) (a : nat)
  (c : Cloud Num) : Cloud Num :=
  fold_left (fun c' b => body b c') (seq 0 a) c.

(** [particles.nearby(a, search_radius, body)]. *)
Definition for_nearby `{!ParticleCloud Num} (a : nat) (search_radius : Num)
  (body : nat -> Cloud Num -> Cloud Num) (c : Cloud Num) : Cloud Num :=
  fold_left (fun c' b => body b c') (nearby c a search_radius) c.

(** [if constexpr (flag) stmt;]. *)
Definition when (flag : bool) (stmt : Cloud Num -> Cloud Num) (c : Cloud Num)
  : Cloud Num :=
  if flag then stmt c else c.

End Fields.

(** *** The particle estimator with a fixed kernel width *)
Module ClassicSmoothEstimator.
Section Estimator.
Context {Num : Type} {number : Number Num} {vec_ops : VecOps Num}
  {eos : EquationOfState Num} {viscosity : ArtificialViscosity Num}
  {cloud : ParticleCloud Num}.
Variable _kernel : Kernel Num.
Variable _kernel_width : Num.        (* *_kernel_width *)
Local Open Scope num_scope.

(** The loop body of [init]: it returns at once for a particle that is not
    fixed. *)
Definition init_body (h_ab : Num) (a : nat) (c : Cloud Num) : Cloud Num :=
  if negb (is_fixed a c) then c else
  let c := sset PV.h a h_ab c in
  let c := sset PV.p a (pressure (c !!! a)) c in
  sset PV.cs a (sound_speed (c !!! a)) c.

Definition init (particles : Cloud Num) : Cloud Num :=
  let h_ab := _kernel_width in
  for_each (init_body h_ab) particles.

(** The neighbour loop of the density pass. *)
Definition density_nearby (h_ab : Num) (a b : nat) (c : Cloud Num)
  : Cloud Num :=
  sset PV.rho a
    (sget PV.rho a c +
     sget PV.m b c * SmoothingKernel.value _kernel (vget2 PV.r a b c) h_ab) c.

(** The first [for_each] of [estimate_density]. *)
Definition density_body (h_ab search_radius : Num) (a : nat) (c : Cloud Num)
  : Cloud Num :=
  if is_fixed a c then c else
  let c := sset PV.h a h_ab c in
  let c := sset PV.rho a num_0 c in
  let c := for_nearby a search_radius (density_nearby h_ab a) c in
  let c := sset PV.p a (pressure (c !!! a)) c in
  sset PV.cs a (sound_speed (c !!! a)) c.

(** The neighbour loop of the divergence and curl pass. *)
Definition div_curl_nearby (h_ab : Num) (a b : nat) (c : Cloud Num)
  : Cloud Num :=
  let grad_ab := SmoothingKernel.grad _kernel (vget2 PV.r a b c) h_ab in
  let c :=
    when (has PV.div_v) (fun c =>
      sset PV.div_v a
        (sget PV.div_v a c +
         sget PV.m b c *
         dot (vadd (vdiv (vget PV.v a c) (pow2 (sget PV.rho a c)))
                   (vdiv (vget PV.v b c) (pow2 (sget PV.rho b c))))
             grad_ab) c) c in
  when (has_vec PV.curl_v) (fun c =>
    vset PV.curl_v a
      (vsub (vget PV.curl_v a c)
         (vscale (sget PV.m b c)
            (cross (vadd (vdiv (vget PV.v a c) (pow2 (sget PV.rho a c)))
                         (vdiv (vget PV.v b c) (pow2 (sget PV.rho b c))))
                   grad_ab))) c) c.

(** The second [for_each] of [estimate_density]. *)
Definition div_curl_body (h_ab search_radius : Num) (a : nat) (c : Cloud Num)
  : Cloud Num :=
  let c := when (has PV.div_v) (sset PV.div_v a num_0) c in
  let c :=
    when (has_vec PV.curl_v) (fun c =>
      vset PV.curl_v a (vzero (dim (vget PV.curl_v a c))) c) c in
  let c := for_nearby a search_radius (div_curl_nearby h_ab a) c in
  let c :=
    when (has PV.div_v) (fun c =>
      sset PV.div_v a (sget PV.div_v a c * sget PV.rho a c) c) c in
  when (has_vec PV.curl_v) (fun c =>
    vset PV.curl_v a (vmul_r (vget PV.curl_v a c) (sget PV.rho a c)) c) c.

Definition estimate_density (particles : Cloud Num) : Cloud Num :=
  let h_ab := _kernel_width in
  let search_radius := SmoothingKernel.radius _kernel h_ab in
  let particles := for_each (density_body h_ab search_radius) particles in
  for_each (div_curl_body h_ab search_radius) particles.

(** The neighbour loop of [estimate_forces]. *)
Definition forces_nearby (h_ab : Num) (a b : nat) (c : Cloud Num)
  : Cloud Num :=
  let Pi_ab := kinematic (c !!! a) (c !!! b) in
  let grad_ab := SmoothingKernel.grad _kernel (vget2 PV.r a b c) h_ab in
  let c :=
    vset PV.dv_dt a
      (vsub (vget PV.dv_dt a c)
         (vscale
            (sget PV.m b c *
             (sget PV.p a c / pow2 (sget PV.rho a c) +
              sget PV.p b c / pow2 (sget PV.rho b c) + Pi_ab))
            grad_ab)) c in
  when (has PV.eps && has PV.deps_dt) (fun c =>
    sset PV.deps_dt a
      (sget PV.deps_dt a c +
       sget PV.m b c * (sget PV.p a c / pow2 (sget PV.rho a c) + Pi_ab) *
       dot grad_ab (vget2 PV.v a b c)) c) c.

(** "Compute velocity and thermal energy forces": the accumulators are
    cleared and the neighbour loop runs. *)
Definition forces_pairwise (h_ab search_radius : Num) (a : nat)
  (c : Cloud Num) : Cloud Num :=
  let c := vset PV.dv_dt a (vzero (dim (vget PV.dv_dt a c))) c in
  let c := when (has PV.eps && has PV.deps_dt) (sset PV.deps_dt a num_0) c in
  for_nearby a search_radius (forces_nearby h_ab a) c.

Definition forces_body (h_ab search_radius : Num) (a : nat) (c : Cloud Num)
  : Cloud Num :=
  if is_fixed a c then c else
  let c := forces_pairwise h_ab search_radius a c in
  when (has PV.alpha && has PV.dalpha_dt) (fun c =>
    sset PV.dalpha_dt a (switch_deriv (c !!! a)) c) c.

Definition estimate_forces (particles : Cloud Num) : Cloud Num :=
  let h_ab := _kernel_width in
  let search_radius := SmoothingKernel.radius _kernel h_ab in
  for_each (forces_body h_ab search_radius) particles.

End Estimator.
End ClassicSmoothEstimator.

(** *** The particle estimator with a variable kernel width (Grad-H) *)
Module GradHSmoothEstimator.
Section Estimator.
Context {Num : Type} {number : Number Num} {vec_ops : VecOps Num}
  {eos : EquationOfState Num} {viscosity : ArtificialViscosity Num}
  {cloud : ParticleCloud Num}.
Variable _kernel : Kernel Num.
Variable _coupling : Num.
Local Open Scope num_scope.

(** The loop body of [init]: it returns at once for a particle that is not
    fixed.  [real_pow] is [pow] at a real exponent ([std::pow]); the
    exponent here is [-inverse(1.0 * d)]. *)
Definition init_body (real_pow : Num -> Num -> Num) (eta : Num) (a : nat)
  (c : Cloud Num) : Cloud Num :=
  if negb (is_fixed a c) then c else
  let d := dim (vget PV.r a c) in
  let c :=
    sset PV.h a
      (eta * real_pow (sget PV.rho a c / sget PV.m a c)
                      (- inverse (lit 1.0 * num_of_Z (Z.of_nat d)))) c in
  let c := sset PV.Omega a (lit 1.0) c in
  let c := sset PV.p a (pressure (c !!! a)) c in
  sset PV.cs a (sound_speed (c !!! a)) c.

Definition init (real_pow : Num -> Num -> Num) (particles : Cloud Num)
  : Cloud Num :=
  let eta := _coupling in
  for_each (init_body real_pow eta) particles.

(** The neighbour loop inside the closure handed to [newton_raphson]. *)
Definition width_nearby (a b : nat) (c : Cloud Num) : Cloud Num :=
  let c :=
    sset PV.rho a
      (sget PV.rho a c +
       sget PV.m b c *
       SmoothingKernel.value _kernel (vget2 PV.r a b c) (sget PV.h a c)) c in
  sset PV.Omega a
    (sget PV.Omega a c +
     sget PV.m b c *
     SmoothingKernel.radius_deriv _kernel (vget2 PV.r a b c) (sget PV.h a c)) c.

(** The closure handed to [newton_raphson]: it returns [zeta_a] and
    [dzeta_dh_a], and writes [rho[a]] and [Omega[a]]. *)
Definition width_residual (eta : Num) (a : nat) (c : Cloud Num)
  : (Num * Num) * Cloud Num :=
  let d := dim (vget PV.r a c) in
  let c := sset PV.rho a num_0 c in
  let c := sset PV.Omega a num_0 c in
  let search_radius := SmoothingKernel.radius _kernel (sget PV.h a c) in
  let c := for_nearby a search_radius (width_nearby a) c in
  let Rho_a := sget PV.m a c * pow (eta / sget PV.h a c) d in
  let dRho_dh_a := num_of_Z (- Z.of_nat d) * Rho_a / sget PV.h a c in
  let zeta_a := Rho_a - sget PV.rho a c in
  let dzeta_dh_a := dRho_dh_a - sget PV.Omega a c in
  let c := sset PV.Omega a (lit 1.0 - sget PV.Omega a c / dRho_dh_a) c in
  ((zeta_a, dzeta_dh_a), c).

(** The call [newton_raphson(h[a], [&] { ... })], default tolerance and
    iteration cap. *)
Definition width_solve (eta : Num) (a : nat) (c : Cloud Num)
  : NewtonRaphsonStatus.t * Cloud Num :=
  newton_raphson (sget PV.h a) (sset PV.h a) (width_residual eta a)
    small_number_v 10 c.

(** What follows the solve in the loop body. *)
Definition density_finish (a : nat) (c : Cloud Num) : Cloud Num :=
  let c := sset PV.p a (pressure (c !!! a)) c in
  sset PV.cs a (sound_speed (c !!! a)) c.

(** The first [for_each] of [estimate_density]; the value of the call to
    [newton_raphson] is not used. *)
Definition density_body (eta : Num) (a : nat) (c : Cloud Num) : Cloud Num :=
  if is_fixed a c then c else
  let c := snd (width_solve eta a c) in
  density_finish a c.

Definition div_curl_nearby (a b : nat) (c : Cloud Num) : Cloud Num :=
  let grad_aba :=
    SmoothingKernel.grad _kernel (vget2 PV.r a b c) (sget PV.h a c) in
  let grad_abb :=
    SmoothingKernel.grad _kernel (vget2 PV.r a b c) (sget PV.h b c) in
  let c :=
    when (has PV.div_v) (fun c =>
      sset PV.div_v a
        (sget PV.div_v a c +
         sget PV.m b c *
         (dot (vdiv (vget PV.v a c) (pow2 (sget PV.rho a c))) grad_aba +
          dot (vdiv (vget PV.v b c) (pow2 (sget PV.rho b c))) grad_abb)) c) c in
  when (has_vec PV.curl_v) (fun c =>
    vset PV.curl_v a
      (vsub (vget PV.curl_v a c)
         (vscale (sget PV.m b c)
            (vadd
               (cross (vdiv (vget PV.v a c) (pow2 (sget PV.rho a c))) grad_aba)
               (cross (vdiv (vget PV.v b c) (pow2 (sget PV.rho b c))) grad_abb))))
      c) c.

(** The second [for_each] of [estimate_density]. *)
Definition div_curl_body (a : nat) (c : Cloud Num) : Cloud Num :=
  let c := when (has PV.div_v) (sset PV.div_v a num_0) c in
  let c :=
    when (has_vec PV.curl_v) (fun c =>
      vset PV.curl_v a (vzero (dim (vget PV.curl_v a c))) c) c in
  let search_radius := SmoothingKernel.radius _kernel (sget PV.h a c) in
  let c := for_nearby a search_radius (div_curl_nearby a) c in
  let c :=
    when (has PV.div_v) (fun c =>
      sset PV.div_v a (sget PV.div_v a c * sget PV.rho a c) c) c in
  when (has_vec PV.curl_v) (fun c =>
    vset PV.curl_v a (vmul_r (vget PV.curl_v a c) (sget PV.rho a c)) c) c.

Definition estimate_density (particles : Cloud Num) : Cloud Num :=
  let eta := _coupling in
  let particles := for_each (density_body eta) particles in
  for_each div_curl_body particles.

(** [avg(grad(r, h_a), grad(r, h_b))], the local [grad_ab] of the force
    loop. *)
Definition symmetrized_grad (r_ab : Vec Num) (h_a h_b : Num) : Vec Num :=
  avg (SmoothingKernel.grad _kernel r_ab h_a)
      (SmoothingKernel.grad _kernel r_ab h_b).

(** The bracket of the force loop, [P_a * grad_aba + P_b * grad_abb +
    Pi_ab * grad_ab], as a function of the two pressure factors, of [Pi_ab],
    of the displacement and of the two widths. *)
Definition pair_term (P_a P_b Pi_ab : Num) (r_ab : Vec Num) (h_a h_b : Num)
  : Vec Num :=
  vadd
    (vadd (vscale P_a (SmoothingKernel.grad _kernel r_ab h_a))
          (vscale P_b (SmoothingKernel.grad _kernel r_ab h_b)))
    (vscale Pi_ab (symmetrized_grad r_ab h_a h_b)).

(** The neighbour loop of [estimate_forces]. *)
Definition forces_nearby (a b : nat) (c : Cloud Num) : Cloud Num :=
  let Pi_ab := kinematic (c !!! a) (c !!! b) in
  let grad_aba :=
    SmoothingKernel.grad _kernel (vget2 PV.r a b c) (sget PV.h a c) in
  let grad_abb :=
    SmoothingKernel.grad _kernel (vget2 PV.r a b c) (sget PV.h b c) in
  let grad_ab := avg grad_aba grad_abb in
  let c :=
    vset PV.dv_dt a
      (vsub (vget PV.dv_dt a c)
         (vscale (sget PV.m b c)
            (vadd
               (vadd
                  (vscale
                     (sget PV.p a c /
                      (sget PV.Omega a c * pow2 (sget PV.rho a c)))
                     grad_aba)
                  (vscale
                     (sget PV.p b c /
                      (sget PV.Omega b c * pow2 (sget PV.rho b c)))
                     grad_abb))
               (vscale Pi_ab grad_ab)))) c in
  when (has PV.eps && has PV.deps_dt) (fun c =>
    sset PV.deps_dt a
      (sget PV.deps_dt a c +
       sget PV.m b c *
       (sget PV.p a c / (sget PV.Omega a c * pow2 (sget PV.rho a c)) *
        dot grad_aba (vget2 PV.v a b c) +
        Pi_ab * dot grad_ab (vget2 PV.v a b c))) c) c.

(** "Compute velocity and thermal energy forces": the accumulators are
    cleared and the neighbour loop runs. *)
Definition forces_pairwise (a : nat) (c : Cloud Num) : Cloud Num :=
  let c := vset PV.dv_dt a (vzero (dim (vget PV.dv_dt a c))) c in
  let c := when (has PV.eps && has PV.deps_dt) (sset PV.deps_dt a num_0) c in
  let search_radius := SmoothingKernel.radius _kernel (sget PV.h a c) in
  for_nearby a search_radius (forces_nearby a) c.

Definition forces_body (a : nat) (c : Cloud Num) : Cloud Num :=
  if is_fixed a c then c else
  let c := forces_pairwise a c in
  (* #if 1: TODO: Gravity. *)
  let c := vset PV.dv_dt a (vsub_at 1 (lit 9.81) (vget PV.dv_dt a c)) c in
  when (has PV.dalpha_dt) (fun c =>
    sset PV.dalpha_dt a (switch_deriv (c !!! a)) c) c.

Definition estimate_forces (particles : Cloud Num) : Cloud Num :=
  for_each forces_body particles.

End Estimator.
End GradHSmoothEstimator.

(** *** tit/core/par/partitioner.hpp *)

(** Iterators of a random-access range are positions; a sized common range
    is its first position and its size. *)
Record Range := {
  range_begin : Z;
  range_size : N;
}.

Definition range_end (range : Range) : Z :=
  (range_begin range + Z.of_N (range_size range))%Z.

(** [tbb::blocked_range<Iter>(begin, end, grainsize = 1)]. *)
Record blocked_range := {
  br_begin : Z;
  br_end : Z;
  br_grainsize : N;
}.

(** [static_cast<size_t>(n)]. *)
Definition to_size_t (n : N) : N := (n mod 2 ^ 64)%N.

(** Modelled from the spec: [divide_up] is called by the static partitioner
    but its definition is not among the sources.  The spec: the range size
    is divided by the worker-thread count, rounding up. *)
Definition divide_up (a b : N) : N :=
  (a / b + (if a mod b =? 0 then 0 else 1))%N.

Module AutoPartitioner.
Definition blockify (range : Range) : blocked_range :=
  {| br_begin := range_begin range;
     br_end := range_end range;
     br_grainsize := 1 |}.
End AutoPartitioner.

Module StaticPartitioner.
(** [num_threads] is the value of the call [num_threads()], the current
    worker-thread count. *)
Definition blockify (num_threads : N) (range : Range) : blocked_range :=
  let grain_size_hint := divide_up (to_size_t (range_size range)) num_threads in
  {| br_begin := range_begin range;
     br_end := range_end range;
     br_grainsize := grain_size_hint |}.
End StaticPartitioner.

(** *** Exact rational arithmetic as a number type

    The arithmetic is exact and every result is kept in lowest terms
    ([Qred]), which leaves its value unchanged.  [small_number_v<double>] has
    two values, by compiler: [numeric_limits<double>::epsilon()] = 2^-52
    under [__clang__], and otherwise its cube root, whose binary64 value is
    7149018786131517 * 2^-70 (about 6.06e-6). *)
Definition Q_arith (small : Q) : Number Q := {|
  num_0 := 0%Q;
  num_1 := 1%Q;
  num_add := fun a b => Qred (a + b);
  num_sub := fun a b => Qred (a - b);
  num_mul := fun a b => Qred (a * b);
  num_div := fun a b => Qred (a / b);
  num_opp := fun a => Qred (- a);
  num_abs := fun a => Qred (Qabs a);
  num_leb := Qle_bool;
  num_ltb := fun a b => negb (Qle_bool b a);
  num_eqb := Qeq_bool;
  num_of_Z := inject_Z;
  lit := Qred;
  small_number_v := small;
|}.

Definition epsilon : Q := (1 # 4503599627370496)%Q.

Definition cbrt_epsilon : Q :=
  (7149018786131517 # 1180591620717411303424)%Q.

#[export] Instance Q_Number : Number Q := Q_arith epsilon.

Definition Q_Number_cbrt : Number Q := Q_arith cbrt_epsilon.

(** Vectors on a line: the Euclidean norm of [[x]] is [|x|].  On longer
    vectors [norm] is the sum of the absolute values; the examples use it on
    vectors with at most one component that is not zero, where the two
    agree. *)
#[export] Instance Q_VecOps : VecOps Q := {|
  norm := fun a => fold_right (fun x acc => Qred (Qabs x + acc)) 0%Q a;
  dot := fun a b => fold_right (fun x acc => Qred (x + acc)) 0%Q
                      (zip_with (fun x y => Qred (x * y)) a b);
  cross := fun _ _ => [];
|}.

(** *** Concrete inputs *)

(** A scalar state: the referenced number is the whole state. *)
Definition scalar_get (x : Q) : Q := x.

Definition scalar_set (val : Q) (_ : Q) : Q := val.

(** [f(x) = x / 2] with derivative [1 / 2]. *)
Definition half_line (x : Q) : (Q * Q) * Q := ((Qred (x / 2), 1 # 2), x)%Q.

(** [f(x) = x^2 - 2] with derivative [2 x]. *)
Definition square_minus_two (x : Q) : (Q * Q) * Q :=
  ((Qred (x * x - 2), Qred (2 * x)), x)%Q.

Definition identity_residual (x : Q) : Q := x.

Definition square_plus_one (x : Q) : Q := Qred (x * x + 1)%Q.

(** Particles on a line, for the examples: the neighbours of [a] are the
    particles at a distance below the search radius ([a] among them), and
    the cloud provides [div_v] when [with_div_v] is set, no [curl_v], no
    thermal energy and no viscosity switch. *)
Definition line_nearby (c : Cloud Q) (a : nat) (search_radius : Q) : list nat :=
  filter (fun b => negb (Qle_bool search_radius (norm (vget2 PV.r a b c))))
         (seq 0 (length c)).

Definition line_cloud (with_div_v : bool) : ParticleCloud Q :=
  {| nearby := line_nearby;
     has := fun x => match x with PV.div_v => with_div_v | _ => false end;
     has_vec := fun _ => false |}.

(** A particle at position [x] with velocity [vx], width [hh], mass 1,
    density [rr] and velocity divergence [dd]. *)
Definition line_particle (fx : bool) (x vx hh rr dd : Q) : Particle Q :=
  {| fixed := fx;
     scalar_of := fun y =>
       match y with
       | PV.h => hh
       | PV.m => 1
       | PV.rho => rr
       | PV.Omega => 1
       | PV.div_v => dd
       | _ => 0
       end%Q;
     vector_of := fun y =>
       match y with
       | PV.r => [x]
       | PV.v => [vx]
       | PV.dv_dt => [0%Q]
       | PV.curl_v => []
       end |}.

(** The pressure is the density and the sound speed is 1. *)
Definition density_eos : EquationOfState Q :=
  {| pressure := fun pa => scalar_of pa PV.rho;
     sound_speed := fun _ => 1%Q |}.

Definition no_viscosity : ArtificialViscosity Q :=
  {| kinematic := fun _ _ => 0%Q;
     switch_deriv := fun _ => 0%Q |}.

(** The cubic kernel; on a line its weight does not involve [inv_pi]. *)
Definition line_kernel : Kernel Q := CubicSmoothingKernel.kernel (113 # 355).

(** A free particle alone: different starting widths. *)
Definition lone_particle (hh : Q) : Cloud Q :=
  [line_particle false 0 0 hh 0 0].

(** A fixed particle at 0 moving at speed 1 with recorded divergence 5, next
    to a particle at rest at 1, free or fixed. *)
Definition wall_and_free : Cloud Q :=
  [line_particle true 0 1 1 1 5; line_particle false 1 0 1 1 0].

Definition two_walls : Cloud Q :=
  [line_particle true 0 1 1 1 5; line_particle true 1 0 1 1 0].

(** A free particle alone at the origin of a plane, of mass, density and
    width 1, with a stale acceleration. *)
Definition lone_plane_particle : Cloud Q :=
  [ {| fixed := false;
       scalar_of := fun y =>
         match y with
         | PV.h | PV.m | PV.rho | PV.Omega | PV.p => 1
         | _ => 0
         end%Q;
       vector_of := fun y =>
         match y with
         | PV.dv_dt => [7; 7]
         | PV.curl_v => []
         | _ => [0; 0]
         end%Q |} ].

(** *** Vocabulary of the statements *)

(** Particle [a0] has in [c'] the [fixed] flag it has in [c] and the values
    of the scalar variables selected by [Ks] and of the vector variables
    selected by [Kv]. *)
Definition keeps {Num : Type} `{Number Num} (a0 : nat)
  (Ks : PV.scalar -> bool) (Kv : PV.vector -> bool) (c c' : Cloud Num) : Prop :=
  fixed (c' !!! a0) = fixed (c !!! a0) /\
  (forall x, Ks x = true -> scalar_of (c' !!! a0) x = scalar_of (c !!! a0) x) /\
  (forall x, Kv x = true -> vector_of (c' !!! a0) x = vector_of (c !!! a0) x).

Definition every_scalar (x : PV.scalar) : bool := true.

Definition every_vector (x : PV.vector) : bool := true.

(** The variables the divergence and curl pass does not write. *)
Definition not_div_v `{ParticleCloud Num} (x : PV.scalar) : bool :=
  match x with
  | PV.div_v => negb (has PV.div_v)
  | _ => true
  end.

Definition not_curl_v `{ParticleCloud Num} (x : PV.vector) : bool :=
  match x with
  | PV.curl_v => negb (has_vec PV.curl_v)
  | _ => true
  end.

(** ** Part I, continued: the rest of the embedded code *)

(** *** tit/core/math.hpp: powers and polynomials *)
Section MathPowers.
Context {Num : Type} {number : Number Num}.
Local Open Scope num_scope.

Definition pow6 (a : Num) : Num :=
  let a_cubed := a * a * a in a_cubed * a_cubed.

Definition pow7 (a : Num) : Num :=
  let a_cubed := a * a * a in a_cubed * a_cubed * a.

Definition pow8 (a : Num) : Num :=
  let a_sqr := a * a in
  let a_pow4 := a_sqr * a_sqr in
  a_pow4 * a_pow4.

Definition pow9 (a : Num) : Num :=
  let a_cubed := a * a * a in a_cubed * a_cubed * a_cubed.

(** [horner(x, ci)]: [r{0}], then [r = r * x + c] for the coefficients in
    reverse order. *)
Definition horner (x : Num) (ci : list Num) : Num :=
  fold_left (fun r c => r * x + c) (rev ci) num_0.

End MathPowers.

(** *** tit/core/math.hpp: averages

    [avg] and [havg] take a pack of at least one number ([requires
    (sizeof...(Nums) > 0)]): the first value [val] and the rest [vals].  The
    pack is summed by a unary right fold, [(vals + ...)], and [sizeof...] is
    converted to the number type. *)
Module Averages.
Section Averages.
Context {Num : Type} {number : Number Num}.
Local Open Scope num_scope.

(** [(vals + ...)]: [v1 + (v2 + (... + vn))]. *)
Fixpoint fold_plus (val : Num) (vals : list Num) : Num :=
  match vals with
  | [] => val
  | next :: rest => val + fold_plus next rest
  end.

Definition sizeof_pack (vals : list Num) : Num :=
  num_of_Z (Z.of_nat (S (length vals))).

Definition avg (val : Num) (vals : list Num) : Num :=
  fold_plus val vals / sizeof_pack vals.

(** [havg] asserts that no value is negative. *)
Definition havg (val : Num) (vals : list Num) : Num :=
  sizeof_pack vals / fold_plus (inverse val) (map inverse vals).

End Averages.
End Averages.

(** *** tit/core/missing.libc++.hpp: range adaptors

    A random-access sized range is the list of its elements.  [size_t]
    values are numbers below 2^64; where the source computes on them with
    [+], [-] or [*], the wrap-around of the unsigned arithmetic is written
    out. *)
Module views.
Section Adaptors.
Context {A : Type}.
Local Open Scope N_scope.

(** [std::ranges::size(range)]. *)
Definition size (range : list A) : N := N.of_nat (length range).

(** [std::views::iota(first, last)] on [size_t]. *)
Definition iota (first last : N) : list N :=
  map N.of_nat (seq (N.to_nat first) (N.to_nat (last - first))).

(** [view[index]] and [begin(view)[index]]: [None] past the end, where the
    source has no defined behaviour. *)
Definition at_index (view : list A) (index : N) : option A :=
  view !! N.to_nat index.

(** [std::ranges::subrange(iter + first, iter + last)]. *)
Definition subrange (view : list A) (first last : N) : list A :=
  take (N.to_nat (last - first)) (drop (N.to_nat first) view).

(** [EnumerateAdaptor::operator()]. *)
Definition enumerate (range : list A) : list (N * option A) :=
  map (fun index => (index, at_index range index)) (iota 0 (size range)).

(** [ChunkAdaptor::operator()]. *)
Definition chunk (range : list A) (chunk_size : N) : list (list A) :=
  let view := range in
  let num_chunks := divide_up (size view) chunk_size in
  map (fun chunk_index =>
         let sz := size view in
         let first := N.min sz ((chunk_index * chunk_size) mod 2 ^ 64) in
         let last := N.min sz (((chunk_index + 1) * chunk_size) mod 2 ^ 64) in
         subrange view first last)
      (iota 0 num_chunks).

(** [CartesianProductAdaptor::operator()].  [flat_size] is
    [(std::ranges::size(ranges) * ...)], a right fold of [size_t] products
    over a pack that is not empty (an empty pack does not compile). *)
Fixpoint flat_size (ranges : list (list A)) : N :=
  match ranges with
  | [] => 1
  | [range] => size range
  | range :: rest => (size range * flat_size rest) mod 2 ^ 64
  end.

(** One turn of the loop [for (axis = Dim - 1; axis >= 0; --axis)] of the
    transform, on the items found so far and the running [flat_index]. *)
Definition cartesian_step (view : list A) (state : list (option A) * N)
  : list (option A) * N :=
  let '(items, flat_index) := state in
  let size := size view in
  let index := flat_index mod size in
  (at_index view index :: items, flat_index / size).

(** The transform: the axes are visited from the last to the first, and the
    items come out in axis order. *)
Definition cartesian_item (all_views : list (list A)) (flat_index : N)
  : list (option A) :=
  fst (fold_right cartesian_step ([], flat_index) all_views).

Definition cartesian_product (ranges : list (list A))
  : list (list (option A)) :=
  map (cartesian_item ranges) (iota 0 (flat_size ranges)).

End Adaptors.

Section AdjacentTransform.
Context {A B : Type}.
Local Open Scope N_scope.

(** [AdjacentTransformAdaptor<2>::operator()]: the view
    [iota(0UZ, size(range) - 1) | transform(...)], as its number of elements
    and its element at an index. *)
Definition adjacent_transform_size (range : list A) : N :=
  (size range + 2 ^ 64 - 1) mod 2 ^ 64.

Definition adjacent_transform_at (range : list A) (func : A -> A -> B)
  (index : N) : option B :=
  match at_index range index, at_index range ((index + 1) mod 2 ^ 64) with
  | Some x, Some y => Some (func x y)
  | _, _ => None
  end.

End AdjacentTransform.
End views.

(** *** tit/core/mat.hpp: square matrices and their inversion

    [Mat<Num, Dim>] holds [Dim] rows, each a [Vec<Num, Dim>]. *)
Definition Mat (Num : Type) : Type := list (Vec Num).

Section Matrices.
Context {Num : Type} {number : Number Num}.
Local Open Scope num_scope.

#[local] Instance Num_inhabited : Inhabited Num := populate num_0.

(** [a[i, j]] read and [a[i, j] = val].  The indices are asserted to be in
    range (TIT_ASSERT); out of range the read gives [Num{}] and the write
    changes nothing. *)
Definition mat_get (a : Mat Num) (i j : nat) : Num := (a !!! i) !!! j.

Definition mat_set (i j : nat) (val : Num) (a : Mat Num) : Mat Num :=
  <[i := <[j := val]> (a !!! i)]> a.

(** [Mat(q)], the scalar matrix: [(i == j) ? q : Num{}]. *)
Definition scalar_mat (Dim : nat) (q : Num) : Mat Num :=
  map (fun i => map (fun j => if (i =? j)%nat then q else num_0) (seq 0 Dim))
      (seq 0 Dim).

(** [a * b] for a matrix and a vector: [r[i] = dot(a[i], b)]. *)
Definition mat_mul_vec {vec_ops : VecOps Num} (a : Mat Num) (b : Vec Num)
  : Vec Num :=
  map (fun row => dot row b) a.

End Matrices.

Module MatInv.
Section Inversion.
Context {Num : Type} {number : Number Num}.
Local Open Scope num_scope.

#[local] Existing Instance Num_inhabited.

(** The body of [for (size_t j = 0; j < i; ++j)] in the constructor. *)
Definition lower_entry (a : Mat Num) (i j : nat) (lu : Mat Num * Mat Num)
  : Mat Num * Mat Num :=
  let '(_l, _u) := lu in
  let _l := mat_set i j (mat_get a i j) _l in
  let _l :=
    fold_left
      (fun _l k =>
         mat_set i j (mat_get _l i j - mat_get _l i k * mat_get _u k j) _l)
      (seq 0 j) _l in
  let _l := mat_set i j (mat_get _l i j / mat_get _u j j) _l in
  (_l, _u).

(** The body of [for (size_t j = i; j < a.num_cols; ++j)]. *)
Definition upper_entry (a : Mat Num) (i j : nat) (lu : Mat Num * Mat Num)
  : Mat Num * Mat Num :=
  let '(_l, _u) := lu in
  let _u := mat_set i j (mat_get a i j) _u in
  let _u :=
    fold_left
      (fun _u k =>
         mat_set i j (mat_get _u i j - mat_get _l i k * mat_get _u k j) _u)
      (seq 0 i) _u in
  (_l, _u).

(** The body of [for (size_t i = 0; i < a.num_rows; ++i)]. *)
Definition factor_row (Dim : nat) (a : Mat Num) (i : nat)
  (lu : Mat Num * Mat Num) : Mat Num * Mat Num :=
  let lu := fold_left (fun lu j => lower_entry a i j lu) (seq 0 i) lu in
  fold_left (fun lu j => upper_entry a i j lu) (seq i (Dim - i)) lu.

(** "Compute factors": [_l] starts as the unit matrix and [_u] as the zero
    matrix. *)
Definition factors (Dim : nat) (a : Mat Num) : Mat Num * Mat Num :=
  fold_left (fun lu i => factor_row Dim a i lu) (seq 0 Dim)
    (scalar_mat Dim (lit 1.0), scalar_mat Dim (lit 0.0)).

(** "Compute determinant". *)
Definition determinant (Dim : nat) (lu : Mat Num * Mat Num) : Num :=
  let '(_l, _u) := lu in
  fold_left (fun _det i => _det * (mat_get _l i i * mat_get _u i i))
    (seq 1 (Dim - 1)) (mat_get _l 0 0 * mat_get _u 0 0).

Record t := {
  _l : Mat Num;
  _u : Mat Num;
  _det : Num;
}.

(** The constructor [MatInv(a)]. *)
Definition make (Dim : nat) (a : Mat Num) : t :=
  let lu := factors Dim a in
  {| _l := fst lu; _u := snd lu; _det := determinant Dim lu |}.

Definition det (self : t) : Num := _det self.

(** "Divide" by L: the body of the first loop of [operator()(x)], on a
    vector [x]. *)
Definition forward_row (self : t) (i : nat) (x : Vec Num) : Vec Num :=
  let x :=
    fold_left
      (fun x j => <[i := x !!! i - mat_get (_l self) i j * x !!! j]> x)
      (seq 0 i) x in
  <[i := x !!! i / mat_get (_l self) i i]> x.

(** "Divide" by U: the body of the second loop, [j] from [i + 1]. *)
Definition backward_row (self : t) (num_rows i : nat) (x : Vec Num)
  : Vec Num :=
  let x :=
    fold_left
      (fun x j => <[i := x !!! i - mat_get (_u self) i j * x !!! j]> x)
      (seq (i + 1) (num_rows - (i + 1))) x in
  <[i := x !!! i / mat_get (_u self) i i]> x.

(** [operator()(x)]: multiply by the inverse matrix.  The second loop runs
    [i] from [num_rows - 1] down to 0. *)
Definition apply (self : t) (x : Vec Num) : Vec Num :=
  let num_rows := length x in
  let x := fold_left (fun x i => forward_row self i x) (seq 0 num_rows) x in
  fold_left (fun x i => backward_row self num_rows i x)
    (rev (seq 0 num_rows)) x.

End Inversion.

Arguments t : clear implicits.
End MatInv.

(** *** titfront: the menus

    [LeftMenu] and [BottomMenu] share the code below; they differ in the
    first active index (0 and -1) and in the layout.  [group] is a
    JavaScript number, of which the integers are covered; [Str] and [Node]
    stand for strings and React nodes. *)
Module Menu.
Section Menu.
Context {Str Node : Type}.

Record MenuItemProps := {
  name : Str;
  icon : Node;
  group : Z;
  children : option Node;
}.

(** The updater that [selectItem(index)] passes to [setActiveItemIndex]. *)
Definition selectItem (index prevIndex : Z) : Z :=
  if negb (prevIndex =? index) then index else -1.

Definition maxGroup (children : list MenuItemProps) : Z :=
  fold_left (fun max item => Z.max max (group item)) children 0.

(** [[...Array(maxGroup + 1).keys()]]; [Array(len)] throws a [RangeError]
    unless [len] is an integer from 0 to 2^32 - 1. *)
Definition group_keys (children : list MenuItemProps) : option (list Z) :=
  let len := maxGroup children + 1 in
  if (0 <=? len) && (len <=? 2 ^ 32 - 1)
  then Some (map Z.of_nat (seq 0 (Z.to_nat len)))
  else None.

(** [children.map((item, index) => item.props.group == group && <button>)]
    as React renders it: nothing for [false].  A button is the index of its
    item and whether it has the class of the active item. *)
Definition group_buttons (children : list MenuItemProps)
  (activeItemIndex group' : Z) : list (nat * bool) :=
  omap (fun button => button)
    (imap
       (fun index item =>
          if group item =? group'
          then Some (index, Z.of_nat index =? activeItemIndex)
          else None)
       children).

(** The buttons of the menu, one list for each [<div key={group}>]. *)
Definition menu_buttons (children : list MenuItemProps)
  (activeItemIndex : Z) : option (list (list (nat * bool))) :=
  match group_keys children with
  | Some keys => Some (map (group_buttons children activeItemIndex) keys)
  | None => None
  end.

End Menu.

Arguments MenuItemProps : clear implicits.
End Menu.

(** *** More concrete inputs *)


Definition line (a b : Q) (x : Q) : Q := Qred (a * x + b)%Q.

(** [f(x) = x^2 - 2]. *)
Definition square_minus_two_residual (x : Q) : Q := Qred (x * x - 2)%Q.

(** [pow(x, y)] at the exponent [-1], the exponent [init] passes on a
    line. *)
Definition reciprocal_pow (x y : Q) : Q := Qred (/ x).

(** A 2 x 2 matrix. *)
Definition example_matrix : Mat Q := [[2; 1]; [4; 5]]%Q.

(** A menu of three items in the groups 0, 2 and 0. *)
Definition example_menu : list (Menu.MenuItemProps unit unit) :=
  [ {| Menu.name := tt; Menu.icon := tt; Menu.group := 0;
       Menu.children := None |};
    {| Menu.name := tt; Menu.icon := tt; Menu.group := 2;
       Menu.children := None |};
    {| Menu.name := tt; Menu.icon := tt; Menu.group := 0;
       Menu.children := None |} ].

(** *** More vocabulary of the statements *)

(** The polynomial with coefficients [ci], lowest degree first, times
    [x^k]. *)
Fixpoint poly_sum (x : Q) (k : nat) (ci : list Q) : Q :=
  match ci with
  | [] => 0
  | c :: rest => c * x ^ Z.of_nat k + poly_sum x (S k) rest
  end%Q.

(** The kernels with piecewise-polynomial profiles, and among them the
    B-splines, whose derivative profile is the derivative of the value
    profile. *)
Definition spline_kernels (inv_pi : Q) : list (Kernel Q) :=
  [ CubicSmoothingKernel.kernel inv_pi;
    ThomasCouchmanSmoothingKernel.kernel inv_pi;
    QuarticSmoothingKernel.kernel inv_pi;
    QuinticSmoothingKernel.kernel inv_pi ].

Definition bspline_kernels (inv_pi : Q) : list (Kernel Q) :=
  [ CubicSmoothingKernel.kernel inv_pi;
    QuarticSmoothingKernel.kernel inv_pi;
    QuinticSmoothingKernel.kernel inv_pi ].

(** [q] and [q'] satisfy the guard of the same piece. *)
Definition same_piece (pieces : list (Piece Q)) (q q' : Q) : Prop :=
  Exists (fun '(lo, hi, _) => (lo <= q /\ q < hi) /\ (lo <= q' /\ q' < hi))%Q
         pieces.

(** The variables [estimate_forces] does not write. *)
Definition not_forces_scalar (x : PV.scalar) : bool :=
  match x with
  | PV.deps_dt | PV.dalpha_dt => false
  | _ => true
  end.

Definition not_forces_vector (x : PV.vector) : bool :=
  match x with
  | PV.dv_dt => false
  | _ => true
  end.

(** The variables [estimate_density] does not write. *)
Definition not_density_scalar (x : PV.scalar) : bool :=
  match x with
  | PV.h | PV.Omega | PV.rho | PV.p | PV.cs | PV.div_v => false
  | _ => true
  end.

Definition not_density_vector (x : PV.vector) : bool :=
  match x with
  | PV.curl_v => false
  | _ => true
  end.

(** The kernel sum [sum_b m[b] * W(r[a] - r[b], h_ab)] over a list of
    neighbours, read from the cloud [c]. *)
Definition kernel_sum {Num : Type} {number : Number Num}
  {vec_ops : VecOps Num} (K : Kernel Num) (h_ab : Num) (c : Cloud Num)
  (a : nat) (neighbours : list nat) : Num :=
  fold_left
    (fun acc b =>
       num_add acc
         (num_mul (sget PV.m b c)
            (SmoothingKernel.value K (vget2 PV.r a b c) h_ab)))
    neighbours num_0.

(** The vector that the force loop of the fixed-width estimator subtracts
    from [dv_dt[a]] for the neighbour [b]. *)
Definition classic_pair_force {Num : Type} {number : Number Num}
  {vec_ops : VecOps Num} {viscosity : ArtificialViscosity Num}
  (K : Kernel Num) (h_ab : Num) (a b : nat) (c : Cloud Num) : Vec Num :=
  vscale
    (num_mul (sget PV.m b c)
       (num_add
          (num_add (num_div (sget PV.p a c) (pow2 (sget PV.rho a c)))
                   (num_div (sget PV.p b c) (pow2 (sget PV.rho b c))))
          (kinematic (c !!! a) (c !!! b))))
    (SmoothingKernel.grad K (vget2 PV.r a b c) h_ab).

(** The tuples of a product of ranges, the first range varying slowest, and
    the number of them. *)
Fixpoint tuples {A : Type} (ranges : list (list A)) : list (list A) :=
  match ranges with
  | [] => [[]]
  | range :: rest => flat_map (fun x => map (cons x) (tuples rest)) range
  end.

Definition size_product {A : Type} (ranges : list (list A)) : N :=
  fold_right (fun range acc => (views.size range * acc)%N) 1%N ranges.

(** The sum of [f] over a list of indices, and the matrices with [Dim] rows
    of [Dim] numbers. *)
Definition sumQ (f : nat -> Q) (ks : list nat) : Q :=
  fold_right (fun k acc => f k + acc)%Q 0%Q ks.

Definition shape {Num : Type} (Dim : nat) (a : list (list Num)) : Prop :=
  length a = Dim /\ Forall (fun row => length row = Dim) a.

(** The state of the factorisation of [a] when the rows before [i] and the
    entries before [j] of row [i] are computed: every computed entry of
    [_l] and [_u] is given by its recurrence, the rest of [_l] is the unit
    matrix and the rest of [_u] is zero. *)
Definition lower_recurrence (a l u : list (list Q)) (r c : nat) : Prop :=
  (mat_get l r c ==
   (mat_get a r c
    - sumQ (fun k => mat_get l r k * mat_get u k c) (seq 0 c))
   / mat_get u c c)%Q.

Definition upper_recurrence (a l u : list (list Q)) (r c : nat) : Prop :=
  (mat_get u r c ==
   mat_get a r c
   - sumQ (fun k => mat_get l r k * mat_get u k c) (seq 0 r))%Q.

Definition computed (i j r c : nat) : Prop :=
  (r < i \/ (r = i /\ c < j))%nat.

Definition factors_state (n : nat) (a : list (list Q)) (i j : nat)
  (lu : list (list Q) * list (list Q)) : Prop :=
  shape n (fst lu) /\ shape n (snd lu) /\
  forall r c : nat, (r < n)%nat -> (c < n)%nat ->
    ((c < r)%nat -> computed i j r c ->
     lower_recurrence a (fst lu) (snd lu) r c) /\
    ((r <= c)%nat ->
     (mat_get (fst lu) r c == if (r =? c)%nat then 1 else 0)%Q) /\
    ((r <= c)%nat -> computed i j r c ->
     upper_recurrence a (fst lu) (snd lu) r c) /\
    ((c < r)%nat -> (mat_get (snd lu) r c == 0)%Q).

(** *** binary64 as a number type

    [double]: the operations of IEEE 754 binary64, rounding to nearest even.
    An integer is converted bit by bit, which is exact below 2^53 (and for a
    larger integer whose binary digits after the first 53 are zero); a
    decimal literal [n / d] is the quotient of the two integers, rounded
    once, which is the double nearest to the literal when [n] and [d]
    convert exactly.  [small_number_v] is [epsilon()] = 2^-52. *)
Fixpoint float_of_positive (p : positive) : PrimFloat.float :=
  match p with
  | xH => PrimFloat.one
  | xO p' => PrimFloat.mul PrimFloat.two (float_of_positive p')
  | xI p' =>
      PrimFloat.add (PrimFloat.mul PrimFloat.two (float_of_positive p'))
        PrimFloat.one
  end.

Definition float_of_Z (n : Z) : PrimFloat.float :=
  match n with
  | Z0 => PrimFloat.zero
  | Zpos p => float_of_positive p
  | Zneg p => PrimFloat.opp (float_of_positive p)
  end.

Definition float_of_Q (c : Q) : PrimFloat.float :=
  PrimFloat.div (float_of_Z (Qnum c)) (float_of_positive (Qden c)).

Definition binary64 : Number PrimFloat.float := {|
  num_0 := PrimFloat.zero;
  num_1 := PrimFloat.one;
  num_add := PrimFloat.add;
  num_sub := PrimFloat.sub;
  num_mul := PrimFloat.mul;
  num_div := PrimFloat.div;
  num_opp := PrimFloat.opp;
  num_abs := PrimFloat.abs;
  num_leb := PrimFloat.leb;
  num_ltb := PrimFloat.ltb;
  num_eqb := PrimFloat.eqb;
  num_of_Z := float_of_Z;
  lit := float_of_Q;
  small_number_v := float_of_Q (1 # 4503599627370496);
|}.

(** [f(x) = 0.9 - 10.0 * x * x], whose roots are -0.3 and 0.3. *)
Definition tenfold_square_residual {Num : Type} {number : Number Num}
  (x : Num) : Num :=
  num_sub (lit 0.9) (num_mul (num_mul (lit 10) x) x).

(** *** Vocabulary of the force sum *)

(** Two particles that differ at most in what the force pass writes:
    [dv_dt], [deps_dt] and [dalpha_dt]. *)
Definition same_outside_forces {Num : Type} (P P' : Particle Num) : Prop :=
  fixed P' = fixed P /\
  (forall x, not_forces_scalar x = true -> scalar_of P' x = scalar_of P x) /\
  (forall x, not_forces_vector x = true -> vector_of P' x = vector_of P x).

(** [p[a] / (Omega[a] * pow2(rho[a]))]. *)
Definition pressure_factor {Num : Type} {number : Number Num} (a : nat)
  (c : Cloud Num) : Num :=
  num_div (sget PV.p a c)
    (num_mul (sget PV.Omega a c) (pow2 (sget PV.rho a c))).

(** The acceleration that the neighbours [b] of [a] add up to, with every
    quantity read from the cloud [c]: the mass of [b] times the bracket
    [pair_term], subtracted from zero neighbour after neighbour. *)
Definition gradh_force_sum {Num : Type} {number : Number Num}
  {vec_ops : VecOps Num} {viscosity : ArtificialViscosity Num}
  (K : Kernel Num) (c : Cloud Num) (a : nat) (neighbours : list nat)
  : Vec Num :=
  fold_left
    (fun acc b =>
       vsub acc
         (vscale (sget PV.m b c)
            (GradHSmoothEstimator.pair_term K
               (pressure_factor a c) (pressure_factor b c)
               (kinematic (c !!! a) (c !!! b))
               (vget2 PV.r a b c) (sget PV.h a c) (sget PV.h b c))))
    neighbours (vzero (dim (vget PV.dv_dt a c))).

(** The force term as the specification words it: the pressure factors
    and the viscosity factor all on the averaged gradient [grad_ab]. *)
Definition averaged_gradient_term {Num : Type} {number : Number Num}
  {vec_ops : VecOps Num} {viscosity : ArtificialViscosity Num}
  (K : Kernel Num) (c : Cloud Num) (a b : nat) : Vec Num :=
  vscale
    (num_add (num_add (pressure_factor a c) (pressure_factor b c))
       (kinematic (c !!! a) (c !!! b)))
    (GradHSmoothEstimator.symmetrized_grad K (vget2 PV.r a b c)
       (sget PV.h a c) (sget PV.h b c)).

Definition averaged_gradient_sum {Num : Type} {number : Number Num}
  {vec_ops : VecOps Num} {viscosity : ArtificialViscosity Num}
  (K : Kernel Num) (c : Cloud Num) (a : nat) (neighbours : list nat)
  : Vec Num :=
  fold_left
    (fun acc b =>
       vsub acc (vscale (sget PV.m b c) (averaged_gradient_term K c a b)))
    neighbours (vzero (dim (vget PV.dv_dt a c))).

(** A viscosity that is symmetric in the two particles and reads their
    densities only: a tenth of the sum of the densities. *)
Definition mean_density_viscosity : ArtificialViscosity Q :=
  {| kinematic := fun P P' =>
       Qred ((scalar_of P PV.rho + scalar_of P' PV.rho) * (1 # 10))%Q;
     switch_deriv := fun _ => 0%Q |}.

(** A free particle of a plane, on the first axis at [x], of mass, density
    and [Omega] 1, with width [hh], pressure [pp] and a stale
    acceleration. *)
Definition plane_particle (x hh pp : Q) : Particle Q :=
  {| fixed := false;
     scalar_of := fun y =>
       match y with
       | PV.h => hh
       | PV.p => pp
       | PV.m | PV.rho | PV.Omega => 1
       | _ => 0
       end%Q;
     vector_of := fun y =>
       match y with
       | PV.r => [x; 0]
       | PV.dv_dt => [7; 7]
       | PV.curl_v => []
       | _ => [0; 0]
       end%Q |}.

(** Two free particles half a unit apart, of widths 1 and 2 and pressures 1
    and 3; and the same pair with the widths exchanged. *)
Definition unequal_pair : Cloud Q :=
  [plane_particle 0 1 1; plane_particle (1 # 2) 2 3].

Definition unequal_pair_exchanged : Cloud Q :=
  [plane_particle 0 2 1; plane_particle (1 # 2) 1 3].

(** ** Part II: properties *)

(** *** Newton-Raphson *)
Section NewtonRaphsonFacts.
Context {Num : Type} {number : Number Num} {St : Type}.
Variable get_x : St -> Num.
Variable set_x : Num -> St -> St.
Variable f : St -> (Num * Num) * St.

Lemma newton_raphson_step (eps : Num) (n : nat) (s : St) :
  newton_raphson get_x set_x f eps (S n) s =
  if nr_converged f eps s then (NewtonRaphsonStatus.success, snd (f s))
  else if nr_zero_deriv f s
       then (NewtonRaphsonStatus.fail_zero_deriv, snd (f s))
       else newton_raphson get_x set_x f eps n (nr_update get_x set_x f s).
Proof.
  unfold nr_converged, nr_zero_deriv, nr_update. simpl.
  destruct (f s) as [[y df_dx] s1]. reflexivity.
Qed.

(** C5 (as amended).  How a call ends: with [success] at the first
    iteration whose residual is within [eps]; with [fail_zero_deriv] at the
    first iteration whose residual is not within [eps] and whose derivative
    is within [small_number_v] (not [eps]) in absolute value; with
    [fail_max_iter] when [max_iter] iterations pass with neither.  Every
    iteration that passes updates the estimate by [x -= y / df_dx]
    ([nr_update]). *)
Theorem newton_raphson_exits (eps : Num) (max_iter : nat) (s : St) :
  (exists k, (k < max_iter)%nat /\
     (forall j, (j < k)%nat ->
        nr_continues f eps (nr_iterate get_x set_x f j s)) /\
     nr_converged f eps (nr_iterate get_x set_x f k s) = true /\
     newton_raphson get_x set_x f eps max_iter s =
       (NewtonRaphsonStatus.success,
        snd (f (nr_iterate get_x set_x f k s)))) \/
  (exists k, (k < max_iter)%nat /\
     (forall j, (j < k)%nat ->
        nr_continues f eps (nr_iterate get_x set_x f j s)) /\
     nr_converged f eps (nr_iterate get_x set_x f k s) = false /\
     is_small (snd (fst (f (nr_iterate get_x set_x f k s)))) = true /\
     newton_raphson get_x set_x f eps max_iter s =
       (NewtonRaphsonStatus.fail_zero_deriv,
        snd (f (nr_iterate get_x set_x f k s)))) \/
  ((forall j, (j < max_iter)%nat ->
      nr_continues f eps (nr_iterate get_x set_x f j s)) /\
   newton_raphson get_x set_x f eps max_iter s =
     (NewtonRaphsonStatus.fail_max_iter,
      nr_iterate get_x set_x f max_iter s)).
Proof.
  revert s. induction max_iter as [|n IH]; intros s.
  - right. right. split; [intros j Hj; lia | reflexivity].
  - rewrite newton_raphson_step.
    destruct (nr_converged f eps s) eqn:Hc.
    + left. exists 0%nat. simpl.
      split; [lia | split; [intros j Hj; lia | split; [exact Hc | reflexivity]]].
    + destruct (nr_zero_deriv f s) eqn:Hz.
      * right. left. exists 0%nat. simpl.
        split; [lia | split; [intros j Hj; lia |]].
        split; [exact Hc | split; [exact Hz | reflexivity]].
      * assert (Hs : nr_continues f eps s) by (split; assumption).
        destruct (IH (nr_update get_x set_x f s))
          as [(k & Hk & Hbefore & Hconv & Hres)
             |[(k & Hk & Hbefore & Hconv & Hsmall & Hres)
             |(Hall & Hres)]].
        -- left. exists (S k). simpl.
           split; [lia | split; [| split; [exact Hconv | exact Hres]]].
           intros [|j] Hj; simpl; [exact Hs | apply Hbefore; lia].
        -- right. left. exists (S k). simpl.
           split; [lia | split; [| split; [exact Hconv | split; [exact Hsmall | exact Hres]]]].
           intros [|j] Hj; simpl; [exact Hs | apply Hbefore; lia].
        -- right. right. simpl. split; [| exact Hres].
           intros [|j] Hj; simpl; [exact Hs | apply Hall; lia].
Qed.

End NewtonRaphsonFacts.

(** C5 (as stated) fails.  With tolerance [eps = 1], [f(x) = x / 2] and
    [x = 10], the first residual is 5, not within [eps], and the derivative
    [1 / 2] is smaller than [eps] in absolute value; the call does not
    return [fail_zero_deriv]: it takes the step to [x = 0] and returns
    [success], with either value of [small_number_v]. *)
Lemma newton_raphson_small_deriv_not_eps :
  nr_converged half_line 1%Q 10%Q = false /\
  (Qabs (snd (fst (half_line 10%Q))) < 1)%Q /\
  fst (newton_raphson scalar_get scalar_set half_line 1%Q 10 10%Q)
    <> NewtonRaphsonStatus.fail_zero_deriv /\
  newton_raphson scalar_get scalar_set half_line 1%Q 10 10%Q
    = (NewtonRaphsonStatus.success, 0%Q) /\
  newton_raphson (number := Q_Number_cbrt) scalar_get scalar_set half_line 1%Q 10
    10%Q
    = (NewtonRaphsonStatus.success, 0%Q).
Proof.
  split; [reflexivity |]. split; [reflexivity |].
  split; [vm_compute; discriminate |]. split; vm_compute; reflexivity.
Qed.

(** The solver on [x^2 - 2]: from [x = 1] it converges within the default
    tolerance and cap, from [x = 0] it stops on the zero derivative. *)
Example newton_raphson_sqrt2 :
  fst (newton_raphson scalar_get scalar_set square_minus_two
         small_number_v 10 1%Q) = NewtonRaphsonStatus.success /\
  fst (newton_raphson scalar_get scalar_set square_minus_two
         small_number_v 10 0%Q) = NewtonRaphsonStatus.fail_zero_deriv.
Proof. split; vm_compute; reflexivity. Qed.

(** *** Bisection *)
Section BisectionFacts.
Context {Num : Type} {number : Number Num}.
Variable f : Num -> Num.
Variable eps : Num.

Lemma bisection_loop_success (n : nat) :
  forall min_x max_x min_f max_f lo hi,
    bisection_loop f eps n min_x max_x min_f max_f
      = (BisectionStatus.success, lo, hi) ->
    lo = hi /\ num_leb (num_abs (f lo)) eps = true.
Proof.
  induction n as [|n IH]; intros min_x max_x min_f max_f lo hi; simpl.
  - discriminate.
  - destruct (num_eqb (sign max_f) (sign min_f)); [discriminate |].
    set (x := num_sub min_x _).
    destruct (num_leb (num_abs (f x)) eps) eqn:Hy.
    + intros [= <- <-]. split; [reflexivity | exact Hy].
    + destruct (negb (num_eqb (sign (f x)) (sign min_f))); [apply IH |].
      destruct (negb (num_eqb (sign (f x)) (sign max_f))); apply IH.
Qed.

(** Success collapses the bracket onto a point whose residual is within
    the tolerance; this holds for every number type. *)
Lemma bisection_success_collapses (min_x max_x : Num) (n : nat) (lo hi : Num) :
  bisection f eps min_x max_x n = (BisectionStatus.success, lo, hi) ->
  lo = hi /\ num_leb (num_abs (f lo)) eps = true.
Proof.
  unfold bisection.
  destruct (num_leb (num_abs (f min_x)) eps) eqn:Hmin.
  - intros [= <- <-]. split; [reflexivity | exact Hmin].
  - destruct (num_leb (num_abs (f max_x)) eps) eqn:Hmax.
    + intros [= <- <-]. split; [reflexivity | exact Hmax].
    + apply bisection_loop_success.
Qed.

(** C6 (as amended).  When the residuals at the two ends have the same
    sign, neither is within the tolerance, and at least one iteration is
    allowed, the call returns [failure_sign] and leaves the bracket as it
    was. *)
Theorem bisection_same_sign (min_x max_x : Num) (max_iter : nat) :
  num_eqb (sign (f max_x)) (sign (f min_x)) = true ->
  num_leb (num_abs (f min_x)) eps = false ->
  num_leb (num_abs (f max_x)) eps = false ->
  max_iter <> 0%nat ->
  bisection f eps min_x max_x max_iter
    = (BisectionStatus.failure_sign, min_x, max_x).
Proof.
  intros Hsign Hmin Hmax Hiter. unfold bisection. rewrite Hmin, Hmax.
  destruct max_iter as [|n]; [congruence |].
  simpl. rewrite Hsign. reflexivity.
Qed.

End BisectionFacts.

Lemma bisection_same_sign_witness :
  num_eqb (sign (square_plus_one 1%Q)) (sign (square_plus_one (-1)%Q)) = true /\
  num_leb (num_abs (square_plus_one (-1)%Q)) small_number_v = false /\
  num_leb (num_abs (square_plus_one 1%Q)) small_number_v = false /\
  10%nat <> 0%nat /\
  bisection square_plus_one small_number_v (-1)%Q 1%Q 10
    = (BisectionStatus.failure_sign, (-1)%Q, 1%Q).
Proof.
  split; [reflexivity |]. split; [reflexivity |]. split; [reflexivity |].
  split; [discriminate |].
  apply (bisection_same_sign square_plus_one small_number_v (-1)%Q 1%Q 10);
    [reflexivity | reflexivity | reflexivity | discriminate].
Defined.

(** C6 (as stated) fails.  With [f(x) = x] on [[1/4, 1]] both residuals are
    positive; with tolerance [1/2] the call returns [success] (the lower end
    is within the tolerance), and with tolerance [1/8] and [max_iter = 0] it
    returns [fail_max_iter]. *)
Lemma bisection_same_sign_not_failure :
  num_eqb (sign (identity_residual 1%Q)) (sign (identity_residual (1 # 4)%Q))
    = true /\
  bisection identity_residual (1 # 2)%Q (1 # 4)%Q 1%Q 10
    = (BisectionStatus.success, (1 # 4)%Q, (1 # 4)%Q) /\
  bisection identity_residual (1 # 8)%Q (1 # 4)%Q 1%Q 0
    = (BisectionStatus.fail_max_iter, (1 # 4)%Q, 1%Q).
Proof. split; [reflexivity | split; reflexivity]. Qed.

(** **** The bracket in exact arithmetic *)
Section BisectionExact.
Variable f : Q -> Q.
Variable eps : Q.
Local Open Scope Q_scope.

Lemma sign_Q_cases (a : Q) :
  (a < 0 /\ sign a = inject_Z (-1)) \/
  (a == 0 /\ sign a = inject_Z 0) \/
  (0 < a /\ sign a = inject_Z 1).
Proof.
  unfold sign; simpl.
  destruct (Qle_bool a 0) eqn:Hle; destruct (Qle_bool 0 a) eqn:Hge; simpl.
  - apply Qle_bool_iff in Hle, Hge. right; left. split; [lra | reflexivity].
  - apply Qle_bool_iff in Hle.
    assert (~ 0 <= a) by (rewrite <- Qle_bool_iff; congruence).
    left. split; [lra | reflexivity].
  - apply Qle_bool_iff in Hge.
    assert (~ a <= 0) by (rewrite <- Qle_bool_iff; congruence).
    right; right. split; [lra | reflexivity].
  - assert (~ 0 <= a) by (rewrite <- Qle_bool_iff; congruence).
    assert (~ a <= 0) by (rewrite <- Qle_bool_iff; congruence).
    lra.
Qed.

(** The arithmetic of [Q_Number] has the values of exact arithmetic. *)
Lemma Q_number_value (a b : Q) :
  (a + b)%num == a + b /\ (a - b)%num == a - b /\
  (a * b)%num == a * b /\ (a / b)%num == a / b /\
  (- a)%num == - a /\ num_abs a == Qabs a.
Proof. cbn. rewrite !Qred_correct. repeat split; reflexivity. Qed.

(** With residuals of different sign at the ends of a bracket, the
    false-position estimate lies in the bracket. *)
Lemma false_position_between (min_x max_x min_f max_f : Q) :
  min_x <= max_x ->
  Qeq_bool (sign max_f) (sign min_f) = false ->
  min_x <= (min_x - min_f * (max_x - min_x) / (max_f - min_f))%num <= max_x.
Proof.
  intros Hle Hsign.
  assert (Hdiff : (min_f <= 0 /\ 0 <= max_f /\ min_f < max_f) \/
                  (max_f <= 0 /\ 0 <= min_f /\ max_f < min_f)).
  { destruct (sign_Q_cases min_f) as [[H1 E1]|[[H1 E1]|[H1 E1]]];
      destruct (sign_Q_cases max_f) as [[H2 E2]|[[H2 E2]|[H2 E2]]];
      rewrite E1, E2 in Hsign; try discriminate Hsign;
      try (left; lra); right; lra. }
  cbn. rewrite !Qred_correct.
  set (t := min_f * (max_x - min_x) / (max_f - min_f)).
  assert (Ht : t * (max_f - min_f) == min_f * (max_x - min_x)).
  { unfold t. field. destruct Hdiff; lra. }
  destruct Hdiff as [(H1 & H2 & H3)|(H1 & H2 & H3)]; split; nra.
Qed.

Lemma bisection_loop_ordered (n : nat) :
  forall min_x max_x min_f max_f st lo hi,
    min_x <= max_x ->
    bisection_loop f eps n min_x max_x min_f max_f = (st, lo, hi) ->
    lo <= hi.
Proof.
  induction n as [|n IH]; intros min_x max_x min_f max_f st lo hi Hle;
    cbn [bisection_loop].
  - intros [= _ <- <-]. exact Hle.
  - destruct (num_eqb (sign max_f) (sign min_f)) eqn:Hsign.
    + intros [= _ <- <-]. exact Hle.
    + pose proof (false_position_between min_x max_x min_f max_f Hle Hsign)
        as [Hlo Hhi].
      set (x := num_sub min_x _) in *.
      destruct (num_leb (num_abs (f x)) eps).
      * intros [= _ <- <-]. apply Qle_refl.
      * destruct (negb (num_eqb (sign (f x)) (sign min_f)));
          [apply IH; exact Hlo |].
        destruct (negb (num_eqb (sign (f x)) (sign max_f)));
          apply IH; assumption.
Qed.

(** In exact arithmetic a bracket that is ordered on entry is ordered on
    every return. *)
Lemma bisection_ordered (min_x max_x : Q) (max_iter : nat)
  (st : BisectionStatus.t) (lo hi : Q) :
  min_x <= max_x ->
  bisection f eps min_x max_x max_iter = (st, lo, hi) ->
  lo <= hi.
Proof.
  intros Hle. unfold bisection.
  destruct (num_leb (num_abs (f min_x)) eps).
  - intros [= _ <- <-]. apply Qle_refl.
  - destruct (num_leb (num_abs (f max_x)) eps).
    + intros [= _ <- <-]. apply Qle_refl.
    + apply bisection_loop_ordered. exact Hle.
Qed.

End BisectionExact.

(** C10.  When [bisection] returns [success] it has collapsed the bracket:
    [min_x] equals [max_x] on return and the residual there is within [eps]
    in absolute value, with every number type.  In exact arithmetic, for a
    bracket with [min_x <= max_x] on entry (the function's asserted
    precondition), the bracket of every other return still has
    [min_x <= max_x]. *)
Theorem bisection_bracket :
  (forall (Num : Type) (number : Number Num) (f : Num -> Num)
          (eps min_x max_x : Num) (max_iter : nat) (lo hi : Num),
     bisection f eps min_x max_x max_iter
       = (BisectionStatus.success, lo, hi) ->
     lo = hi /\ num_leb (num_abs (f lo)) eps = true) /\
  (forall (f : Q -> Q) (eps min_x max_x : Q) (max_iter : nat)
          (st : BisectionStatus.t) (lo hi : Q),
     (min_x <= max_x)%Q ->
     bisection f eps min_x max_x max_iter = (st, lo, hi) ->
     st <> BisectionStatus.success ->
     (lo <= hi)%Q).
Proof.
  split.
  - intros Num number f eps min_x max_x max_iter lo hi Hres.
    exact (bisection_success_collapses f eps _ _ _ _ _ Hres).
  - intros f eps min_x max_x max_iter st lo hi Hle Hres _.
    exact (bisection_ordered f eps min_x max_x max_iter st lo hi Hle Hres).
Qed.

Lemma bisection_bracket_witness :
  (let number := binary64 in
   lit 0.3 = lit 0.3 /\
   num_leb (num_abs (tenfold_square_residual (lit 0.3))) small_number_v
   = true) /\
  (-1 <= 1 # 5)%Q /\
  BisectionStatus.fail_max_iter <> BisectionStatus.success /\
  (-1 <= - (241 # 6520))%Q.
Proof.
  split.
  - apply (proj1 bisection_bracket PrimFloat.float binary64
             (tenfold_square_residual (number := binary64))
             (small_number_v (Number := binary64))
             (num_of_Z (Number := binary64) (-1))
             (lit (Number := binary64) 0.3) 10%nat).
    vm_compute. reflexivity.
  - split; [discriminate |]. split; [discriminate |].
    apply (proj2 bisection_bracket
             (tenfold_square_residual (number := Q_Number))
             (1 # 10000000000000000)%Q (-1)%Q (1 # 5)%Q 3%nat
             BisectionStatus.fail_max_iter);
      [discriminate | vm_compute; reflexivity | discriminate].
Defined.

(** At binary64 the bracket can come back inverted.  On
    [f(x) = 0.9 - 10.0 * x * x] with the bracket [-1, 0.3] and the tolerance
    [1e-16], the residual at 0.3 is 2^-53; the false-position estimate
    rounds to the double above 0.3, where the residual is -2^-52, and the
    estimate is stored in [min_x]: the call returns [fail_max_iter] with
    [min_x] the double above 0.3 and [max_x = 0.3].  In exact arithmetic
    the residual at 0.3 is 0 and the same call returns [success]. *)
Lemma bisection_bracket_inverted_binary64 :
  let min_x := num_of_Z (Number := binary64) (-1) in
  let max_x := lit (Number := binary64) 0.3 in
  let eps := lit (Number := binary64) (1 # 10000000000000000) in
  let result :=
    bisection (number := binary64)
      (tenfold_square_residual (number := binary64)) eps min_x max_x 10 in
  PrimFloat.leb min_x max_x = true /\
  result = (BisectionStatus.fail_max_iter, PrimFloat.next_up max_x, max_x) /\
  PrimFloat.leb (snd (fst result)) (snd result) = false /\
  PrimFloat.ltb (snd result) (snd (fst result)) = true /\
  bisection (number := Q_Number)
    (tenfold_square_residual (number := Q_Number))
    (1 # 10000000000000000)%Q (-1)%Q 0.3%Q 10
  = (BisectionStatus.success, 0.3%Q, 0.3%Q).
Proof.
  cbv zeta. repeat split; vm_compute; reflexivity.
Qed.

(** *** Smoothing kernels *)

(** The value and derivative profiles of the B-spline kernels are continuous
    where their pieces meet, and reach 0 at the unit radius. *)
Lemma cubic_continuous :
  boundaries_continuous Qeq (@CubicSmoothingKernel.unit_value_pieces Q _) /\
  boundaries_continuous Qeq (@CubicSmoothingKernel.unit_deriv_pieces Q _).
Proof. split; repeat constructor. Qed.

Lemma quartic_continuous :
  boundaries_continuous Qeq (@QuarticSmoothingKernel.unit_value_pieces Q _) /\
  boundaries_continuous Qeq (@QuarticSmoothingKernel.unit_deriv_pieces Q _).
Proof. split; repeat constructor. Qed.

Lemma quintic_continuous :
  boundaries_continuous Qeq (@QuinticSmoothingKernel.unit_value_pieces Q _) /\
  boundaries_continuous Qeq (@QuinticSmoothingKernel.unit_deriv_pieces Q _).
Proof. split; repeat constructor. Qed.

(** Between 2/3 and 1 the Thomas-Couchman derivative profile stays at or
    below -3/4, and at 1 it is 3/4: a jump of at least 3/2. *)
Lemma thomas_couchman_unit_deriv_left_of_1 (q : Q) :
  (2 # 3 <= q)%Q -> (q < 1)%Q ->
  (ThomasCouchmanSmoothingKernel.unit_deriv q <= - (3 # 4))%Q.
Proof.
  intros Hlo Hhi.
  assert (H1 : Qle_bool (Qred (2.0 / 3.0)) q = true)
    by (apply Qle_bool_iff; exact Hlo).
  assert (H2 : Qle_bool (Qred 1.0) q = false)
    by (apply not_true_is_false; rewrite Qle_bool_iff, Qred_correct; lra).
  change (ThomasCouchmanSmoothingKernel.unit_deriv q) with
    (if Qle_bool (Qred 0.0) q && negb (Qle_bool (Qred (2.0 / 3.0)) q)
     then Qred (- Qred 1.0)
     else if Qle_bool (Qred (2.0 / 3.0)) q && negb (Qle_bool (Qred 1.0) q)
          then Qred (Qred (Qred (Qred 2.25 * q) - Qred 3.0) * q)
          else if Qle_bool (Qred 1.0) q && negb (Qle_bool (Qred 2.0) q)
               then Qred (Qred 0.75 * pow2 (Qred (Qred 2.0 - q)))
               else Qred 0.0)%Q.
  rewrite H1, H2, andb_false_r. cbn [andb negb].
  rewrite !Qred_correct. nra.
Qed.

(** C3.  The derivative profile of the Thomas-Couchman kernel is not
    continuous where its second and third pieces meet.  Its boundaries are
    2/3, 1 and 2; at 1 the piece below has the value -3/4 and the piece
    above the value 3/4 (the cubic kernel has -3/4 on both sides there). *)
Theorem thomas_couchman_unit_deriv_boundaries :
  map (fun '(q, below, above) => (Qred q, Qred below, Qred above))
      (boundary_values (@ThomasCouchmanSmoothingKernel.unit_deriv_pieces Q _))
    = [ (2 # 3, - 1, - 1); (1, - (3 # 4), 3 # 4); (2, 0, 0) ]%Q /\
  map (fun '(q, below, above) => (Qred q, Qred below, Qred above))
      (boundary_values (@CubicSmoothingKernel.unit_deriv_pieces Q _))
    = [ (1, - (3 # 4), - (3 # 4)); (2, 0, 0) ]%Q /\
  (ThomasCouchmanSmoothingKernel.unit_deriv 1 == 3 # 4)%Q /\
  (ThomasCouchmanSmoothingKernel.unit_deriv (999 # 1000) <= - (3 # 4))%Q.
Proof.
  split; [vm_compute; reflexivity |]. split; [vm_compute; reflexivity |].
  split; [reflexivity | discriminate].
Qed.

(** **** The gradient *)
Section KernelGradient.
Context (V : VecOps Q).
Variable K : Kernel Q.
Local Open Scope Q_scope.

Lemma Qmult_opp_opp_eq (c x : Q) : (c * x)%num = (- (c * - x))%num.
Proof. cbn. apply Qred_complete. rewrite !Qred_correct. ring. Qed.

Lemma dim_vopp (a : Vec Q) : dim (vopp a) = dim a.
Proof. unfold dim, vopp. apply length_map. Qed.

Lemma vscale_vopp (c : Q) (a : Vec Q) :
  vscale c a = vopp (vscale c (vopp a)).
Proof.
  unfold vscale, vopp. rewrite !map_map. apply map_ext.
  intros x. apply Qmult_opp_opp_eq.
Qed.

Lemma vscale_zero (c : Q) (n : nat) :
  Forall (fun x => x == 0) (vscale c (vzero n)).
Proof.
  unfold vscale, vzero. induction n as [|n IH]; simpl; constructor.
  - rewrite Qred_correct. ring.
  - exact IH.
Qed.

(** C8.  For every kernel and every width, the gradient at [r] is the
    negation of the gradient at [-r], component for component, provided the
    norm does not distinguish [r] from [-r]; and the gradient at the zero
    displacement is the zero vector, the factor [unit_deriv(q) / q] being
    taken as 0 there by [safe_divide]. *)
Theorem grad_antisymmetric (r : Vec Q) (h : Q) :
  (forall a : Vec Q, norm (vopp a) = norm a) ->
  (norm (vzero (dim r)) == 0) ->
  SmoothingKernel.grad K r h = vopp (SmoothingKernel.grad K (vopp r) h) /\
  safe_divide (kernel_unit_deriv K (inverse h * norm (vzero (dim r)))%num)
              (inverse h * norm (vzero (dim r)))%num = 0 /\
  Forall (fun x => x == 0) (SmoothingKernel.grad K (vzero (dim r)) h).
Proof.
  intros Hnorm Hzero. split; [| split].
  - unfold SmoothingKernel.grad. rewrite Hnorm, dim_vopp.
    apply vscale_vopp.
  - unfold safe_divide, is_small.
    match goal with
    | |- (if ?b then _ else _) = _ =>
        assert (Hb : b = true); [| rewrite Hb; reflexivity]
    end.
    apply Qle_bool_iff.
    set (z := norm (vzero (dim r))) in *.
    destruct (Q_number_value (inverse h) z) as (_ & _ & Hm & _).
    destruct (Q_number_value (inverse h * z)%num 0) as (_ & _ & _ & _ & _ & Ha).
    rewrite Ha, Hm, Hzero.
    assert (E : inverse h * 0 == 0) by ring. rewrite E. discriminate.
  - unfold SmoothingKernel.grad. apply vscale_zero.
Qed.

End KernelGradient.

Lemma Q_norm_vopp (a : Vec Q) : norm (vopp a) = norm a.
Proof.
  unfold vopp; simpl. induction a as [|x a IH]; simpl; [reflexivity |].
  rewrite IH. apply Qred_complete. rewrite Qred_correct, Qabs_opp. reflexivity.
Qed.

Lemma grad_antisymmetric_witness :
  (forall a : Vec Q, norm (vopp a) = norm a) /\
  (norm (vzero (dim [3 # 2])) == 0)%Q /\
  SmoothingKernel.grad (CubicSmoothingKernel.kernel (113 # 355)) [3 # 2] 1%Q
    = vopp (SmoothingKernel.grad (CubicSmoothingKernel.kernel (113 # 355))
              (vopp [3 # 2]) 1%Q) /\
  safe_divide
    (kernel_unit_deriv (CubicSmoothingKernel.kernel (113 # 355))
       (inverse 1%Q * norm (vzero (dim [3 # 2])))%num)
    (inverse 1%Q * norm (vzero (dim [3 # 2])))%num = 0%Q /\
  Forall (fun x => x == 0)%Q
    (SmoothingKernel.grad (CubicSmoothingKernel.kernel (113 # 355))
       (vzero (dim [3 # 2])) 1%Q).
Proof.
  split; [exact Q_norm_vopp |]. split; [reflexivity |].
  apply (grad_antisymmetric Q_VecOps (CubicSmoothingKernel.kernel (113 # 355))
           [3 # 2] 1%Q Q_norm_vopp).
  reflexivity.
Defined.

(** *** Particle clouds: what a write changes *)
Section CloudFacts.
Context {Num : Type} {number : Number Num}.

Lemma fold_left_invariant {A B : Type} (P : A -> Prop) (step : B -> A -> A)
  (l : list B) (s : A) :
  P s -> (forall b s', P s' -> P (step b s')) ->
  P (fold_left (fun s' b => step b s') l s).
Proof.
  intros Hs Hstep. revert s Hs.
  induction l as [|b l IH]; intros s Hs; simpl; [exact Hs |].
  apply IH, Hstep, Hs.
Qed.

Lemma for_each_invariant (P : Cloud Num -> Prop)
  (body : nat -> Cloud Num -> Cloud Num) (c : Cloud Num) :
  P c -> (forall a c', P c' -> P (body a c')) -> P (for_each body c).
Proof. unfold for_each. apply fold_left_invariant. Qed.

Lemma for_nearby_invariant {cloud : ParticleCloud Num} (P : Cloud Num -> Prop)
  (a : nat) (search_radius : Num) (body : nat -> Cloud Num -> Cloud Num)
  (c : Cloud Num) :
  P c -> (forall b c', P c' -> P (body b c')) ->
  P (for_nearby a search_radius body c).
Proof. unfold for_nearby. apply fold_left_invariant. Qed.

Lemma when_invariant (P : Cloud Num -> Prop) (flag : bool)
  (stmt : Cloud Num -> Cloud Num) (c : Cloud Num) :
  P c -> (flag = true -> forall c', P c' -> P (stmt c')) -> P (when flag stmt c).
Proof.
  intros Hc Hstmt. unfold when. destruct flag; [apply Hstmt; auto | exact Hc].
Qed.

(** Whatever the closure and the update of [x] preserve, the solver
    preserves. *)
Lemma newton_raphson_invariant {St : Type} (P : St -> Prop)
  (get_x : St -> Num) (set_x : Num -> St -> St) (f : St -> (Num * Num) * St)
  (eps : Num) (max_iter : nat) (s : St) :
  P s -> (forall s', P s' -> P (snd (f s'))) ->
  (forall val s', P s' -> P (set_x val s')) ->
  P (snd (newton_raphson get_x set_x f eps max_iter s)).
Proof.
  intros Hs Hf Hset. revert s Hs.
  induction max_iter as [|n IH]; intros s Hs; simpl; [exact Hs |].
  pose proof (Hf s Hs) as Hfs. destruct (f s) as [[y df_dx] s1]. simpl in Hfs.
  destruct (num_leb (num_abs y) eps); [exact Hfs |].
  destruct (is_small df_dx); [exact Hfs |].
  apply IH, Hset, Hfs.
Qed.

Lemma length_sset (x : PV.scalar) (a : nat) (val : Num) (c : Cloud Num) :
  length (sset x a val c) = length c.
Proof. unfold sset. apply length_insert. Qed.

Lemma length_vset (x : PV.vector) (a : nat) (val : Vec Num) (c : Cloud Num) :
  length (vset x a val c) = length c.
Proof. unfold vset. apply length_insert. Qed.

Lemma lookup_sset (x : PV.scalar) (a b : nat) (val : Num) (c : Cloud Num) :
  sset x a val c !!! b =
  if decide (a = b /\ (a < length c)%nat)
  then with_scalar x val (c !!! a) else c !!! b.
Proof. unfold sset. apply list_lookup_total_insert. Qed.

Lemma lookup_vset (x : PV.vector) (a b : nat) (val : Vec Num) (c : Cloud Num) :
  vset x a val c !!! b =
  if decide (a = b /\ (a < length c)%nat)
  then with_vector x val (c !!! a) else c !!! b.
Proof. unfold vset. apply list_lookup_total_insert. Qed.

Lemma lookup_sset_eq (x : PV.scalar) (a : nat) (val : Num) (c : Cloud Num) :
  (a < length c)%nat -> sset x a val c !!! a = with_scalar x val (c !!! a).
Proof. intros Ha. unfold sset. apply list_lookup_total_insert_eq, Ha. Qed.

Lemma lookup_vset_eq (x : PV.vector) (a : nat) (val : Vec Num)
  (c : Cloud Num) :
  (a < length c)%nat -> vset x a val c !!! a = with_vector x val (c !!! a).
Proof. intros Ha. unfold vset. apply list_lookup_total_insert_eq, Ha. Qed.

(** [for_each] runs the iterations before [a], then the one for [a], then
    the ones after [a]. *)
Lemma for_each_at (body : nat -> Cloud Num -> Cloud Num) (a : nat)
  (c : Cloud Num) :
  (a < length c)%nat ->
  for_each body c =
  fold_left (fun c' b => body b c') (seq (S a) (length c - S a))
    (body a (for_each_before body a c)).
Proof.
  intros Ha. unfold for_each, for_each_before.
  replace (length c) with (a + S (length c - S a))%nat at 1 by lia.
  rewrite seq_app, fold_left_app. reflexivity.
Qed.

Lemma length_for_each_before (body : nat -> Cloud Num -> Cloud Num) (a : nat)
  (c : Cloud Num) :
  (forall b c', length (body b c') = length c') ->
  length (for_each_before body a c) = length c.
Proof.
  intros Hbody. unfold for_each_before.
  apply (fold_left_invariant (fun c' => length c' = length c));
    [reflexivity |].
  intros b c' Hc'. rewrite Hbody. exact Hc'.
Qed.

Section Keeps.
Variable a0 : nat.
Variable Ks : PV.scalar -> bool.
Variable Kv : PV.vector -> bool.
Variable c0 : Cloud Num.

Lemma keeps_refl : keeps a0 Ks Kv c0 c0.
Proof. repeat split. Qed.

(** A write to another particle, or to a variable that is not selected. *)
Lemma keeps_sset (x : PV.scalar) (a : nat) (val : Num) (c : Cloud Num) :
  a <> a0 \/ Ks x = false ->
  keeps a0 Ks Kv c0 c -> keeps a0 Ks Kv c0 (sset x a val c).
Proof.
  intros Hside (Hfix & Hs & Hv). unfold keeps. rewrite lookup_sset.
  destruct (decide (a = a0 /\ (a < length c)%nat)) as [[-> _]|_];
    [| repeat split; assumption].
  simpl. split; [exact Hfix | split; [| exact Hv]].
  intros y Hy. destruct (decide (y = x)) as [->|_]; [| apply Hs, Hy].
  destruct Hside as [Hne|Hx]; congruence.
Qed.

Lemma keeps_vset (x : PV.vector) (a : nat) (val : Vec Num) (c : Cloud Num) :
  a <> a0 \/ Kv x = false ->
  keeps a0 Ks Kv c0 c -> keeps a0 Ks Kv c0 (vset x a val c).
Proof.
  intros Hside (Hfix & Hs & Hv). unfold keeps. rewrite lookup_vset.
  destruct (decide (a = a0 /\ (a < length c)%nat)) as [[-> _]|_];
    [| repeat split; assumption].
  simpl. split; [exact Hfix | split; [exact Hs |]].
  intros y Hy. destruct (decide (y = x)) as [->|_]; [| apply Hv, Hy].
  destruct Hside as [Hne|Hx]; congruence.
Qed.

Lemma keeps_is_fixed (c : Cloud Num) :
  keeps a0 Ks Kv c0 c -> is_fixed a0 c = is_fixed a0 c0.
Proof. intros (Hfix & _). exact Hfix. Qed.

Lemma keeps_when (flag : bool) (stmt : Cloud Num -> Cloud Num)
  (c : Cloud Num) :
  keeps a0 Ks Kv c0 c ->
  (flag = true -> forall c', keeps a0 Ks Kv c0 c' -> keeps a0 Ks Kv c0 (stmt c')) ->
  keeps a0 Ks Kv c0 (when flag stmt c).
Proof. apply (when_invariant (keeps a0 Ks Kv c0)). Qed.

Lemma keeps_for_nearby {cloud : ParticleCloud Num} (a : nat)
  (search_radius : Num) (body : nat -> Cloud Num -> Cloud Num)
  (c : Cloud Num) :
  keeps a0 Ks Kv c0 c ->
  (forall b c', keeps a0 Ks Kv c0 c' -> keeps a0 Ks Kv c0 (body b c')) ->
  keeps a0 Ks Kv c0 (for_nearby a search_radius body c).
Proof. apply (for_nearby_invariant (keeps a0 Ks Kv c0)). Qed.

Lemma keeps_for_each (body : nat -> Cloud Num -> Cloud Num) (c : Cloud Num) :
  keeps a0 Ks Kv c0 c ->
  (forall a c', keeps a0 Ks Kv c0 c' -> keeps a0 Ks Kv c0 (body a c')) ->
  keeps a0 Ks Kv c0 (for_each body c).
Proof. apply (for_each_invariant (keeps a0 Ks Kv c0)). Qed.

Lemma keeps_newton_raphson (get_x : Cloud Num -> Num)
  (set_x : Num -> Cloud Num -> Cloud Num)
  (f : Cloud Num -> (Num * Num) * Cloud Num) (eps : Num) (max_iter : nat)
  (c : Cloud Num) :
  keeps a0 Ks Kv c0 c ->
  (forall c', keeps a0 Ks Kv c0 c' -> keeps a0 Ks Kv c0 (snd (f c'))) ->
  (forall val c', keeps a0 Ks Kv c0 c' -> keeps a0 Ks Kv c0 (set_x val c')) ->
  keeps a0 Ks Kv c0 (snd (newton_raphson get_x set_x f eps max_iter c)).
Proof. apply (newton_raphson_invariant (keeps a0 Ks Kv c0)). Qed.

(** When no iteration writes another particle than its own, a particle has
    after [for_each] what its own iteration left, and had at the start of
    its own iteration what it had before [for_each]. *)
Lemma for_each_own (body : nat -> Cloud Num -> Cloud Num) (c : Cloud Num) :
  (a0 < length c)%nat ->
  (forall b c1 c2, b <> a0 ->
     keeps a0 Ks Kv c1 c2 -> keeps a0 Ks Kv c1 (body b c2)) ->
  keeps a0 Ks Kv c (for_each_before body a0 c) /\
  keeps a0 Ks Kv (body a0 (for_each_before body a0 c)) (for_each body c).
Proof.
  intros Ha Hother. split.
  - unfold for_each_before.
    assert (Hseq : forall b, b ∈ seq 0 a0 -> b <> a0)
      by (intros b Hb; apply elem_of_seq in Hb; lia).
    revert Hseq. generalize (seq 0 a0). intros l.
    assert (Hc : keeps a0 Ks Kv c c) by (repeat split).
    revert Hc. generalize c at 2 4. induction l as [|b l IH]; intros c' Hc' Hl.
    + exact Hc'.
    + simpl. apply IH; [| intros b' Hb'; apply Hl; right; exact Hb'].
      apply Hother; [apply Hl; left | exact Hc'].
  - rewrite (for_each_at body a0 c Ha).
    assert (Hseq : forall b, b ∈ seq (S a0) (length c - S a0) -> b <> a0)
      by (intros b Hb; apply elem_of_seq in Hb; lia).
    revert Hseq. generalize (seq (S a0) (length c - S a0)). intros l.
    set (start := body a0 (for_each_before body a0 c)).
    assert (Hc : keeps a0 Ks Kv start start) by (repeat split).
    revert Hc. generalize start at 2 4. induction l as [|b l IH]; intros c' Hc' Hl.
    + exact Hc'.
    + simpl. apply IH; [| intros b' Hb'; apply Hl; right; exact Hb'].
      apply Hother; [apply Hl; left | exact Hc'].
Qed.

End Keeps.

Lemma keeps_sget (a : nat) (Ks : PV.scalar -> bool) (Kv : PV.vector -> bool)
  (c c' : Cloud Num) (x : PV.scalar) :
  keeps a Ks Kv c c' -> Ks x = true -> sget x a c' = sget x a c.
Proof. intros (_ & Hs & _) Hx. apply Hs, Hx. Qed.

Lemma keeps_vget (a : nat) (Ks : PV.scalar -> bool) (Kv : PV.vector -> bool)
  (c c' : Cloud Num) (x : PV.vector) :
  keeps a Ks Kv c c' -> Kv x = true -> vget x a c' = vget x a c.
Proof. intros (_ & _ & Hv) Hx. apply Hv, Hx. Qed.

End CloudFacts.

(** *** Fixed particles *)

Ltac keeps_side :=
  first
    [ left; assumption
    | right; reflexivity
    | right; cbn;
      match goal with H : _ = true |- _ => rewrite H end; reflexivity ].

Ltac keeps_step :=
  first
    [ assumption
    | apply keeps_sset; [keeps_side |]
    | apply keeps_vset; [keeps_side |]
    | apply keeps_when; [| intros ? ? ?]
    | apply keeps_for_nearby; [| intros ? ? ?] ].

(** An iteration for particle [a] writes fields of [a] only: every other
    particle keeps all it has. *)
Section OtherParticles.
Context {Num : Type} {number : Number Num} {vec_ops : VecOps Num}
  {eos : EquationOfState Num} {viscosity : ArtificialViscosity Num}
  {cloud : ParticleCloud Num}.
Variable K : Kernel Num.
Variable a0 : nat.
Variable c0 : Cloud Num.
Variable Ks : PV.scalar -> bool.
Variable Kv : PV.vector -> bool.

Lemma classic_density_body_other (h_ab R : Num) (a : nat) (c : Cloud Num) :
  a <> a0 ->
  keeps a0 Ks Kv c0 c ->
  keeps a0 Ks Kv c0 (ClassicSmoothEstimator.density_body K h_ab R a c).
Proof.
  intros Hne Hk. unfold ClassicSmoothEstimator.density_body.
  destruct (is_fixed a c); [exact Hk |]. cbv zeta.
  unfold ClassicSmoothEstimator.density_nearby. repeat keeps_step.
Qed.

Lemma classic_forces_body_other (h_ab R : Num) (a : nat) (c : Cloud Num) :
  a <> a0 ->
  keeps a0 Ks Kv c0 c ->
  keeps a0 Ks Kv c0 (ClassicSmoothEstimator.forces_body K h_ab R a c).
Proof.
  intros Hne Hk. unfold ClassicSmoothEstimator.forces_body.
  destruct (is_fixed a c); [exact Hk |].
  unfold ClassicSmoothEstimator.forces_pairwise,
    ClassicSmoothEstimator.forces_nearby. cbv zeta. repeat keeps_step.
Qed.

Lemma gradh_density_body_other (eta : Num) (a : nat) (c : Cloud Num) :
  a <> a0 ->
  keeps a0 Ks Kv c0 c ->
  keeps a0 Ks Kv c0 (GradHSmoothEstimator.density_body K eta a c).
Proof.
  intros Hne Hk. unfold GradHSmoothEstimator.density_body.
  destruct (is_fixed a c); [exact Hk |]. cbv zeta.
  unfold GradHSmoothEstimator.density_finish,
    GradHSmoothEstimator.width_solve. cbv zeta.
  do 2 (apply keeps_sset; [keeps_side |]).
  apply keeps_newton_raphson; [exact Hk | |].
  - intros s' Hs'. unfold GradHSmoothEstimator.width_residual,
      GradHSmoothEstimator.width_nearby. cbv zeta. cbn [snd].
    repeat keeps_step.
  - intros val s' Hs'. repeat keeps_step.
Qed.

Lemma gradh_forces_body_other (a : nat) (c : Cloud Num) :
  a <> a0 ->
  keeps a0 Ks Kv c0 c ->
  keeps a0 Ks Kv c0 (GradHSmoothEstimator.forces_body K a c).
Proof.
  intros Hne Hk. unfold GradHSmoothEstimator.forces_body.
  destruct (is_fixed a c); [exact Hk |].
  unfold GradHSmoothEstimator.forces_pairwise,
    GradHSmoothEstimator.forces_nearby. cbv zeta. repeat keeps_step.
Qed.

(** The divergence and curl passes have no test of [fixed]: they write
    [div_v[a]] and [curl_v[a]] of every particle, and nothing else. *)
Lemma classic_div_curl_body_keeps (h_ab R : Num) (a : nat) (c : Cloud Num) :
  keeps a0 not_div_v not_curl_v c0 c ->
  keeps a0 not_div_v not_curl_v c0
    (ClassicSmoothEstimator.div_curl_body K h_ab R a c).
Proof.
  intros Hk. unfold ClassicSmoothEstimator.div_curl_body,
    ClassicSmoothEstimator.div_curl_nearby. cbv zeta. repeat keeps_step.
Qed.

Lemma gradh_div_curl_body_keeps (a : nat) (c : Cloud Num) :
  keeps a0 not_div_v not_curl_v c0 c ->
  keeps a0 not_div_v not_curl_v c0 (GradHSmoothEstimator.div_curl_body K a c).
Proof.
  intros Hk. unfold GradHSmoothEstimator.div_curl_body,
    GradHSmoothEstimator.div_curl_nearby. cbv zeta. repeat keeps_step.
Qed.

End OtherParticles.

(** The iteration for a fixed particle returns at once. *)
Section FixedParticles.
Context {Num : Type} {number : Number Num} {vec_ops : VecOps Num}
  {eos : EquationOfState Num} {viscosity : ArtificialViscosity Num}
  {cloud : ParticleCloud Num}.
Variable K : Kernel Num.
Variable a0 : nat.
Variable c0 : Cloud Num.
Hypothesis Hfixed : is_fixed a0 c0 = true.
Variable Ks : PV.scalar -> bool.
Variable Kv : PV.vector -> bool.

Lemma classic_density_body_keeps (h_ab R : Num) (a : nat) (c : Cloud Num) :
  keeps a0 Ks Kv c0 c ->
  keeps a0 Ks Kv c0 (ClassicSmoothEstimator.density_body K h_ab R a c).
Proof.
  intros Hk. destruct (decide (a = a0)) as [->|Hne];
    [| apply classic_density_body_other; assumption].
  unfold ClassicSmoothEstimator.density_body.
  rewrite (keeps_is_fixed _ _ _ _ _ Hk), Hfixed. exact Hk.
Qed.

Lemma classic_forces_body_keeps (h_ab R : Num) (a : nat) (c : Cloud Num) :
  keeps a0 Ks Kv c0 c ->
  keeps a0 Ks Kv c0 (ClassicSmoothEstimator.forces_body K h_ab R a c).
Proof.
  intros Hk. destruct (decide (a = a0)) as [->|Hne];
    [| apply classic_forces_body_other; assumption].
  unfold ClassicSmoothEstimator.forces_body.
  rewrite (keeps_is_fixed _ _ _ _ _ Hk), Hfixed. exact Hk.
Qed.

Lemma gradh_density_body_keeps (eta : Num) (a : nat) (c : Cloud Num) :
  keeps a0 Ks Kv c0 c ->
  keeps a0 Ks Kv c0 (GradHSmoothEstimator.density_body K eta a c).
Proof.
  intros Hk. destruct (decide (a = a0)) as [->|Hne];
    [| apply gradh_density_body_other; assumption].
  unfold GradHSmoothEstimator.density_body.
  rewrite (keeps_is_fixed _ _ _ _ _ Hk), Hfixed. exact Hk.
Qed.

Lemma gradh_forces_body_keeps (a : nat) (c : Cloud Num) :
  keeps a0 Ks Kv c0 c ->
  keeps a0 Ks Kv c0 (GradHSmoothEstimator.forces_body K a c).
Proof.
  intros Hk. destruct (decide (a = a0)) as [->|Hne];
    [| apply gradh_forces_body_other; assumption].
  unfold GradHSmoothEstimator.forces_body.
  rewrite (keeps_is_fixed _ _ _ _ _ Hk), Hfixed. exact Hk.
Qed.

End FixedParticles.

(** X22.  What every pass does keep.  For a particle whose [fixed]
    flag is set: the density pass of [estimate_density] and the whole of
    [estimate_forces], in both estimators, leave every field of the particle
    as it was; [estimate_density] as a whole leaves every field as it was
    except [div_v] and [curl_v] (in a cloud that has them). *)
Lemma fixed_particle_kept {Num : Type} {number : Number Num}
  {vec_ops : VecOps Num} {eos : EquationOfState Num}
  {viscosity : ArtificialViscosity Num} {cloud : ParticleCloud Num}
  (K : Kernel Num) (h_ab eta : Num) (c : Cloud Num) (a : nat) :
  is_fixed a c = true ->
  keeps a every_scalar every_vector c
    (for_each (ClassicSmoothEstimator.density_body K h_ab
                 (SmoothingKernel.radius K h_ab)) c) /\
  keeps a not_div_v not_curl_v c
    (ClassicSmoothEstimator.estimate_density K h_ab c) /\
  keeps a every_scalar every_vector c
    (ClassicSmoothEstimator.estimate_forces K h_ab c) /\
  keeps a every_scalar every_vector c
    (for_each (GradHSmoothEstimator.density_body K eta) c) /\
  keeps a not_div_v not_curl_v c
    (GradHSmoothEstimator.estimate_density K eta c) /\
  keeps a every_scalar every_vector c
    (GradHSmoothEstimator.estimate_forces K c).
Proof.
  intros Hfixed.
  split; [| split; [| split; [| split; [| split]]]].
  - apply keeps_for_each; [apply keeps_refl |].
    intros b c'. apply classic_density_body_keeps, Hfixed.
  - unfold ClassicSmoothEstimator.estimate_density. cbv zeta.
    apply keeps_for_each.
    + apply keeps_for_each; [apply keeps_refl |].
      intros b c'. apply classic_density_body_keeps, Hfixed.
    + intros b c'. apply classic_div_curl_body_keeps.
  - unfold ClassicSmoothEstimator.estimate_forces. cbv zeta.
    apply keeps_for_each; [apply keeps_refl |].
    intros b c'. apply classic_forces_body_keeps, Hfixed.
  - apply keeps_for_each; [apply keeps_refl |].
    intros b c'. apply gradh_density_body_keeps, Hfixed.
  - unfold GradHSmoothEstimator.estimate_density. cbv zeta.
    apply keeps_for_each.
    + apply keeps_for_each; [apply keeps_refl |].
      intros b c'. apply gradh_density_body_keeps, Hfixed.
    + intros b c'. apply gradh_div_curl_body_keeps.
  - unfold GradHSmoothEstimator.estimate_forces.
    apply keeps_for_each; [apply keeps_refl |].
    intros b c'. apply gradh_forces_body_keeps, Hfixed.
Qed.

Lemma fixed_particle_kept_witness :
  is_fixed 0 wall_and_free = true /\
  (let eos := density_eos in
   let viscosity := no_viscosity in
   let cloud := line_cloud true in
   keeps 0 every_scalar every_vector wall_and_free
     (for_each (ClassicSmoothEstimator.density_body line_kernel 1%Q
                  (SmoothingKernel.radius line_kernel 1%Q)) wall_and_free) /\
   keeps 0 not_div_v not_curl_v wall_and_free
     (ClassicSmoothEstimator.estimate_density line_kernel 1%Q wall_and_free) /\
   keeps 0 every_scalar every_vector wall_and_free
     (ClassicSmoothEstimator.estimate_forces line_kernel 1%Q wall_and_free) /\
   keeps 0 every_scalar every_vector wall_and_free
     (for_each (GradHSmoothEstimator.density_body line_kernel 1%Q)
        wall_and_free) /\
   keeps 0 not_div_v not_curl_v wall_and_free
     (GradHSmoothEstimator.estimate_density line_kernel 1%Q wall_and_free) /\
   keeps 0 every_scalar every_vector wall_and_free
     (GradHSmoothEstimator.estimate_forces line_kernel wall_and_free)).
Proof.
  split; [reflexivity |].
  apply (fixed_particle_kept (eos := density_eos) (viscosity := no_viscosity)
           (cloud := line_cloud true) line_kernel 1%Q 1%Q wall_and_free 0).
  reflexivity.
Defined.

(** C2.  The divergence and curl pass of [estimate_density] has no test of
    [fixed], unlike the density pass before it and the force pass, and
    overwrites [div_v] of a fixed particle.  The first particle of
    [wall_and_free] and of [two_walls] is fixed and has [div_v] = 5; after
    [estimate_density], of the fixed-width estimator on the first cloud and
    of the variable-width estimator on the second, it has the divergence
    that the pass computes, 1/2. *)
Theorem fixed_particle_div_v_overwritten :
  is_fixed 0 wall_and_free = true /\
  sget PV.div_v 0 wall_and_free = 5%Q /\
  sget PV.div_v 0
    (ClassicSmoothEstimator.estimate_density (eos := density_eos)
       (cloud := line_cloud true) line_kernel 1%Q wall_and_free) = (1 # 2)%Q /\
  is_fixed 0 two_walls = true /\
  sget PV.div_v 0 two_walls = 5%Q /\
  sget PV.div_v 0
    (GradHSmoothEstimator.estimate_density (eos := density_eos)
       (cloud := line_cloud true) line_kernel 1%Q two_walls) = (1 # 2)%Q.
Proof.
  split; [reflexivity |]. split; [reflexivity |].
  split; [vm_compute; reflexivity |]. split; [reflexivity |].
  split; [reflexivity |]. vm_compute; reflexivity.
Qed.

(** *** The width solve of the variable-width estimator *)

Ltac length_step :=
  first
    [ assumption
    | reflexivity
    | rewrite length_sset
    | rewrite length_vset
    | apply (when_invariant (fun c' => length c' = _)); [| intros ? ? ?]
    | apply (for_nearby_invariant (fun c' => length c' = _)); [| intros ? ? ?] ].

Section WidthSolve.
Context {Num : Type} {number : Number Num} {vec_ops : VecOps Num}
  {eos : EquationOfState Num} {cloud : ParticleCloud Num}.
Variable K : Kernel Num.
Variable eta : Num.

Lemma length_width_solve (a : nat) (c : Cloud Num) :
  length (snd (GradHSmoothEstimator.width_solve K eta a c)) = length c.
Proof.
  unfold GradHSmoothEstimator.width_solve.
  apply (newton_raphson_invariant (fun c' => length c' = length c));
    [reflexivity | |].
  - intros s' Hs'. unfold GradHSmoothEstimator.width_residual,
      GradHSmoothEstimator.width_nearby. cbv zeta. cbn [snd].
    repeat length_step.
  - intros val s' Hs'. repeat length_step.
Qed.

Lemma length_gradh_density_body (a : nat) (c : Cloud Num) :
  length (GradHSmoothEstimator.density_body K eta a c) = length c.
Proof.
  unfold GradHSmoothEstimator.density_body,
    GradHSmoothEstimator.density_finish.
  destruct (is_fixed a c); [reflexivity |]. cbv zeta.
  rewrite !length_sset. apply length_width_solve.
Qed.

(** What the statements after the solve leave at particle [a]. *)
Lemma density_finish_fields (a : nat) (solved : Cloud Num) :
  (a < length solved)%nat ->
  let c' := GradHSmoothEstimator.density_finish a solved in
  (forall x, x <> PV.p -> x <> PV.cs -> sget x a c' = sget x a solved) /\
  sget PV.p a c' = pressure (solved !!! a) /\
  sget PV.cs a c' =
    sound_speed (with_scalar PV.p (pressure (solved !!! a)) (solved !!! a)).
Proof.
  intros Hlen. unfold GradHSmoothEstimator.density_finish, sget. cbv zeta.
  rewrite lookup_sset_eq by (rewrite length_sset; exact Hlen).
  rewrite lookup_sset_eq by exact Hlen. cbn.
  split; [| split; reflexivity].
  intros x Hp Hcs.
  destruct (decide (x = PV.cs)); [congruence |].
  destruct (decide (x = PV.p)); [congruence | reflexivity].
Qed.

(** C1 (as amended).  The status that [newton_raphson] returns is not used.
    For every particle [a] that is not fixed, whatever the status of its
    width solve, the iteration goes on with the state the solve left, and
    [estimate_density] returns a cloud in which [h[a]], [rho[a]] and
    [Omega[a]] are as the solve left them ([h[a]] at its last iterate),
    [p[a]] is the pressure and [cs[a]] the sound speed that the equation of
    state gives for that state. *)
Theorem width_solve_status_unused (a : nat) (c : Cloud Num) :
  (a < length c)%nat ->
  is_fixed a c = false ->
  let before :=
    for_each_before (GradHSmoothEstimator.density_body K eta) a c in
  let solved := snd (GradHSmoothEstimator.width_solve K eta a before) in
  let after := GradHSmoothEstimator.estimate_density K eta c in
  GradHSmoothEstimator.density_body K eta a before
    = GradHSmoothEstimator.density_finish a solved /\
  sget PV.h a after = sget PV.h a solved /\
  sget PV.rho a after = sget PV.rho a solved /\
  sget PV.Omega a after = sget PV.Omega a solved /\
  sget PV.p a after = pressure (solved !!! a) /\
  sget PV.cs a after =
    sound_speed (with_scalar PV.p (pressure (solved !!! a)) (solved !!! a)).
Proof.
  intros Ha Hfree before solved after.
  destruct (for_each_own a every_scalar every_vector
              (GradHSmoothEstimator.density_body K eta) c Ha)
    as [Hbefore Hown].
  { intros b c1 c2 Hne Hk. apply gradh_density_body_other; assumption. }
  fold before in Hbefore, Hown.
  assert (Hfree' : is_fixed a before = false).
  { destruct Hbefore as (Hfix & _). unfold is_fixed. rewrite Hfix. exact Hfree. }
  assert (Hlen : (a < length solved)%nat).
  { unfold solved. rewrite length_width_solve. unfold before.
    rewrite length_for_each_before; [exact Ha |].
    intros b c'. apply length_gradh_density_body. }
  assert (Hbody : GradHSmoothEstimator.density_body K eta a before
                  = GradHSmoothEstimator.density_finish a solved).
  { unfold GradHSmoothEstimator.density_body. rewrite Hfree'. reflexivity. }
  split; [exact Hbody |]. rewrite Hbody in Hown.
  assert (Hpass2 : keeps a not_div_v not_curl_v
                     (for_each (GradHSmoothEstimator.density_body K eta) c)
                     after).
  { unfold after, GradHSmoothEstimator.estimate_density. cbv zeta.
    apply keeps_for_each; [apply keeps_refl |].
    intros b c'. apply gradh_div_curl_body_keeps. }
  assert (Hget : forall x, not_div_v x = true ->
            sget x a after
            = sget x a (GradHSmoothEstimator.density_finish a solved)).
  { intros x Hx. rewrite (keeps_sget _ _ _ _ _ x Hpass2 Hx).
    apply (keeps_sget _ _ _ _ _ x Hown). reflexivity. }
  destruct (density_finish_fields a solved Hlen) as (Hsame & Hp & Hcs).
  clearbody before solved after.
  rewrite !Hget by reflexivity.
  rewrite !Hsame by discriminate.
  repeat split; assumption.
Qed.

End WidthSolve.

Lemma width_solve_status_unused_witness :
  (0 < length (lone_particle 1))%nat /\
  is_fixed 0 (lone_particle 1) = false /\
  (let eos := density_eos in
   let cloud := line_cloud true in
   let before :=
     for_each_before (GradHSmoothEstimator.density_body line_kernel 1%Q) 0
       (lone_particle 1) in
   let solved :=
     snd (GradHSmoothEstimator.width_solve line_kernel 1%Q 0 before) in
   let after :=
     GradHSmoothEstimator.estimate_density line_kernel 1%Q (lone_particle 1) in
   GradHSmoothEstimator.density_body line_kernel 1%Q 0 before
     = GradHSmoothEstimator.density_finish 0 solved /\
   sget PV.h 0 after = sget PV.h 0 solved /\
   sget PV.rho 0 after = sget PV.rho 0 solved /\
   sget PV.Omega 0 after = sget PV.Omega 0 solved /\
   sget PV.p 0 after = pressure (solved !!! 0%nat) /\
   sget PV.cs 0 after =
     sound_speed
       (with_scalar PV.p (pressure (solved !!! 0%nat)) (solved !!! 0%nat))).
Proof.
  split; [repeat constructor |]. split; [reflexivity |].
  apply (width_solve_status_unused (eos := density_eos)
           (cloud := line_cloud true) line_kernel 1%Q 0 (lone_particle 1));
    [repeat constructor | reflexivity].
Defined.

(** C1 (as stated) fails.  For a free particle of mass 1 alone on a line,
    with the cubic kernel and coupling 1, the residual is [1 / (3 h)] and
    each step doubles [h].  With [small_number_v] = 2^-52 the solve from
    [h = 1] ends in [fail_max_iter] and the solve from [h = 2^26] in
    [fail_zero_deriv]; with the other value of [small_number_v] the solve
    from [h = 1] ends in [fail_zero_deriv].  In each case the iteration
    returns the cloud that follows a converged solve, and [estimate_density]
    returns with [p] and [cs] set from the equation of state: from [h = 1]
    it leaves [h = 1024] with the density [1 / 768] summed at [h = 512]. *)
Lemma width_solve_failure_not_reported :
  let density := GradHSmoothEstimator.estimate_density (eos := density_eos)
                   (cloud := line_cloud true) line_kernel 1%Q in
  let body := GradHSmoothEstimator.density_body (eos := density_eos)
                (cloud := line_cloud true) line_kernel 1%Q 0 in
  let solve := GradHSmoothEstimator.width_solve (cloud := line_cloud true)
                 line_kernel 1%Q 0 in
  let solve_cbrt :=
    GradHSmoothEstimator.width_solve (number := Q_Number_cbrt)
      (cloud := line_cloud true) line_kernel 1%Q 0 in
  fst (solve (lone_particle 1)) = NewtonRaphsonStatus.fail_max_iter /\
  fst (solve (lone_particle 67108864)) = NewtonRaphsonStatus.fail_zero_deriv /\
  fst (solve_cbrt (lone_particle 1)) = NewtonRaphsonStatus.fail_zero_deriv /\
  body (lone_particle 1)
    = GradHSmoothEstimator.density_finish (eos := density_eos) 0
        (snd (solve (lone_particle 1))) /\
  body (lone_particle 67108864)
    = GradHSmoothEstimator.density_finish (eos := density_eos) 0
        (snd (solve (lone_particle 67108864))) /\
  sget PV.h 0 (density (lone_particle 1)) = 1024%Q /\
  sget PV.rho 0 (density (lone_particle 1)) = (1 # 768)%Q /\
  sget PV.p 0 (density (lone_particle 1)) = (1 # 768)%Q /\
  sget PV.cs 0 (density (lone_particle 1)) = 1%Q.
Proof.
  cbv zeta.
  split; [vm_compute; reflexivity |]. split; [vm_compute; reflexivity |].
  split; [vm_compute; reflexivity |].
  split; [reflexivity |]. split; [reflexivity |].
  repeat split; vm_compute; reflexivity.
Qed.

(** *** The force pass *)
Section Forces.
Context {Num : Type} {number : Number Num} {vec_ops : VecOps Num}
  {viscosity : ArtificialViscosity Num} {cloud : ParticleCloud Num}.
Variable K : Kernel Num.

Lemma vget_sset (x : PV.vector) (y : PV.scalar) (a b : nat) (val : Num)
  (c : Cloud Num) :
  vget x a (sset y b val c) = vget x a c.
Proof.
  unfold vget. rewrite lookup_sset.
  destruct (decide (b = a /\ (b < length c)%nat)) as [[-> _]|_]; reflexivity.
Qed.

Lemma vget_vset_eq (x : PV.vector) (a : nat) (val : Vec Num) (c : Cloud Num) :
  (a < length c)%nat -> vget x a (vset x a val c) = val.
Proof.
  intros Ha. unfold vget. rewrite lookup_vset_eq by exact Ha. simpl.
  destruct (decide (x = x)); [reflexivity | congruence].
Qed.

Lemma length_gradh_forces_pairwise (a : nat) (c : Cloud Num) :
  length (GradHSmoothEstimator.forces_pairwise K a c) = length c.
Proof.
  unfold GradHSmoothEstimator.forces_pairwise,
    GradHSmoothEstimator.forces_nearby. cbv zeta. repeat length_step.
Qed.

Lemma vsub_at_1 (s : Num) (a : Vec Num) :
  (forall x, a !! 1%nat = Some x ->
     vsub_at 1 s a !! 1%nat = Some (num_sub x s)) /\
  (forall i, i <> 1%nat -> vsub_at 1 s a !! i = a !! i).
Proof.
  unfold vsub_at. split.
  - intros x Hx. rewrite Hx. apply list_lookup_insert_eq.
    apply lookup_lt_Some in Hx. exact Hx.
  - intros i Hi. destruct (a !! 1%nat); [| reflexivity].
    apply list_lookup_insert_ne. congruence.
Qed.

Lemma length_classic_forces_pairwise (h_ab R : Num) (a : nat)
  (c : Cloud Num) :
  length (ClassicSmoothEstimator.forces_pairwise K h_ab R a c) = length c.
Proof.
  unfold ClassicSmoothEstimator.forces_pairwise,
    ClassicSmoothEstimator.forces_nearby. cbv zeta. repeat length_step.
Qed.

Lemma length_gradh_forces_body (a : nat) (c : Cloud Num) :
  length (GradHSmoothEstimator.forces_body K a c) = length c.
Proof.
  unfold GradHSmoothEstimator.forces_body.
  destruct (is_fixed a c); [reflexivity |]. cbv zeta. unfold when.
  destruct (has PV.dalpha_dt); rewrite ?length_sset, length_vset;
    apply length_gradh_forces_pairwise.
Qed.

Lemma length_classic_forces_body (h_ab R : Num) (a : nat) (c : Cloud Num) :
  length (ClassicSmoothEstimator.forces_body K h_ab R a c) = length c.
Proof.
  unfold ClassicSmoothEstimator.forces_body.
  destruct (is_fixed a c); [reflexivity |]. cbv zeta. unfold when.
  destruct (has PV.alpha && has PV.dalpha_dt); rewrite ?length_sset;
    apply length_classic_forces_pairwise.
Qed.

(** What one iteration of the force pass leaves in [dv_dt[a]]. *)
Lemma forces_body_dv_dt (h_ab search_radius : Num) (a : nat) (c : Cloud Num) :
  (a < length c)%nat ->
  is_fixed a c = false ->
  vget PV.dv_dt a (GradHSmoothEstimator.forces_body K a c)
  = vsub_at 1 (lit 9.81)
      (vget PV.dv_dt a (GradHSmoothEstimator.forces_pairwise K a c)) /\
  vget PV.dv_dt a
    (ClassicSmoothEstimator.forces_body K h_ab search_radius a c)
  = vget PV.dv_dt a
      (ClassicSmoothEstimator.forces_pairwise K h_ab search_radius a c).
Proof.
  intros Ha Hfree. split.
  - unfold GradHSmoothEstimator.forces_body.
    rewrite Hfree. cbv zeta. unfold when.
    destruct (has PV.dalpha_dt); rewrite ?vget_sset;
      apply vget_vset_eq; rewrite length_gradh_forces_pairwise; exact Ha.
  - unfold ClassicSmoothEstimator.forces_body. rewrite Hfree. cbv zeta.
    unfold when. destruct (has PV.alpha && has PV.dalpha_dt);
      rewrite ?vget_sset; reflexivity.
Qed.

(** C7.  For a particle [a] that is not fixed, the variable-width
    [estimate_forces] returns in [dv_dt[a]] what the neighbour loop of the
    iteration for [a] accumulated, with 9.81 subtracted from component 1 and
    the other components as they were; the fixed-width [estimate_forces]
    returns exactly what its neighbour loop accumulated. *)
Theorem gravity_only_in_gradh (h_ab : Num) (a : nat) (c : Cloud Num) :
  (a < length c)%nat ->
  is_fixed a c = false ->
  let summed :=
    vget PV.dv_dt a
      (GradHSmoothEstimator.forces_pairwise K a
         (for_each_before (GradHSmoothEstimator.forces_body K) a c)) in
  let result := vget PV.dv_dt a (GradHSmoothEstimator.estimate_forces K c) in
  let search_radius := SmoothingKernel.radius K h_ab in
  result = vsub_at 1 (lit 9.81) summed /\
  (forall x, summed !! 1%nat = Some x ->
     result !! 1%nat = Some (num_sub x (lit 9.81))) /\
  (forall i, i <> 1%nat -> result !! i = summed !! i) /\
  vget PV.dv_dt a (ClassicSmoothEstimator.estimate_forces K h_ab c)
  = vget PV.dv_dt a
      (ClassicSmoothEstimator.forces_pairwise K h_ab search_radius a
         (for_each_before
            (ClassicSmoothEstimator.forces_body K h_ab search_radius) a c)).
Proof.
  intros Ha Hfree summed result search_radius.
  assert (Hres : result = vsub_at 1 (lit 9.81) summed).
  { destruct (for_each_own a every_scalar every_vector
                (GradHSmoothEstimator.forces_body K) c Ha)
      as [Hbefore Hown].
    { intros b c1 c2 Hne Hk. apply gradh_forces_body_other; assumption. }
    unfold result, GradHSmoothEstimator.estimate_forces.
    rewrite (keeps_vget _ _ _ _ _ PV.dv_dt Hown eq_refl).
    apply (forces_body_dv_dt h_ab search_radius).
    - rewrite length_for_each_before; [exact Ha |].
      intros b c'. apply length_gradh_forces_body.
    - destruct Hbefore as (Hfix & _). unfold is_fixed. rewrite Hfix.
      exact Hfree. }
  split; [exact Hres |]. rewrite Hres.
  destruct (vsub_at_1 (lit 9.81) summed) as [H1 Hother].
  split; [exact H1 | split; [exact Hother |]].
  destruct (for_each_own a every_scalar every_vector
              (ClassicSmoothEstimator.forces_body K h_ab search_radius) c Ha)
    as [Hbefore Hown].
  { intros b c1 c2 Hne Hk. apply classic_forces_body_other; assumption. }
  unfold ClassicSmoothEstimator.estimate_forces. cbv zeta.
  fold search_radius.
  rewrite (keeps_vget _ _ _ _ _ PV.dv_dt Hown eq_refl).
  apply (forces_body_dv_dt h_ab search_radius).
  - rewrite length_for_each_before; [exact Ha |].
    intros b c'. apply length_classic_forces_body.
  - destruct Hbefore as (Hfix & _). unfold is_fixed. rewrite Hfix.
    exact Hfree.
Qed.

End Forces.

Lemma gravity_only_in_gradh_witness :
  (0 < length lone_plane_particle)%nat /\
  is_fixed 0 lone_plane_particle = false /\
  (let viscosity := no_viscosity in
   let cloud := line_cloud false in
   let summed :=
     vget PV.dv_dt 0
       (GradHSmoothEstimator.forces_pairwise line_kernel 0
          (for_each_before (GradHSmoothEstimator.forces_body line_kernel) 0
             lone_plane_particle)) in
   let result :=
     vget PV.dv_dt 0
       (GradHSmoothEstimator.estimate_forces line_kernel lone_plane_particle) in
   let search_radius := SmoothingKernel.radius line_kernel 1%Q in
   result = vsub_at 1 (lit 9.81) summed /\
   (forall x, summed !! 1%nat = Some x ->
      result !! 1%nat = Some (num_sub x (lit 9.81))) /\
   (forall i, i <> 1%nat -> result !! i = summed !! i) /\
   vget PV.dv_dt 0
     (ClassicSmoothEstimator.estimate_forces line_kernel 1%Q
        lone_plane_particle)
   = vget PV.dv_dt 0
       (ClassicSmoothEstimator.forces_pairwise line_kernel 1%Q search_radius 0
          (for_each_before
             (ClassicSmoothEstimator.forces_body line_kernel 1%Q search_radius)
             0 lone_plane_particle))).
Proof.
  split; [repeat constructor |]. split; [reflexivity |].
  apply (gravity_only_in_gradh (viscosity := no_viscosity)
           (cloud := line_cloud false) line_kernel 1%Q 0
           lone_plane_particle); [repeat constructor | reflexivity].
Defined.

(** A particle alone feels no pairwise force: the variable-width estimator
    gives it the acceleration (0, -9.81), the fixed-width estimator (0, 0). *)
Example lone_particle_acceleration :
  vget PV.dv_dt 0
    (GradHSmoothEstimator.estimate_forces (viscosity := no_viscosity)
       (cloud := line_cloud false) line_kernel lone_plane_particle)
    = [0; - (981 # 100)]%Q /\
  vget PV.dv_dt 0
    (ClassicSmoothEstimator.estimate_forces (viscosity := no_viscosity)
       (cloud := line_cloud false) line_kernel 1%Q lone_plane_particle)
    = [0; 0]%Q.
Proof. split; vm_compute; reflexivity. Qed.

(** **** The symmetrized gradient *)
Section SymmetrizedGradient.
Context {vec_ops : VecOps Q} {viscosity : ArtificialViscosity Q}
  {cloud : ParticleCloud Q}.
Variable K : Kernel Q.
Hypothesis norm_vopp : forall a : Vec Q, norm (vopp a) = norm a.
Local Open Scope Q_scope.

Lemma vsub_swap (a b : Vec Q) : vsub a b = vopp (vsub b a).
Proof.
  unfold vsub, vopp. revert b.
  induction a as [|x a IH]; intros [|y b]; simpl; try reflexivity.
  f_equal; [| apply IH].
  cbn. apply Qred_complete. rewrite !Qred_correct. ring.
Qed.

Lemma grad_vopp (r : Vec Q) (h : Q) :
  SmoothingKernel.grad K (vopp r) h = vopp (SmoothingKernel.grad K r h).
Proof.
  unfold SmoothingKernel.grad. rewrite norm_vopp, dim_vopp.
  unfold vscale, vopp. rewrite !map_map. apply map_ext. intros x.
  match goal with |- num_mul ?coef _ = _ => generalize coef end.
  intros coef. cbn. apply Qred_complete. rewrite !Qred_correct. ring.
Qed.

Lemma avg_vopp_swap (g1 g2 : Vec Q) :
  avg g1 g2 = vopp (avg (vopp g2) (vopp g1)).
Proof.
  unfold avg, vdiv, vadd, vopp. revert g2.
  induction g1 as [|x g1 IH]; intros [|y g2]; simpl; try reflexivity.
  f_equal; [| apply IH].
  cbn. apply Qred_complete. rewrite !Qred_correct. field.
Qed.

Lemma avg_vopp (g1 g2 : Vec Q) :
  avg (vopp g2) (vopp g1) = vopp (avg g1 g2).
Proof.
  unfold avg, vdiv, vadd, vopp. revert g2.
  induction g1 as [|x g1 IH]; intros [|y g2]; simpl; try reflexivity.
  f_equal; [| apply IH].
  cbn. apply Qred_complete. rewrite !Qred_correct. field.
Qed.

Lemma bracket_vopp (P_a P_b Pi_ab : Q) (g1 g2 g3 : Vec Q) :
  vadd (vadd (vscale P_a g1) (vscale P_b g2)) (vscale Pi_ab g3)
  = vopp (vadd (vadd (vscale P_b (vopp g2)) (vscale P_a (vopp g1)))
               (vscale Pi_ab (vopp g3))).
Proof.
  unfold vadd, vscale, vopp. revert g2 g3.
  induction g1 as [|x g1 IH]; intros [|y g2] [|z g3]; simpl; try reflexivity.
  f_equal; [| apply IH].
  cbn. apply Qred_complete. rewrite !Qred_correct. ring.
Qed.

End SymmetrizedGradient.

(** *** The static partitioner *)

Lemma divide_up_ceiling (a b : N) :
  (0 < b)%N ->
  (a <= divide_up a b * b)%N /\
  (0 < a -> (divide_up a b - 1) * b < a)%N /\
  divide_up a b = ((a + b - 1) / b)%N.
Proof.
  intros Hb. unfold divide_up.
  pose proof (N.div_mod a b ltac:(lia)) as Hdm.
  pose proof (N.mod_lt a b ltac:(lia)) as Hlt.
  set (q := (a / b)%N) in *. set (m := (a mod b)%N) in *.
  destruct (N.eqb_spec m 0) as [Hz|Hnz].
  - split; [nia | split; [nia |]].
    apply (N.div_unique _ _ _ (b - 1)%N); [lia |].
    rewrite N.add_0_r. lia.
  - split; [nia | split; [intros _; rewrite N.add_sub; nia |]].
    apply (N.div_unique _ _ _ (m - 1)%N); [lia |].
    rewrite N.mul_add_distr_l, N.mul_1_r. lia.
Qed.

(** C9.  For a non-empty range (of a size that fits [size_t]) and at least
    one worker thread, the blocked range that [blockify] returns begins and
    ends where the range does, and its grain size [g] is the range size
    divided by the thread count, rounded up: [(g - 1) * threads < size <=
    g * threads]; in particular it is positive. *)
Theorem static_blockify_grain (num_threads : N) (range : Range) :
  (0 < range_size range)%N ->
  (range_size range < 2 ^ 64)%N ->
  (0 < num_threads)%N ->
  let blocked := StaticPartitioner.blockify num_threads range in
  br_begin blocked = range_begin range /\
  br_end blocked = range_end range /\
  (range_size range <= br_grainsize blocked * num_threads)%N /\
  ((br_grainsize blocked - 1) * num_threads < range_size range)%N /\
  br_grainsize blocked = ((range_size range + num_threads - 1) / num_threads)%N /\
  (0 < br_grainsize blocked)%N.
Proof.
  intros Hsize Hfit Hthreads. simpl.
  unfold to_size_t. rewrite N.mod_small by exact Hfit.
  destruct (divide_up_ceiling (range_size range) num_threads Hthreads)
    as (Hup & Hdown & Hdiv).
  repeat split; try assumption; [apply Hdown; exact Hsize | nia].
Qed.

Lemma static_blockify_grain_witness :
  let range := {| range_begin := 100; range_size := 10 |} in
  (0 < range_size range)%N /\
  (range_size range < 2 ^ 64)%N /\
  (0 < 4)%N /\
  StaticPartitioner.blockify 4 range
    = {| br_begin := 100; br_end := 110; br_grainsize := 3 |} /\
  (let blocked := StaticPartitioner.blockify 4 range in
   br_begin blocked = range_begin range /\
   br_end blocked = range_end range /\
   (range_size range <= br_grainsize blocked * 4)%N /\
   ((br_grainsize blocked - 1) * 4 < range_size range)%N /\
   br_grainsize blocked = ((range_size range + 4 - 1) / 4)%N /\
   (0 < br_grainsize blocked)%N).
Proof.
  cbv zeta.
  split; [reflexivity |]. split; [reflexivity |]. split; [reflexivity |].
  split; [reflexivity |].
  apply (static_blockify_grain 4 {| range_begin := 100; range_size := 10 |});
    reflexivity.
Defined.

(** ** Part II, continued: properties of the rest of the code *)

(** *** Helpers for the arithmetic of [Q_Number] *)
Section QHelpers.
Local Open Scope Q_scope.

Lemma Qadd_nonneg (a b : Q) : 0 <= a -> 0 <= b -> 0 <= a + b.
Proof. intros. lra. Qed.

Lemma Qopp_nonpos (c : Q) : 0 <= c -> - c <= 0.
Proof. intros. lra. Qed.

Lemma num_leb_true (b x : Q) : b <= x -> num_leb b x = true.
Proof. intros H. apply Qle_bool_iff. exact H. Qed.

Lemma num_leb_false (b x : Q) : x < b -> num_leb b x = false.
Proof.
  intros H. apply not_true_is_false.
  change (num_leb b x) with (Qle_bool b x). rewrite Qle_bool_iff. lra.
Qed.

Lemma num_ltb_true (x b : Q) : x < b -> num_ltb x b = true.
Proof.
  intros H. change (num_ltb x b) with (negb (Qle_bool b x)).
  apply negb_true_iff, not_true_is_false. rewrite Qle_bool_iff. lra.
Qed.

Lemma num_ltb_false (x b : Q) : b <= x -> num_ltb x b = false.
Proof.
  intros H. change (num_ltb x b) with (negb (Qle_bool b x)).
  apply negb_false_iff, Qle_bool_iff. exact H.
Qed.

End QHelpers.

(** *** Tactics for the arithmetic of [Q_Number] *)

Ltac q_ops :=
  cbn [num_add num_sub num_mul num_div num_opp num_abs num_0 num_1 num_of_Z
       num_leb num_ltb num_eqb lit Q_Number Q_arith].

Ltac nonneg :=
  repeat first
    [ assumption
    | discriminate
    | apply Qmult_le_0_compat
    | apply Qadd_nonneg ].

Ltac piece_normal :=
  unfold pow2, pow3, pow4, pow5; q_ops; rewrite ?Qred_correct.

(* The polynomial [e] of the goal is the combination [cert] of products of
   the distances [q - lo] and [hi - q], with coefficients that are not
   negative. *)
Ltac bernstein q lo hi cert :=
  let A := fresh "A" in
  let B := fresh "B" in
  assert (0 <= q - lo)%Q by lra; assert (0 <= hi - q)%Q by lra;
  match goal with
  | |- (0 <= ?e)%Q =>
      let E := fresh "E" in
      assert (E : (e == cert (q - lo) (hi - q))%Q) by (cbv beta; ring);
      rewrite E; clear E
  end;
  cbv beta;
  set (A := (q - lo)%Q) in *; set (B := (hi - q)%Q) in *; clearbody A B;
  nonneg.

Ltac bernstein_opp q lo hi cert :=
  let A := fresh "A" in
  let B := fresh "B" in
  assert (0 <= q - lo)%Q by lra; assert (0 <= hi - q)%Q by lra;
  match goal with
  | |- (?e <= 0)%Q =>
      let E := fresh "E" in
      assert (E : (e == - cert (q - lo) (hi - q))%Q) by (cbv beta; ring);
      rewrite E; clear E
  end;
  cbv beta; apply Qopp_nonpos;
  set (A := (q - lo)%Q) in *; set (B := (hi - q)%Q) in *; clearbody A B;
  nonneg.

Ltac guard_side := rewrite ?Qred_correct; lra.

(* The guards of the pieces at [x], from the bounds on [x] at hand. *)
Ltac eval_guards :=
  repeat match goal with
  | |- context [num_leb (lit ?b) ?x] =>
      first
        [ rewrite (num_leb_true (lit b) x)
            by (cbn [lit Q_Number Q_arith]; guard_side)
        | rewrite (num_leb_false (lit b) x)
            by (cbn [lit Q_Number Q_arith]; guard_side) ]
  | |- context [num_ltb ?x (lit ?b)] =>
      first
        [ rewrite (num_ltb_true x (lit b))
            by (cbn [lit Q_Number Q_arith]; guard_side)
        | rewrite (num_ltb_false x (lit b))
            by (cbn [lit Q_Number Q_arith]; guard_side) ]
  end;
  cbn [andb].

(** *** Powers, polynomials, signs and tolerances *)
Section MathFacts.
Local Open Scope Q_scope.

Lemma horner_cons (x c : Q) (ci : list Q) :
  horner x (c :: ci) == c + x * horner x ci.
Proof.
  unfold horner. simpl rev. rewrite fold_left_app. simpl.
  rewrite !Qred_correct. ring.
Qed.

Lemma poly_sum_shift (x : Q) (k : nat) (ci : list Q) :
  poly_sum x (S k) ci == x * poly_sum x k ci.
Proof.
  revert k. induction ci as [|c ci IH]; intros k; cbn [poly_sum].
  - ring.
  - rewrite (IH (S k)).
    replace (Z.of_nat (S k)) with (1 + Z.of_nat k)%Z by lia.
    rewrite Qpower_plus' by lia. simpl (x ^ 1). ring.
Qed.

(** X1.  [horner(x, ci)] is the value at [x] of the polynomial with
    coefficients [ci], lowest degree first: the sum of [c_k * x^k]. *)
Theorem horner_polynomial (x : Q) (ci : list Q) :
  horner x ci == poly_sum x 0 ci.
Proof.
  induction ci as [|c ci IH].
  - reflexivity.
  - rewrite horner_cons, IH. cbn [poly_sum]. rewrite poly_sum_shift.
    simpl (x ^ Z.of_nat 0). ring.
Qed.

(** X2.  Each of [pow2] ... [pow9] computes the power its name says, with
    the chain of multiplications it is written with. *)
Theorem pow_chain (a : Q) :
  pow2 a == a ^ 2 /\ pow3 a == a ^ 3 /\ pow4 a == a ^ 4 /\ pow5 a == a ^ 5 /\
  pow6 a == a ^ 6 /\ pow7 a == a ^ 7 /\ pow8 a == a ^ 8 /\ pow9 a == a ^ 9.
Proof.
  unfold pow2, pow3, pow4, pow5, pow6, pow7, pow8, pow9. cbn.
  rewrite !Qred_correct. repeat split; ring.
Qed.

(** X3.  [sign(a)] is -1, 0 or 1; [sign(a) * |a|] is [a]; [sign] is odd;
    and [sign(a)] is 0 exactly when [a] is. *)
Theorem sign_properties (a : Q) :
  (sign a = inject_Z (-1) \/ sign a = inject_Z 0 \/ sign a = inject_Z 1) /\
  sign a * Qabs a == a /\
  sign (- a) == - sign a /\
  (sign a == 0 <-> a == 0).
Proof.
  split; [| split; [| split]].
  - destruct (sign_Q_cases a) as [[_ E]|[[_ E]|[_ E]]]; rewrite E; auto.
  - destruct (sign_Q_cases a) as [[H E]|[[H E]|[H E]]]; rewrite E.
    + rewrite Qabs_neg by lra. change (inject_Z (-1)) with (-1 # 1). ring.
    + rewrite H. reflexivity.
    + rewrite Qabs_pos by lra. change (inject_Z 1) with 1. ring.
  - destruct (sign_Q_cases a) as [[H E]|[[H E]|[H E]]];
      destruct (sign_Q_cases (- a)) as [[H' E']|[[H' E']|[H' E']]];
      rewrite E, E'; try reflexivity; lra.
  - destruct (sign_Q_cases a) as [[H E]|[[H E]|[H E]]]; rewrite E;
      split; intros H0; try lra; try discriminate H0; reflexivity.
Qed.

Section ApproxEqual.
Variable small : Q.
Hypothesis small_nonneg : 0 <= small.

(** X4.  With a threshold [small_number_v] that is not negative,
    [approx_equal_to] holds of a number and itself and does not depend on the
    order of its arguments. *)
Theorem approx_equal_to_symmetric (a b : Q) :
  approx_equal_to (number := Q_arith small) a a = true /\
  approx_equal_to (number := Q_arith small) a b =
  approx_equal_to (number := Q_arith small) b a.
Proof.
  unfold approx_equal_to, is_small. cbn. split.
  - apply Qle_bool_iff. rewrite !Qred_correct.
    assert (E : a - a == 0) by ring. rewrite E. exact small_nonneg.
  - apply eq_true_iff_eq. rewrite !Qle_bool_iff, !Qred_correct.
    assert (E : b - a == - (a - b)) by ring. rewrite E, Qabs_opp. reflexivity.
Qed.

End ApproxEqual.

Lemma approx_equal_to_symmetric_witness :
  0 <= cbrt_epsilon /\
  approx_equal_to (number := Q_arith cbrt_epsilon) 1 1 = true /\
  approx_equal_to (number := Q_arith cbrt_epsilon) 1 (3 # 2) =
  approx_equal_to (number := Q_arith cbrt_epsilon) (3 # 2) 1.
Proof.
  split; [discriminate |].
  apply (approx_equal_to_symmetric cbrt_epsilon); discriminate.
Defined.

Lemma Q_abs_leb (y eps : Q) :
  num_leb (num_abs y) eps = true <-> Qabs y <= eps.
Proof.
  change (num_leb (num_abs y) eps) with (Qle_bool (Qred (Qabs y)) eps).
  rewrite Qle_bool_iff, Qred_correct. reflexivity.
Qed.



Section BisectionMore.
Variable f : Q -> Q.
Variable eps : Q.

Lemma bisection_loop_nested (n : nat) :
  forall min_x max_x min_f max_f st lo hi,
    min_x <= max_x ->
    bisection_loop f eps n min_x max_x min_f max_f = (st, lo, hi) ->
    min_x <= lo /\ lo <= hi /\ hi <= max_x.
Proof.
  induction n as [|n IH]; intros min_x max_x min_f max_f st lo hi Hle;
    cbn [bisection_loop].
  - intros [= _ <- <-]. split; [apply Qle_refl | split; [exact Hle | apply Qle_refl]].
  - destruct (num_eqb (sign max_f) (sign min_f)) eqn:Hsign.
    + intros [= _ <- <-].
      split; [apply Qle_refl | split; [exact Hle | apply Qle_refl]].
    + pose proof (false_position_between min_x max_x min_f max_f Hle Hsign)
        as [Hlo Hhi].
      set (x := num_sub min_x _) in *.
      destruct (num_leb (num_abs (f x)) eps).
      * intros [= _ <- <-]. split; [exact Hlo | split; [apply Qle_refl | exact Hhi]].
      * destruct (negb (num_eqb (sign (f x)) (sign min_f))).
        { intros Hres. destruct (IH _ _ _ _ _ _ _ Hlo Hres) as (H1 & H2 & H3).
          split; [exact H1 | split; [exact H2 | lra]]. }
        destruct (negb (num_eqb (sign (f x)) (sign max_f))).
        { intros Hres. destruct (IH _ _ _ _ _ _ _ Hhi Hres) as (H1 & H2 & H3).
          split; [lra | split; [exact H2 | exact H3]]. }
        apply IH. exact Hle.
Qed.

(** X6.  For a bracket with [min_x <= max_x] on entry, the bracket that
    [bisection] returns lies within it: [min_x <= lo <= hi <= max_x], with
    every status. *)
Theorem bisection_nested (min_x max_x : Q) (max_iter : nat)
  (st : BisectionStatus.t) (lo hi : Q) :
  min_x <= max_x ->
  bisection f eps min_x max_x max_iter = (st, lo, hi) ->
  min_x <= lo /\ lo <= hi /\ hi <= max_x.
Proof.
  intros Hle. unfold bisection.
  destruct (num_leb (num_abs (f min_x)) eps).
  - intros [= _ <- <-]. split; [apply Qle_refl | split; [apply Qle_refl | exact Hle]].
  - destruct (num_leb (num_abs (f max_x)) eps).
    + intros [= _ <- <-]. split; [exact Hle | split; apply Qle_refl].
    + apply bisection_loop_nested. exact Hle.
Qed.

Lemma Qeq_bool_sym (a b : Q) : Qeq_bool a b = Qeq_bool b a.
Proof.
  apply eq_true_iff_eq. rewrite !Qeq_bool_iff. split; intros H; symmetry; exact H.
Qed.

Lemma bisection_loop_sign_change (n : nat) :
  forall min_x max_x st lo hi,
    num_leb (num_abs (f min_x)) eps = false ->
    num_leb (num_abs (f max_x)) eps = false ->
    Qeq_bool (sign (f max_x)) (sign (f min_x)) = false ->
    bisection_loop f eps n min_x max_x (f min_x) (f max_x) = (st, lo, hi) ->
    st <> BisectionStatus.failure_sign /\
    (st = BisectionStatus.fail_max_iter ->
     Qeq_bool (sign (f hi)) (sign (f lo)) = false /\
     num_leb (num_abs (f lo)) eps = false /\
     num_leb (num_abs (f hi)) eps = false).
Proof.
  induction n as [|n IH]; intros min_x max_x st lo hi Hmin Hmax Hsign;
    cbn [bisection_loop].
  - intros [= <- <- <-]. split; [discriminate |]. intros _. auto.
  - change (num_eqb (sign (f max_x)) (sign (f min_x)))
      with (Qeq_bool (sign (f max_x)) (sign (f min_x))).
    rewrite Hsign.
    set (x := num_sub min_x _).
    destruct (num_leb (num_abs (f x)) eps) eqn:Hy.
    + intros [= <- <- <-]. split; discriminate.
    + destruct (num_eqb (sign (f x)) (sign (f min_x))) eqn:H1; cbn [negb].
      * destruct (num_eqb (sign (f x)) (sign (f max_x))) eqn:H2; cbn [negb].
        -- apply IH; assumption.
        -- apply IH; try assumption.
           rewrite Qeq_bool_sym. exact H2.
      * apply IH; assumption.
Qed.

(** X7.  What the failures of [bisection] say.  [failure_sign] is only
    returned with the bracket as it was on entry, whose ends have residuals
    of the same sign.  With [fail_max_iter] neither end of the returned
    bracket has a residual within the tolerance and, when at least one
    iteration was allowed, the residuals at the two ends differ in sign: the
    bracket still encloses a sign change. *)
Theorem bisection_status (min_x max_x : Q) (max_iter : nat)
  (st : BisectionStatus.t) (lo hi : Q) :
  bisection f eps min_x max_x max_iter = (st, lo, hi) ->
  (st = BisectionStatus.failure_sign ->
   lo = min_x /\ hi = max_x /\
   Qeq_bool (sign (f max_x)) (sign (f min_x)) = true) /\
  (st = BisectionStatus.fail_max_iter ->
   num_leb (num_abs (f lo)) eps = false /\
   num_leb (num_abs (f hi)) eps = false /\
   (max_iter <> 0%nat -> Qeq_bool (sign (f hi)) (sign (f lo)) = false)).
Proof.
  unfold bisection.
  destruct (num_leb (num_abs (f min_x)) eps) eqn:Hmin.
  - intros [= <- <- <-]. split; discriminate.
  - destruct (num_leb (num_abs (f max_x)) eps) eqn:Hmax.
    + intros [= <- <- <-]. split; discriminate.
    + destruct max_iter as [|n].
      * cbn [bisection_loop]. intros [= <- <- <-]. split; [discriminate |].
        intros _. split; [exact Hmin | split; [exact Hmax | congruence]].
      * destruct (Qeq_bool (sign (f max_x)) (sign (f min_x))) eqn:Hsign.
        -- cbn [bisection_loop].
           change (num_eqb (sign (f max_x)) (sign (f min_x)))
             with (Qeq_bool (sign (f max_x)) (sign (f min_x))).
           rewrite Hsign. intros [= <- <- <-]. split; [auto | discriminate].
        -- intros Hres.
           destruct (bisection_loop_sign_change _ _ _ _ _ _ Hmin Hmax Hsign Hres)
             as [Hne Hfail].
           split; [intros E; contradiction |].
           intros E. destruct (Hfail E) as (H1 & H2 & H3). auto.
Qed.

End BisectionMore.

(** X8.  In exact arithmetic the false-position step is exact on a
    line: on [f(x) = a x + b] with residuals of different sign at the ends,
    neither within the tolerance, [bisection] returns [success] in its first
    iteration, at the root.  (The rounding of binary64 is outside this
    statement.) *)
Theorem bisection_linear_exact (a b min_x max_x eps : Q) (n : nat) :
  0 <= eps ->
  num_leb (num_abs (line a b min_x)) eps = false ->
  num_leb (num_abs (line a b max_x)) eps = false ->
  Qeq_bool (sign (line a b max_x)) (sign (line a b min_x)) = false ->
  exists x,
    bisection (line a b) eps min_x max_x (S n)
      = (BisectionStatus.success, x, x) /\
    a * x + b == 0.
Proof.
  intros Heps Hmin Hmax Hsign. unfold bisection. rewrite Hmin, Hmax.
  cbn [bisection_loop].
  change (num_eqb (sign (line a b max_x)) (sign (line a b min_x)))
    with (Qeq_bool (sign (line a b max_x)) (sign (line a b min_x))).
  rewrite Hsign.
  set (x := num_sub min_x _).
  assert (Hne : ~ line a b max_x == line a b min_x).
  { intros E.
    destruct (sign_Q_cases (line a b min_x)) as [[H1 E1]|[[H1 E1]|[H1 E1]]];
      destruct (sign_Q_cases (line a b max_x)) as [[H2 E2]|[[H2 E2]|[H2 E2]]];
      rewrite E1, E2 in Hsign; try discriminate Hsign; lra. }
  assert (Ex : a * x + b == 0).
  { unfold x, line in *. cbn. rewrite !Qred_correct in *.
    assert (Ha : ~ a * (max_x - min_x) == 0) by (intros E; apply Hne; lra).
    assert (Ha1 : ~ a == 0) by (intros E; apply Ha; rewrite E; ring).
    assert (Ha2 : ~ max_x - min_x == 0) by (intros E; apply Ha; rewrite E; ring).
    field. intros E. apply Ha. lra. }
  assert (Hy : num_leb (num_abs (line a b x)) eps = true).
  { apply Q_abs_leb. unfold line. rewrite Qred_correct, Ex. exact Heps. }
  rewrite Hy. exists x. split; [reflexivity | exact Ex].
Qed.


End MathFacts.

(** *** Averages *)
Section AverageFacts.
Local Open Scope Q_scope.

Lemma fold_plus_sum (val : Q) (vals : list Q) :
  Averages.fold_plus val vals == fold_right Qplus 0 (val :: vals).
Proof.
  revert val. induction vals as [| w rest IH]; intros val.
  - cbn. ring.
  - cbn [Averages.fold_plus]. q_ops. rewrite Qred_correct, IH.
    cbn [fold_right]. ring.
Qed.

Lemma fold_plus_inverse (val : Q) (vals : list Q) :
  Averages.fold_plus (inverse val) (map inverse vals)
  == fold_right Qplus 0 (map Qinv (val :: vals)).
Proof.
  rewrite fold_plus_sum.
  change (inverse val :: map inverse vals) with (map inverse (val :: vals)).
  induction (val :: vals) as [| w rest IH]; [reflexivity |].
  cbn [map fold_right]. rewrite IH.
  unfold inverse. q_ops. rewrite Qred_correct.
  unfold Qdiv. ring.
Qed.

Lemma sum_upper (l : list Q) (hi : Q) :
  (forall x, In x l -> x <= hi) ->
  fold_right Qplus 0 l <= inject_Z (Z.of_nat (length l)) * hi.
Proof.
  induction l as [| x l IH]; intros H.
  - cbn [fold_right length]. change (inject_Z (Z.of_nat 0)) with 0. lra.
  - cbn [fold_right length]. rewrite Nat2Z.inj_succ.
    unfold Z.succ. rewrite inject_Z_plus.
    specialize (IH (fun y Hy => H y (or_intror Hy))).
    pose proof (H x (or_introl eq_refl)) as Hx.
    change (inject_Z 1) with 1. lra.
Qed.

Lemma sum_inv_upper (l : list Q) (lo : Q) :
  0 < lo ->
  (forall x, In x l -> lo <= x) ->
  lo * fold_right Qplus 0 (map Qinv l) <= inject_Z (Z.of_nat (length l)).
Proof.
  intros Hlo. induction l as [| x l IH]; intros H.
  - cbn [fold_right length map]. change (inject_Z (Z.of_nat 0)) with 0. lra.
  - cbn [fold_right length map]. rewrite Nat2Z.inj_succ.
    unfold Z.succ. rewrite inject_Z_plus.
    specialize (IH (fun y Hy => H y (or_intror Hy))).
    pose proof (H x (or_introl eq_refl)) as Hx.
    change (inject_Z 1) with 1.
    assert (Hq : lo * / x <= 1).
    { apply (Qle_shift_div_r lo x 1); lra. }
    lra.
Qed.

Lemma sum_inv_pos (l : list Q) :
  l <> [] ->
  (forall x, In x l -> 0 < x) ->
  0 < fold_right Qplus 0 (map Qinv l).
Proof.
  induction l as [| x l IH]; intros Hne H; [congruence |].
  cbn [fold_right map].
  pose proof (Qinv_lt_0_compat x (H x (or_introl eq_refl))) as Hx.
  destruct l as [| y l].
  - cbn. lra.
  - assert (0 < fold_right Qplus 0 (map Qinv (y :: l))).
    { apply IH; [discriminate |]. intros z Hz. apply H. right. exact Hz. }
    lra.
Qed.

Lemma ratio_pair (x y : Q) : 0 < x -> 0 < y -> 2 <= x * / y + y * / x.
Proof.
  intros Hx Hy.
  assert (E : x * / y + y * / x - 2 == (x - y) * (x - y) * / (x * y))
    by (field; split; lra).
  assert (Hsq : 0 <= (x - y) * (x - y)).
  { destruct (Qlt_le_dec (x - y) 0).
    - assert (E2 : (x - y) * (x - y) == (y - x) * (y - x)) by ring.
      rewrite E2. apply Qmult_le_0_compat; lra.
    - apply Qmult_le_0_compat; lra. }
  assert (Hxy : 0 < x * y).
  { assert (E3 : 0 == 0 * y) by ring.
    rewrite E3. apply Qmult_lt_compat_r; lra. }
  assert (0 <= (x - y) * (x - y) * / (x * y)).
  { apply Qmult_le_0_compat; [exact Hsq |].
    apply Qlt_le_weak, Qinv_lt_0_compat. exact Hxy. }
  lra.
Qed.

Lemma cross_terms (x : Q) (l : list Q) :
  0 < x ->
  (forall y, In y l -> 0 < y) ->
  2 * inject_Z (Z.of_nat (length l))
  <= x * fold_right Qplus 0 (map Qinv l) + fold_right Qplus 0 l * / x.
Proof.
  intros Hx. induction l as [| y l IH]; intros H.
  - cbn [fold_right length map]. change (inject_Z (Z.of_nat 0)) with 0. lra.
  - cbn [fold_right length map]. rewrite Nat2Z.inj_succ.
    unfold Z.succ. rewrite inject_Z_plus. change (inject_Z 1) with 1.
    specialize (IH (fun z Hz => H z (or_intror Hz))).
    pose proof (ratio_pair x y Hx (H y (or_introl eq_refl))) as Hp.
    set (T := fold_right Qplus 0 (map Qinv l)) in *.
    set (S := fold_right Qplus 0 l) in *.
    set (n := inject_Z (Z.of_nat (length l))) in *.
    clearbody T S n.
    assert (E : x * (/ y + T) + (y + S) * / x
                == (x * / y + y * / x) + (x * T + S * / x)) by ring.
    rewrite E. lra.
Qed.

(** The sum of positive numbers times the sum of their reciprocals is at
    least the square of how many they are. *)
Lemma sum_times_sum_inv (l : list Q) :
  (forall x, In x l -> 0 < x) ->
  inject_Z (Z.of_nat (length l)) * inject_Z (Z.of_nat (length l))
  <= fold_right Qplus 0 l * fold_right Qplus 0 (map Qinv l).
Proof.
  induction l as [| x l IH]; intros H.
  - cbn [fold_right length map]. change (inject_Z (Z.of_nat 0)) with 0. lra.
  - cbn [fold_right length map]. rewrite Nat2Z.inj_succ.
    unfold Z.succ. rewrite inject_Z_plus. change (inject_Z 1) with 1.
    specialize (IH (fun z Hz => H z (or_intror Hz))).
    pose proof (H x (or_introl eq_refl)) as Hx.
    pose proof (cross_terms x l Hx (fun z Hz => H z (or_intror Hz))) as Hc.
    set (T := fold_right Qplus 0 (map Qinv l)) in *.
    set (S := fold_right Qplus 0 l) in *.
    set (n := inject_Z (Z.of_nat (length l))) in *.
    clearbody T S n.
    assert (E : (x + S) * (/ x + T) == 1 + (x * T + S * / x) + S * T)
      by (field; lra).
    assert (E' : (n + 1) * (n + 1) == 1 + 2 * n + n * n) by ring.
    rewrite E, E'. lra.
Qed.

(** X29.  For positive values the harmonic average is at most the
    arithmetic average, and both lie between the least and the greatest of
    the values. *)
Theorem havg_le_avg (val : Q) (vals : list Q) (lo hi : Q) :
  0 < lo ->
  (forall x, In x (val :: vals) -> lo <= x <= hi) ->
  lo <= Averages.havg val vals /\
  Averages.havg val vals <= Averages.avg val vals /\
  Averages.avg val vals <= hi.
Proof.
  intros Hlo H.
  unfold Averages.havg, Averages.avg, Averages.sizeof_pack. q_ops.
  rewrite !Qred_correct, fold_plus_inverse, fold_plus_sum.
  assert (Hpos : forall x, In x (val :: vals) -> 0 < x).
  { intros x Hx. destruct (H x Hx). lra. }
  pose proof (sum_upper (val :: vals) hi (fun x Hx => proj2 (H x Hx))) as Hup.
  pose proof (sum_inv_upper (val :: vals) lo Hlo
                (fun x Hx => proj1 (H x Hx))) as Hdn.
  pose proof (sum_inv_pos (val :: vals) ltac:(discriminate) Hpos) as HT.
  pose proof (sum_times_sum_inv (val :: vals) Hpos) as Hc.
  cbn [length] in Hup, Hdn, Hc.
  assert (Hn : 0 < inject_Z (Z.of_nat (S (length vals)))).
  { change 0 with (inject_Z 0). rewrite <- Zlt_Qlt. lia. }
  set (T := fold_right Qplus 0 (map Qinv (val :: vals))) in *.
  set (S0 := fold_right Qplus 0 (val :: vals)) in *.
  set (n := inject_Z (Z.of_nat (S (length vals)))) in *.
  clearbody T S0 n.
  split; [| split].
  - apply Qle_shift_div_l; [exact HT | exact Hdn].
  - apply Qle_shift_div_l; [exact Hn |].
    assert (E : n / T * n == n * n / T) by (field; lra).
    rewrite E.
    apply Qle_shift_div_r; [exact HT | exact Hc].
  - apply Qle_shift_div_r; [exact Hn |]. lra.
Qed.

Lemma havg_le_avg_witness :
  0 < 1 /\
  (forall x : Q, In x [1; 2; 4] -> 1 <= x <= 4) /\
  1 <= Averages.havg 1 [2; 4] /\
  Averages.havg 1 [2; 4] <= Averages.avg 1 [2; 4] /\
  Averages.avg 1 [2; 4] <= 4.
Proof.
  assert (H : forall x : Q, In x [1; 2; 4] -> 1 <= x <= 4).
  { intros x [<- | [<- | [<- | []]]]; split; discriminate. }
  split; [reflexivity |]. split; [exact H |].
  apply (havg_le_avg 1 [2; 4] 1 4); [reflexivity | exact H].
Defined.

End AverageFacts.

(** *** The profiles of the spline kernels *)
Section SplineFacts.
Local Open Scope Q_scope.

Lemma piecewise_outside (pieces : list (Piece Q)) (q : Q) :
  Forall (fun '(lo, hi, _) => hi <= q \/ q < lo) pieces ->
  piecewise pieces q = 0.
Proof.
  induction 1 as [|[[lo hi] e] rest Hq _ IH]; cbn [piecewise].
  - reflexivity.
  - change (num_leb lo q) with (Qle_bool lo q).
    change (num_ltb q hi) with (negb (Qle_bool hi q)).
    destruct Hq as [Hq|Hq].
    + assert (E : Qle_bool hi q = true) by (apply Qle_bool_iff; exact Hq).
      rewrite E, andb_false_r. exact IH.
    + assert (E : Qle_bool lo q = false).
      { apply not_true_is_false. rewrite Qle_bool_iff. lra. }
      rewrite E. exact IH.
Qed.

Lemma spline_profiles_vanish (inv_pi : Q) (K : Kernel Q) (q : Q) :
  In K (spline_kernels inv_pi) ->
  kernel_unit_radius K <= q ->
  kernel_unit_value K q = 0 /\ kernel_unit_deriv K q = 0.
Proof.
  intros HK Hq. unfold spline_kernels in HK. cbn [In] in HK.
  assert (Hlit : forall x : Q, lit x == x) by (intros x; apply Qred_correct).
  destruct HK as [<-|[<-|[<-|[<-|[]]]]];
    cbn [kernel_unit_radius kernel_unit_value kernel_unit_deriv
         CubicSmoothingKernel.kernel ThomasCouchmanSmoothingKernel.kernel
         QuarticSmoothingKernel.kernel QuinticSmoothingKernel.kernel] in *;
    unfold CubicSmoothingKernel.unit_radius,
      ThomasCouchmanSmoothingKernel.unit_radius,
      CubicSmoothingKernel.unit_radius,
      QuarticSmoothingKernel.unit_radius,
      QuinticSmoothingKernel.unit_radius in Hq;
    rewrite Hlit in Hq; split;
    apply piecewise_outside;
    unfold CubicSmoothingKernel.unit_value_pieces,
      CubicSmoothingKernel.unit_deriv_pieces,
      ThomasCouchmanSmoothingKernel.unit_deriv_pieces,
      QuarticSmoothingKernel.unit_value_pieces,
      QuarticSmoothingKernel.unit_deriv_pieces,
      QuinticSmoothingKernel.unit_value_pieces,
      QuinticSmoothingKernel.unit_deriv_pieces;
    repeat (apply List.Forall_cons;
            [left; rewrite Hlit;
             first [lra | assert (E : 2.0 / 3.0 == 2 # 3) by reflexivity;
                          rewrite E; lra] |]);
    apply List.Forall_nil.
Qed.

Lemma Qred_zero_iff (x : Q) : x == 0 -> Qred x = 0.
Proof. intros E. apply (Qred_complete x 0 E). Qed.

Lemma vscale_0_l (r : Vec Q) : vscale 0 r = vzero (dim r).
Proof.
  unfold vscale, vzero, dim.
  induction r as [|x r IH]; cbn [map length replicate]; [reflexivity |].
  rewrite IH. f_equal.
Qed.

Section CompactSupport.
Context {vec_ops : VecOps Q}.

(** X9.  Compact support.  For the cubic, Thomas-Couchman, quartic
    and quintic kernels and a width [h > 0]: at a displacement [r] with
    [norm r >= radius(h)] the value is 0, the gradient is the zero vector and
    the width derivative is 0. *)
Theorem spline_compact_support (inv_pi : Q) (K : Kernel Q) (r : Vec Q) (h : Q) :
  In K (spline_kernels inv_pi) ->
  0 < h ->
  SmoothingKernel.radius K h <= norm r ->
  SmoothingKernel.value K r h = 0 /\
  SmoothingKernel.grad K r h = vzero (dim r) /\
  SmoothingKernel.radius_deriv K r h = 0.
Proof.
  intros HK Hh Hr.
  set (q := (inverse h * norm r)%num).
  assert (Hq : kernel_unit_radius K <= q).
  { unfold q, inverse. unfold SmoothingKernel.radius in Hr. revert Hr. q_ops.
    rewrite !Qred_correct. intros Hr.
    apply Qle_trans with (kernel_unit_radius K * h * (1 / h)).
    - assert (E : kernel_unit_radius K * h * (1 / h) == kernel_unit_radius K)
        by (field; lra).
      rewrite E. apply Qle_refl.
    - rewrite (Qmult_comm (1 / h)). apply Qmult_le_compat_r; [exact Hr |].
      apply Qlt_le_weak. apply Qlt_shift_div_l; lra. }
  destruct (spline_profiles_vanish inv_pi K q HK Hq) as [Hv Hd].
  split; [| split].
  - unfold SmoothingKernel.value. fold q. rewrite Hv. q_ops.
    apply Qred_zero_iff. ring.
  - unfold SmoothingKernel.grad. fold q. rewrite Hd.
    assert (Hs : safe_divide 0 q = 0).
    { unfold safe_divide. destruct (is_small q); [reflexivity |].
      q_ops. apply Qred_zero_iff. field.
      intros E. rewrite E in Hq.
      unfold spline_kernels in HK. cbn [In] in HK.
      destruct HK as [<-|[<-|[<-|[<-|[]]]]]; revert Hq; cbn;
        intros Hq; apply Hq; reflexivity. }
    rewrite Hs. set (c := (_ * 0)%num).
    assert (Hc : c = 0) by (unfold c; q_ops; apply Qred_zero_iff; ring).
    rewrite Hc. apply vscale_0_l.
  - unfold SmoothingKernel.radius_deriv. fold q. rewrite Hv, Hd. q_ops.
    apply Qred_zero_iff. rewrite !Qred_correct. ring.
Qed.

End CompactSupport.

Lemma piecewise_bound (P : Q -> Prop) (pieces : list (Piece Q)) (q : Q) :
  P 0 ->
  Forall (fun '(lo, hi, e) => lo <= q -> q < hi -> P (e q)) pieces ->
  P (piecewise pieces q).
Proof.
  intros H0. induction 1 as [|[[lo hi] e] rest Hq _ IH]; cbn [piecewise].
  - exact H0.
  - change (num_leb lo q) with (Qle_bool lo q).
    change (num_ltb q hi) with (negb (Qle_bool hi q)).
    destruct (Qle_bool lo q) eqn:E1; [| exact IH].
    destruct (Qle_bool hi q) eqn:E2; [exact IH |].
    cbn [andb negb]. apply Hq.
    + apply Qle_bool_iff. exact E1.
    + apply Qnot_le_lt. rewrite <- Qle_bool_iff. congruence.
Qed.

Lemma cubic_unit_value_nonneg (q : Q) :
  0 <= CubicSmoothingKernel.unit_value q.
Proof.
  unfold CubicSmoothingKernel.unit_value.
  apply piecewise_bound; [discriminate |].
  unfold CubicSmoothingKernel.unit_value_pieces.
  repeat (apply List.Forall_cons; [| try apply List.Forall_nil]);
    piece_normal; intros H1 H2.
  - bernstein q 0 1 (fun A B : Q => 1 * (B * B * B) + 3 * (A * B * B) + (3 #
      2) * (A * A * B) + (1 # 4) * (A * A * A)).
  - bernstein q 1 2 (fun A B : Q => (1 # 4) * (B * B * B)).
Qed.

Lemma cubic_unit_deriv_nonpos (q : Q) :
  CubicSmoothingKernel.unit_deriv q <= 0.
Proof.
  unfold CubicSmoothingKernel.unit_deriv.
  apply piecewise_bound; [discriminate |].
  unfold CubicSmoothingKernel.unit_deriv_pieces.
  repeat (apply List.Forall_cons; [| try apply List.Forall_nil]);
    piece_normal; intros H1 H2.
  - bernstein_opp q 0 1 (fun A B : Q => 3 * (A * B) + (3 # 4) * (A * A)).
  - bernstein_opp q 1 2 (fun A B : Q => (3 # 4) * (B * B)).
Qed.

Lemma quartic_unit_value_nonneg (q : Q) :
  0 <= QuarticSmoothingKernel.unit_value q.
Proof.
  unfold QuarticSmoothingKernel.unit_value.
  apply piecewise_bound; [discriminate |].
  unfold QuarticSmoothingKernel.unit_value_pieces.
  repeat (apply List.Forall_cons; [| try apply List.Forall_nil]);
    piece_normal; intros H1 H2.
  - bernstein q 0 (1 # 2) (fun A B : Q => 230 * (B * B * B * B) + 920 * (A *
      B * B * B) + 1320 * (A * A * B * B) + 800 * (A * A * A * B) + 176 * (A
      * A * A * A)).
  - bernstein q (1 # 2) (3 # 2) (fun A B : Q => 11 * (B * B * B * B) + 32 *
      (A * B * B * B) + 24 * (A * A * B * B) + 8 * (A * A * A * B) + 1 * (A *
      A * A * A)).
  - bernstein q (3 # 2) (5 # 2) (fun A B : Q => 1 * (B * B * B * B)).
Qed.

Lemma quartic_unit_deriv_nonpos (q : Q) :
  QuarticSmoothingKernel.unit_deriv q <= 0.
Proof.
  unfold QuarticSmoothingKernel.unit_deriv.
  apply piecewise_bound; [discriminate |].
  unfold QuarticSmoothingKernel.unit_deriv_pieces.
  repeat (apply List.Forall_cons; [| try apply List.Forall_nil]);
    piece_normal; intros H1 H2.
  - bernstein_opp q 0 (1 # 2) (fun A B : Q => 120 * (A * B * B) + 240 * (A *
      A * B) + 96 * (A * A * A)).
  - bernstein_opp q (1 # 2) (3 # 2) (fun A B : Q => 12 * (B * B * B) + 48 *
      (A * B * B) + 24 * (A * A * B) + 4 * (A * A * A)).
  - bernstein_opp q (3 # 2) (5 # 2) (fun A B : Q => 4 * (B * B * B)).
Qed.

Lemma quintic_unit_value_nonneg (q : Q) :
  0 <= QuinticSmoothingKernel.unit_value q.
Proof.
  unfold QuinticSmoothingKernel.unit_value.
  apply piecewise_bound; [discriminate |].
  unfold QuinticSmoothingKernel.unit_value_pieces.
  repeat (apply List.Forall_cons; [| try apply List.Forall_nil]);
    piece_normal; intros H1 H2.
  - bernstein q 0 1 (fun A B : Q => 66 * (B * B * B * B * B) + 330 * (A * B *
      B * B * B) + 600 * (A * A * B * B * B) + 480 * (A * A * A * B * B) +
      180 * (A * A * A * A * B) + 26 * (A * A * A * A * A)).
  - bernstein q 1 2 (fun A B : Q => 26 * (B * B * B * B * B) + 80 * (A * B *
      B * B * B) + 80 * (A * A * B * B * B) + 40 * (A * A * A * B * B) + 10 *
      (A * A * A * A * B) + 1 * (A * A * A * A * A)).
  - bernstein q 2 3 (fun A B : Q => 1 * (B * B * B * B * B)).
Qed.

Lemma quintic_unit_deriv_nonpos (q : Q) :
  QuinticSmoothingKernel.unit_deriv q <= 0.
Proof.
  unfold QuinticSmoothingKernel.unit_deriv.
  apply piecewise_bound; [discriminate |].
  unfold QuinticSmoothingKernel.unit_deriv_pieces.
  repeat (apply List.Forall_cons; [| try apply List.Forall_nil]);
    piece_normal; intros H1 H2.
  - bernstein_opp q 0 1 (fun A B : Q => 120 * (A * B * B * B) + 360 * (A * A
      * B * B) + 240 * (A * A * A * B) + 50 * (A * A * A * A)).
  - bernstein_opp q 1 2 (fun A B : Q => 50 * (B * B * B * B) + 160 * (A * B *
      B * B) + 120 * (A * A * B * B) + 40 * (A * A * A * B) + 5 * (A * A * A
      * A)).
  - bernstein_opp q 2 3 (fun A B : Q => 5 * (B * B * B * B)).
Qed.

Theorem spline_profiles_sign (q : Q) :
  (0 <= CubicSmoothingKernel.unit_value q /\
   CubicSmoothingKernel.unit_deriv q <= 0) /\
  (0 <= QuarticSmoothingKernel.unit_value q /\
   QuarticSmoothingKernel.unit_deriv q <= 0) /\
  (0 <= QuinticSmoothingKernel.unit_value q /\
   QuinticSmoothingKernel.unit_deriv q <= 0).
Proof.
  split; [| split]; split.
  - apply cubic_unit_value_nonneg.
  - apply cubic_unit_deriv_nonpos.
  - apply quartic_unit_value_nonneg.
  - apply quartic_unit_deriv_nonpos.
  - apply quintic_unit_value_nonneg.
  - apply quintic_unit_deriv_nonpos.
Qed.

Lemma Qsquare_nonneg (x : Q) : 0 <= x * x.
Proof.
  destruct (Qlt_le_dec x 0) as [H|H].
  - assert (E : x * x == (- x) * (- x)) by ring. rewrite E.
    apply Qmult_le_0_compat; lra.
  - apply Qmult_le_0_compat; lra.
Qed.

Lemma Qprod_bounds (a b M N : Q) :
  0 <= a -> a <= M -> 0 <= b -> b <= N -> 0 <= a * b /\ a * b <= M * N.
Proof.
  intros Ha HaM Hb HbN. split.
  - apply Qmult_le_0_compat; assumption.
  - apply Qle_trans with (M * b).
    + apply Qmult_le_compat_r; assumption.
    + rewrite (Qmult_comm M b), (Qmult_comm M N).
      apply Qmult_le_compat_r; [assumption | lra].
Qed.

Lemma rem3 (u w M : Q) :
  0 <= u -> u <= M -> 0 <= w -> w <= M ->
  0 <= w * w * w - u * u * u - 3 * (u * u) * (w - u) /\
  w * w * w - u * u * u - 3 * (u * u) * (w - u) <= 3 * M * ((w - u) * (w - u)).
Proof.
  intros Hu HuM Hw HwM.
  assert (E : w * w * w - u * u * u - 3 * (u * u) * (w - u)
              == (w - u) * (w - u) * (w + 2 * u)) by ring.
  rewrite E. clear E.
  assert (HT : 0 <= (w - u) * (w - u)) by apply Qsquare_nonneg.
  set (T := (w - u) * (w - u)) in *. clearbody T.
  split; nra.
Qed.

Lemma rem4 (u w M : Q) :
  0 <= u -> u <= M -> 0 <= w -> w <= M ->
  0 <= w * w * (w * w) - u * u * (u * u) - 4 * (u * u * u) * (w - u) /\
  w * w * (w * w) - u * u * (u * u) - 4 * (u * u * u) * (w - u)
    <= 6 * (M * M) * ((w - u) * (w - u)).
Proof.
  intros Hu HuM Hw HwM.
  assert (E : w * w * (w * w) - u * u * (u * u) - 4 * (u * u * u) * (w - u)
              == (w - u) * (w - u) * (w * w + 2 * (u * w) + 3 * (u * u))) by ring.
  rewrite E. clear E.
  assert (HT : 0 <= (w - u) * (w - u)) by apply Qsquare_nonneg.
  set (T := (w - u) * (w - u)) in *. clearbody T.
  assert (H1 : 0 <= w * w /\ w * w <= M * M) by (apply Qprod_bounds; assumption).
  assert (H2 : 0 <= u * w /\ u * w <= M * M) by (apply Qprod_bounds; assumption).
  assert (H3 : 0 <= u * u /\ u * u <= M * M) by (apply Qprod_bounds; assumption).
  set (ww := w * w) in *. set (uw := u * w) in *. set (uu := u * u) in *.
  set (MM := M * M) in *. clearbody ww uw uu MM.
  split; nra.
Qed.

Lemma rem5 (u w M : Q) :
  0 <= u -> u <= M -> 0 <= w -> w <= M ->
  0 <= w * w * (w * w) * w - u * u * (u * u) * u
       - 5 * (u * u * (u * u)) * (w - u) /\
  w * w * (w * w) * w - u * u * (u * u) * u - 5 * (u * u * (u * u)) * (w - u)
    <= 10 * (M * M * M) * ((w - u) * (w - u)).
Proof.
  intros Hu HuM Hw HwM.
  assert (E : w * w * (w * w) * w - u * u * (u * u) * u
              - 5 * (u * u * (u * u)) * (w - u)
              == (w - u) * (w - u) *
                 (w * w * w + 2 * (u * (w * w)) + 3 * (u * u * w)
                  + 4 * (u * u * u))) by ring.
  rewrite E. clear E.
  assert (HT : 0 <= (w - u) * (w - u)) by apply Qsquare_nonneg.
  set (T := (w - u) * (w - u)) in *. clearbody T.
  assert (Hww : 0 <= w * w /\ w * w <= M * M) by (apply Qprod_bounds; assumption).
  assert (Huu : 0 <= u * u /\ u * u <= M * M) by (apply Qprod_bounds; assumption).
  assert (H1 : 0 <= w * w * w /\ w * w * w <= M * M * M)
    by (apply Qprod_bounds; tauto).
  assert (H2 : 0 <= u * (w * w) /\ u * (w * w) <= M * (M * M))
    by (apply Qprod_bounds; tauto).
  assert (H3 : 0 <= u * u * w /\ u * u * w <= M * M * M)
    by (apply Qprod_bounds; tauto).
  assert (H4 : 0 <= u * u * u /\ u * u * u <= M * M * M)
    by (apply Qprod_bounds; tauto).
  assert (EM : M * (M * M) == M * M * M) by ring. rewrite EM in H2. clear EM.
  set (a1 := w * w * w) in *. set (a2 := u * (w * w)) in *.
  set (a3 := u * u * w) in *. set (a4 := u * u * u) in *.
  set (MMM := M * M * M) in *. clearbody a1 a2 a3 a4 MMM.
  split; nra.
Qed.

Lemma cubic_unit_deriv_taylor (q q' : Q) :
  same_piece CubicSmoothingKernel.unit_value_pieces q q' ->
  Qabs (CubicSmoothingKernel.unit_value q' - CubicSmoothingKernel.unit_value q
        - (q' - q) * CubicSmoothingKernel.unit_deriv q)
    <= 5 * ((q' - q) * (q' - q)).
Proof.
  intros Hp. unfold same_piece in Hp.
  unfold CubicSmoothingKernel.unit_value_pieces in Hp.
  assert (Hlit : forall x : Q, lit x == x) by (intros x; apply Qred_correct).
  assert (HT : 0 <= (q' - q) * (q' - q)) by apply Qsquare_nonneg.
  unfold CubicSmoothingKernel.unit_value, CubicSmoothingKernel.unit_deriv,
    CubicSmoothingKernel.unit_value_pieces, CubicSmoothingKernel.unit_deriv_pieces.
  repeat (apply Exists_cons in Hp as [Hp|Hp]; [| try (apply Exists_nil in Hp; destruct Hp)]);
    destruct Hp as [[H1 H2] [H3 H4]]; rewrite Hlit in H1, H2, H3, H4;
    cbn [piecewise]; eval_guards; piece_normal; apply Qabs_Qle_condition.
  - (* [0, 1) *)
    pose proof (rem3 (2 - q) (2 - q') 2) as [L0 U0]; [lra | lra | lra | lra |].
    assert (E0 : ((2 - q') - (2 - q)) * ((2 - q') - (2 - q)) == (q' - q) * (q' - q)) by ring.
    rewrite E0 in U0. clear E0.
    pose proof (rem3 (1 - q) (1 - q') 1) as [L1 U1]; [lra | lra | lra | lra |].
    assert (E1 : ((1 - q') - (1 - q)) * ((1 - q') - (1 - q)) == (q' - q) * (q' - q)) by ring.
    rewrite E1 in U1. clear E1.
    match goal with |- _ <= ?X <= _ =>
      assert (EX : X == (1 # 4) * ((2 - q') * (2 - q') * (2 - q') - (2 - q) *
          (2 - q) * (2 - q) - 3 * ((2 - q) * (2 - q)) * ((2 - q') - (2 - q)))
          + (-1) * ((1 - q') * (1 - q') * (1 - q') - (1 - q) * (1 - q) * (1 -
          q) - 3 * ((1 - q) * (1 - q)) * ((1 - q') - (1 - q)))) by ring;
      rewrite EX; clear EX end.
    set (T := (q' - q) * (q' - q)) in *.
    set (R0 := ((2 - q') * (2 - q') * (2 - q') - (2 - q) * (2 - q) * (2 - q)
        - 3 * ((2 - q) * (2 - q)) * ((2 - q') - (2 - q)))) in *.
    set (R1 := ((1 - q') * (1 - q') * (1 - q') - (1 - q) * (1 - q) * (1 - q)
        - 3 * ((1 - q) * (1 - q)) * ((1 - q') - (1 - q)))) in *.
    clearbody T R0 R1.
    split; lra.
  - (* [1, 2) *)
    pose proof (rem3 (2 - q) (2 - q') 2) as [L0 U0]; [lra | lra | lra | lra |].
    assert (E0 : ((2 - q') - (2 - q)) * ((2 - q') - (2 - q)) == (q' - q) * (q' - q)) by ring.
    rewrite E0 in U0. clear E0.
    match goal with |- _ <= ?X <= _ =>
      assert (EX : X == (1 # 4) * ((2 - q') * (2 - q') * (2 - q') - (2 - q) *
          (2 - q) * (2 - q) - 3 * ((2 - q) * (2 - q)) * ((2 - q') - (2 -
          q)))) by ring;
      rewrite EX; clear EX end.
    set (T := (q' - q) * (q' - q)) in *.
    set (R0 := ((2 - q') * (2 - q') * (2 - q') - (2 - q) * (2 - q) * (2 - q)
        - 3 * ((2 - q) * (2 - q)) * ((2 - q') - (2 - q)))) in *.
    clearbody T R0.
    split; lra.
Qed.

Lemma quartic_unit_deriv_taylor (q q' : Q) :
  same_piece QuarticSmoothingKernel.unit_value_pieces q q' ->
  Qabs (QuarticSmoothingKernel.unit_value q' - QuarticSmoothingKernel.unit_value q
        - (q' - q) * QuarticSmoothingKernel.unit_deriv q)
    <= 120 * ((q' - q) * (q' - q)).
Proof.
  intros Hp. unfold same_piece in Hp.
  unfold QuarticSmoothingKernel.unit_value_pieces in Hp.
  assert (Hlit : forall x : Q, lit x == x) by (intros x; apply Qred_correct).
  assert (HT : 0 <= (q' - q) * (q' - q)) by apply Qsquare_nonneg.
  unfold QuarticSmoothingKernel.unit_value, QuarticSmoothingKernel.unit_deriv,
    QuarticSmoothingKernel.unit_value_pieces, QuarticSmoothingKernel.unit_deriv_pieces.
  repeat (apply Exists_cons in Hp as [Hp|Hp]; [| try (apply Exists_nil in Hp; destruct Hp)]);
    destruct Hp as [[H1 H2] [H3 H4]]; rewrite Hlit in H1, H2, H3, H4;
    cbn [piecewise]; eval_guards; piece_normal; apply Qabs_Qle_condition.
  - (* [0, 1/2) *)
    pose proof (rem4 ((5 # 2) - q) ((5 # 2) - q') (5 # 2)) as [L0 U0]; [lra | lra | lra | lra |].
    assert (E0 : (((5 # 2) - q') - ((5 # 2) - q)) * (((5 # 2) - q') - ((5 #
        2) - q)) == (q' - q) * (q' - q)) by ring.
    rewrite E0 in U0. clear E0.
    pose proof (rem4 ((3 # 2) - q) ((3 # 2) - q') (3 # 2)) as [L1 U1]; [lra | lra | lra | lra |].
    assert (E1 : (((3 # 2) - q') - ((3 # 2) - q)) * (((3 # 2) - q') - ((3 #
        2) - q)) == (q' - q) * (q' - q)) by ring.
    rewrite E1 in U1. clear E1.
    pose proof (rem4 ((1 # 2) - q) ((1 # 2) - q') (1 # 2)) as [L2 U2]; [lra | lra | lra | lra |].
    assert (E2 : (((1 # 2) - q') - ((1 # 2) - q)) * (((1 # 2) - q') - ((1 #
        2) - q)) == (q' - q) * (q' - q)) by ring.
    rewrite E2 in U2. clear E2.
    match goal with |- _ <= ?X <= _ =>
      assert (EX : X == 1 * (((5 # 2) - q') * ((5 # 2) - q') * (((5 # 2) -
          q') * ((5 # 2) - q')) - ((5 # 2) - q) * ((5 # 2) - q) * (((5 # 2) -
          q) * ((5 # 2) - q)) - 4 * (((5 # 2) - q) * ((5 # 2) - q) * ((5 # 2)
          - q)) * (((5 # 2) - q') - ((5 # 2) - q))) + (-5) * (((3 # 2) - q')
          * ((3 # 2) - q') * (((3 # 2) - q') * ((3 # 2) - q')) - ((3 # 2) -
          q) * ((3 # 2) - q) * (((3 # 2) - q) * ((3 # 2) - q)) - 4 * (((3 #
          2) - q) * ((3 # 2) - q) * ((3 # 2) - q)) * (((3 # 2) - q') - ((3 #
          2) - q))) + 10 * (((1 # 2) - q') * ((1 # 2) - q') * (((1 # 2) - q')
          * ((1 # 2) - q')) - ((1 # 2) - q) * ((1 # 2) - q) * (((1 # 2) - q)
          * ((1 # 2) - q)) - 4 * (((1 # 2) - q) * ((1 # 2) - q) * ((1 # 2) -
          q)) * (((1 # 2) - q') - ((1 # 2) - q)))) by ring;
      rewrite EX; clear EX end.
    set (T := (q' - q) * (q' - q)) in *.
    set (R0 := (((5 # 2) - q') * ((5 # 2) - q') * (((5 # 2) - q') * ((5 # 2)
        - q')) - ((5 # 2) - q) * ((5 # 2) - q) * (((5 # 2) - q) * ((5 # 2) -
        q)) - 4 * (((5 # 2) - q) * ((5 # 2) - q) * ((5 # 2) - q)) * (((5 # 2)
        - q') - ((5 # 2) - q)))) in *.
    set (R1 := (((3 # 2) - q') * ((3 # 2) - q') * (((3 # 2) - q') * ((3 # 2)
        - q')) - ((3 # 2) - q) * ((3 # 2) - q) * (((3 # 2) - q) * ((3 # 2) -
        q)) - 4 * (((3 # 2) - q) * ((3 # 2) - q) * ((3 # 2) - q)) * (((3 # 2)
        - q') - ((3 # 2) - q)))) in *.
    set (R2 := (((1 # 2) - q') * ((1 # 2) - q') * (((1 # 2) - q') * ((1 # 2)
        - q')) - ((1 # 2) - q) * ((1 # 2) - q) * (((1 # 2) - q) * ((1 # 2) -
        q)) - 4 * (((1 # 2) - q) * ((1 # 2) - q) * ((1 # 2) - q)) * (((1 # 2)
        - q') - ((1 # 2) - q)))) in *.
    clearbody T R0 R1 R2.
    split; lra.
  - (* [1/2, 3/2) *)
    pose proof (rem4 ((5 # 2) - q) ((5 # 2) - q') (5 # 2)) as [L0 U0]; [lra | lra | lra | lra |].
    assert (E0 : (((5 # 2) - q') - ((5 # 2) - q)) * (((5 # 2) - q') - ((5 #
        2) - q)) == (q' - q) * (q' - q)) by ring.
    rewrite E0 in U0. clear E0.
    pose proof (rem4 ((3 # 2) - q) ((3 # 2) - q') (3 # 2)) as [L1 U1]; [lra | lra | lra | lra |].
    assert (E1 : (((3 # 2) - q') - ((3 # 2) - q)) * (((3 # 2) - q') - ((3 #
        2) - q)) == (q' - q) * (q' - q)) by ring.
    rewrite E1 in U1. clear E1.
    match goal with |- _ <= ?X <= _ =>
      assert (EX : X == 1 * (((5 # 2) - q') * ((5 # 2) - q') * (((5 # 2) -
          q') * ((5 # 2) - q')) - ((5 # 2) - q) * ((5 # 2) - q) * (((5 # 2) -
          q) * ((5 # 2) - q)) - 4 * (((5 # 2) - q) * ((5 # 2) - q) * ((5 # 2)
          - q)) * (((5 # 2) - q') - ((5 # 2) - q))) + (-5) * (((3 # 2) - q')
          * ((3 # 2) - q') * (((3 # 2) - q') * ((3 # 2) - q')) - ((3 # 2) -
          q) * ((3 # 2) - q) * (((3 # 2) - q) * ((3 # 2) - q)) - 4 * (((3 #
          2) - q) * ((3 # 2) - q) * ((3 # 2) - q)) * (((3 # 2) - q') - ((3 #
          2) - q)))) by ring;
      rewrite EX; clear EX end.
    set (T := (q' - q) * (q' - q)) in *.
    set (R0 := (((5 # 2) - q') * ((5 # 2) - q') * (((5 # 2) - q') * ((5 # 2)
        - q')) - ((5 # 2) - q) * ((5 # 2) - q) * (((5 # 2) - q) * ((5 # 2) -
        q)) - 4 * (((5 # 2) - q) * ((5 # 2) - q) * ((5 # 2) - q)) * (((5 # 2)
        - q') - ((5 # 2) - q)))) in *.
    set (R1 := (((3 # 2) - q') * ((3 # 2) - q') * (((3 # 2) - q') * ((3 # 2)
        - q')) - ((3 # 2) - q) * ((3 # 2) - q) * (((3 # 2) - q) * ((3 # 2) -
        q)) - 4 * (((3 # 2) - q) * ((3 # 2) - q) * ((3 # 2) - q)) * (((3 # 2)
        - q') - ((3 # 2) - q)))) in *.
    clearbody T R0 R1.
    split; lra.
  - (* [3/2, 5/2) *)
    pose proof (rem4 ((5 # 2) - q) ((5 # 2) - q') (5 # 2)) as [L0 U0]; [lra | lra | lra | lra |].
    assert (E0 : (((5 # 2) - q') - ((5 # 2) - q)) * (((5 # 2) - q') - ((5 #
        2) - q)) == (q' - q) * (q' - q)) by ring.
    rewrite E0 in U0. clear E0.
    match goal with |- _ <= ?X <= _ =>
      assert (EX : X == 1 * (((5 # 2) - q') * ((5 # 2) - q') * (((5 # 2) -
          q') * ((5 # 2) - q')) - ((5 # 2) - q) * ((5 # 2) - q) * (((5 # 2) -
          q) * ((5 # 2) - q)) - 4 * (((5 # 2) - q) * ((5 # 2) - q) * ((5 # 2)
          - q)) * (((5 # 2) - q') - ((5 # 2) - q)))) by ring;
      rewrite EX; clear EX end.
    set (T := (q' - q) * (q' - q)) in *.
    set (R0 := (((5 # 2) - q') * ((5 # 2) - q') * (((5 # 2) - q') * ((5 # 2)
        - q')) - ((5 # 2) - q) * ((5 # 2) - q) * (((5 # 2) - q) * ((5 # 2) -
        q)) - 4 * (((5 # 2) - q) * ((5 # 2) - q) * ((5 # 2) - q)) * (((5 # 2)
        - q') - ((5 # 2) - q)))) in *.
    clearbody T R0.
    split; lra.
Qed.

Lemma quintic_unit_deriv_taylor (q q' : Q) :
  same_piece QuinticSmoothingKernel.unit_value_pieces q q' ->
  Qabs (QuinticSmoothingKernel.unit_value q' - QuinticSmoothingKernel.unit_value q
        - (q' - q) * QuinticSmoothingKernel.unit_deriv q)
    <= 900 * ((q' - q) * (q' - q)).
Proof.
  intros Hp. unfold same_piece in Hp.
  unfold QuinticSmoothingKernel.unit_value_pieces in Hp.
  assert (Hlit : forall x : Q, lit x == x) by (intros x; apply Qred_correct).
  assert (HT : 0 <= (q' - q) * (q' - q)) by apply Qsquare_nonneg.
  unfold QuinticSmoothingKernel.unit_value, QuinticSmoothingKernel.unit_deriv,
    QuinticSmoothingKernel.unit_value_pieces, QuinticSmoothingKernel.unit_deriv_pieces.
  repeat (apply Exists_cons in Hp as [Hp|Hp]; [| try (apply Exists_nil in Hp; destruct Hp)]);
    destruct Hp as [[H1 H2] [H3 H4]]; rewrite Hlit in H1, H2, H3, H4;
    cbn [piecewise]; eval_guards; piece_normal; apply Qabs_Qle_condition.
  - (* [0, 1) *)
    pose proof (rem5 (3 - q) (3 - q') 3) as [L0 U0]; [lra | lra | lra | lra |].
    assert (E0 : ((3 - q') - (3 - q)) * ((3 - q') - (3 - q)) == (q' - q) * (q' - q)) by ring.
    rewrite E0 in U0. clear E0.
    pose proof (rem5 (2 - q) (2 - q') 2) as [L1 U1]; [lra | lra | lra | lra |].
    assert (E1 : ((2 - q') - (2 - q)) * ((2 - q') - (2 - q)) == (q' - q) * (q' - q)) by ring.
    rewrite E1 in U1. clear E1.
    pose proof (rem5 (1 - q) (1 - q') 1) as [L2 U2]; [lra | lra | lra | lra |].
    assert (E2 : ((1 - q') - (1 - q)) * ((1 - q') - (1 - q)) == (q' - q) * (q' - q)) by ring.
    rewrite E2 in U2. clear E2.
    match goal with |- _ <= ?X <= _ =>
      assert (EX : X == 1 * ((3 - q') * (3 - q') * ((3 - q') * (3 - q')) * (3
          - q') - (3 - q) * (3 - q) * ((3 - q) * (3 - q)) * (3 - q) - 5 * ((3
          - q) * (3 - q) * ((3 - q) * (3 - q))) * ((3 - q') - (3 - q))) +
          (-6) * ((2 - q') * (2 - q') * ((2 - q') * (2 - q')) * (2 - q') - (2
          - q) * (2 - q) * ((2 - q) * (2 - q)) * (2 - q) - 5 * ((2 - q) * (2
          - q) * ((2 - q) * (2 - q))) * ((2 - q') - (2 - q))) + 15 * ((1 -
          q') * (1 - q') * ((1 - q') * (1 - q')) * (1 - q') - (1 - q) * (1 -
          q) * ((1 - q) * (1 - q)) * (1 - q) - 5 * ((1 - q) * (1 - q) * ((1 -
          q) * (1 - q))) * ((1 - q') - (1 - q)))) by ring;
      rewrite EX; clear EX end.
    set (T := (q' - q) * (q' - q)) in *.
    set (R0 := ((3 - q') * (3 - q') * ((3 - q') * (3 - q')) * (3 - q') - (3 -
        q) * (3 - q) * ((3 - q) * (3 - q)) * (3 - q) - 5 * ((3 - q) * (3 - q)
        * ((3 - q) * (3 - q))) * ((3 - q') - (3 - q)))) in *.
    set (R1 := ((2 - q') * (2 - q') * ((2 - q') * (2 - q')) * (2 - q') - (2 -
        q) * (2 - q) * ((2 - q) * (2 - q)) * (2 - q) - 5 * ((2 - q) * (2 - q)
        * ((2 - q) * (2 - q))) * ((2 - q') - (2 - q)))) in *.
    set (R2 := ((1 - q') * (1 - q') * ((1 - q') * (1 - q')) * (1 - q') - (1 -
        q) * (1 - q) * ((1 - q) * (1 - q)) * (1 - q) - 5 * ((1 - q) * (1 - q)
        * ((1 - q) * (1 - q))) * ((1 - q') - (1 - q)))) in *.
    clearbody T R0 R1 R2.
    split; lra.
  - (* [1, 2) *)
    pose proof (rem5 (3 - q) (3 - q') 3) as [L0 U0]; [lra | lra | lra | lra |].
    assert (E0 : ((3 - q') - (3 - q)) * ((3 - q') - (3 - q)) == (q' - q) * (q' - q)) by ring.
    rewrite E0 in U0. clear E0.
    pose proof (rem5 (2 - q) (2 - q') 2) as [L1 U1]; [lra | lra | lra | lra |].
    assert (E1 : ((2 - q') - (2 - q)) * ((2 - q') - (2 - q)) == (q' - q) * (q' - q)) by ring.
    rewrite E1 in U1. clear E1.
    match goal with |- _ <= ?X <= _ =>
      assert (EX : X == 1 * ((3 - q') * (3 - q') * ((3 - q') * (3 - q')) * (3
          - q') - (3 - q) * (3 - q) * ((3 - q) * (3 - q)) * (3 - q) - 5 * ((3
          - q) * (3 - q) * ((3 - q) * (3 - q))) * ((3 - q') - (3 - q))) +
          (-6) * ((2 - q') * (2 - q') * ((2 - q') * (2 - q')) * (2 - q') - (2
          - q) * (2 - q) * ((2 - q) * (2 - q)) * (2 - q) - 5 * ((2 - q) * (2
          - q) * ((2 - q) * (2 - q))) * ((2 - q') - (2 - q)))) by ring;
      rewrite EX; clear EX end.
    set (T := (q' - q) * (q' - q)) in *.
    set (R0 := ((3 - q') * (3 - q') * ((3 - q') * (3 - q')) * (3 - q') - (3 -
        q) * (3 - q) * ((3 - q) * (3 - q)) * (3 - q) - 5 * ((3 - q) * (3 - q)
        * ((3 - q) * (3 - q))) * ((3 - q') - (3 - q)))) in *.
    set (R1 := ((2 - q') * (2 - q') * ((2 - q') * (2 - q')) * (2 - q') - (2 -
        q) * (2 - q) * ((2 - q) * (2 - q)) * (2 - q) - 5 * ((2 - q) * (2 - q)
        * ((2 - q) * (2 - q))) * ((2 - q') - (2 - q)))) in *.
    clearbody T R0 R1.
    split; lra.
  - (* [2, 3) *)
    pose proof (rem5 (3 - q) (3 - q') 3) as [L0 U0]; [lra | lra | lra | lra |].
    assert (E0 : ((3 - q') - (3 - q)) * ((3 - q') - (3 - q)) == (q' - q) * (q' - q)) by ring.
    rewrite E0 in U0. clear E0.
    match goal with |- _ <= ?X <= _ =>
      assert (EX : X == 1 * ((3 - q') * (3 - q') * ((3 - q') * (3 - q')) * (3
          - q') - (3 - q) * (3 - q) * ((3 - q) * (3 - q)) * (3 - q) - 5 * ((3
          - q) * (3 - q) * ((3 - q) * (3 - q))) * ((3 - q') - (3 - q)))) by
          ring;
      rewrite EX; clear EX end.
    set (T := (q' - q) * (q' - q)) in *.
    set (R0 := ((3 - q') * (3 - q') * ((3 - q') * (3 - q')) * (3 - q') - (3 -
        q) * (3 - q) * ((3 - q) * (3 - q)) * (3 - q) - 5 * ((3 - q) * (3 - q)
        * ((3 - q) * (3 - q))) * ((3 - q') - (3 - q)))) in *.
    clearbody T R0.
    split; lra.
Qed.

Lemma Q_pow_nonneg (x : Q) (n : nat) : 0 <= x -> 0 <= pow x n.
Proof.
  intros Hx. induction n as [|n IH]; cbn [pow].
  - discriminate.
  - q_ops. rewrite Qred_correct. apply Qmult_le_0_compat; assumption.
Qed.

Lemma Q_inverse_pos (h : Q) : 0 < h -> 0 < inverse h.
Proof.
  intros Hh. unfold inverse. q_ops. rewrite Qred_correct.
  apply Qlt_shift_div_l; lra.
Qed.

Lemma spline_weight_nonneg (inv_pi : Q) (K : Kernel Q) (Dim : nat) :
  In K (spline_kernels inv_pi) -> 0 <= inv_pi -> 0 <= kernel_weight K Dim.
Proof.
  intros HK Hpi. unfold spline_kernels in HK. cbn [In] in HK.
  destruct HK as [<-|[<-|[<-|[<-|[]]]]];
    cbn [kernel_weight CubicSmoothingKernel.kernel
         ThomasCouchmanSmoothingKernel.kernel QuarticSmoothingKernel.kernel
         QuinticSmoothingKernel.kernel];
    unfold ThomasCouchmanSmoothingKernel.weight, CubicSmoothingKernel.weight,
      QuarticSmoothingKernel.weight, QuinticSmoothingKernel.weight;
    destruct Dim as [|[|[|[|Dim]]]]; q_ops; rewrite ?Qred_correct;
    try discriminate; try exact Hpi;
    apply Qmult_le_0_compat; try exact Hpi; discriminate.
Qed.

Lemma spline_unit_value_nonneg (inv_pi : Q) (K : Kernel Q) (q : Q) :
  In K (spline_kernels inv_pi) -> 0 <= kernel_unit_value K q.
Proof.
  intros HK. unfold spline_kernels in HK. cbn [In] in HK.
  destruct HK as [<-|[<-|[<-|[<-|[]]]]];
    cbn [kernel_unit_value CubicSmoothingKernel.kernel
         ThomasCouchmanSmoothingKernel.kernel QuarticSmoothingKernel.kernel
         QuinticSmoothingKernel.kernel].
  - apply cubic_unit_value_nonneg.
  - apply cubic_unit_value_nonneg.
  - apply quartic_unit_value_nonneg.
  - apply quintic_unit_value_nonneg.
Qed.

Lemma bspline_unit_deriv_nonpos (inv_pi : Q) (K : Kernel Q) (q : Q) :
  In K (bspline_kernels inv_pi) -> kernel_unit_deriv K q <= 0.
Proof.
  intros HK. unfold bspline_kernels in HK. cbn [In] in HK.
  destruct HK as [<-|[<-|[<-|[]]]];
    cbn [kernel_unit_deriv CubicSmoothingKernel.kernel
         QuarticSmoothingKernel.kernel QuinticSmoothingKernel.kernel].
  - apply cubic_unit_deriv_nonpos.
  - apply quartic_unit_deriv_nonpos.
  - apply quintic_unit_deriv_nonpos.
Qed.

Lemma bspline_is_spline (inv_pi : Q) (K : Kernel Q) :
  In K (bspline_kernels inv_pi) -> In K (spline_kernels inv_pi).
Proof.
  unfold bspline_kernels, spline_kernels. cbn [In]. tauto.
Qed.

Section KernelSigns.
Context {vec_ops : VecOps Q}.

(** X10.  For the cubic, Thomas-Couchman, quartic and quintic kernels
    and a width [h > 0], the value of the kernel is never negative. *)
Theorem spline_value_nonneg (inv_pi : Q) (K : Kernel Q) (r : Vec Q) (h : Q) :
  In K (spline_kernels inv_pi) ->
  0 <= inv_pi ->
  0 < h ->
  0 <= SmoothingKernel.value K r h.
Proof.
  intros HK Hpi Hh. unfold SmoothingKernel.value. q_ops.
  rewrite !Qred_correct.
  apply Qmult_le_0_compat; [apply Qmult_le_0_compat |].
  - apply Q_pow_nonneg. apply Qlt_le_weak, Q_inverse_pos, Hh.
  - apply (spline_weight_nonneg inv_pi); assumption.
  - apply (spline_unit_value_nonneg inv_pi). exact HK.
Qed.

(** X11.  For the cubic, quartic and quintic kernels, a width
    [h > 0], [inv_pi >= 0] and a norm that is not negative at [r], the
    gradient at [r] is [c * r] with [c <= 0]: the kernel does not increase
    away from the particle.  (The derivative profile of the
    Thomas-Couchman kernel is positive between 1 and 2.) *)
Theorem bspline_grad_inward (inv_pi : Q) (K : Kernel Q) (r : Vec Q) (h : Q) :
  In K (bspline_kernels inv_pi) ->
  0 <= inv_pi ->
  0 < h ->
  0 <= norm r ->
  exists c : Q, c <= 0 /\ SmoothingKernel.grad K r h = vscale c r.
Proof.
  intros HK Hpi Hh Hn. unfold SmoothingKernel.grad.
  set (q := (inverse h * norm r)%num).
  eexists. split; [| reflexivity].
  q_ops. rewrite !Qred_correct.
  assert (Hq : 0 <= q).
  { unfold q. q_ops. rewrite Qred_correct.
    apply Qmult_le_0_compat; [apply Qlt_le_weak, Q_inverse_pos, Hh | exact Hn]. }
  assert (Hs : safe_divide (kernel_unit_deriv K q) q <= 0).
  { unfold safe_divide. destruct (is_small q) eqn:Hsmall; [discriminate |].
    q_ops. rewrite Qred_correct.
    assert (Hpos : 0 < q).
    { apply Qnot_le_lt. intros Hle.
      assert (E : q == 0) by lra.
      unfold is_small in Hsmall.
      assert (num_leb (num_abs q) small_number_v = true); [| congruence].
      apply Q_abs_leb. rewrite E. discriminate. }
    pose proof (bspline_unit_deriv_nonpos inv_pi K q HK) as Hd.
    apply Qle_shift_div_r; [exact Hpos | lra]. }
  set (s := safe_divide _ _) in *. clearbody s.
  assert (Hw : 0 <= pow (inverse h) (dim r + 2) * kernel_weight K (dim r)).
  { apply Qmult_le_0_compat.
    - apply Q_pow_nonneg. apply Qlt_le_weak, Q_inverse_pos, Hh.
    - apply (spline_weight_nonneg inv_pi);
        [apply bspline_is_spline; exact HK | exact Hpi]. }
  set (w := pow _ _ * _) in *. clearbody w. clear -Hs Hw.
  assert (E : w * s == - (w * - s)) by ring. rewrite E.
  apply Qopp_nonpos. apply Qmult_le_0_compat; lra.
Qed.

End KernelSigns.

(** X12.  For the cubic, quartic and quintic kernels [unit_deriv]
    is the derivative of [unit_value]: for [q] and [q'] in the same piece,
    [unit_value(q')] differs from [unit_value(q) + (q' - q) * unit_deriv(q)]
    by at most a constant times [(q' - q)^2]. *)
Theorem bspline_unit_deriv_taylor (q q' : Q) :
  (same_piece CubicSmoothingKernel.unit_value_pieces q q' ->
   Qabs (CubicSmoothingKernel.unit_value q' - CubicSmoothingKernel.unit_value q
         - (q' - q) * CubicSmoothingKernel.unit_deriv q)
     <= 5 * ((q' - q) * (q' - q))) /\
  (same_piece QuarticSmoothingKernel.unit_value_pieces q q' ->
   Qabs (QuarticSmoothingKernel.unit_value q'
         - QuarticSmoothingKernel.unit_value q
         - (q' - q) * QuarticSmoothingKernel.unit_deriv q)
     <= 120 * ((q' - q) * (q' - q))) /\
  (same_piece QuinticSmoothingKernel.unit_value_pieces q q' ->
   Qabs (QuinticSmoothingKernel.unit_value q'
         - QuinticSmoothingKernel.unit_value q
         - (q' - q) * QuinticSmoothingKernel.unit_deriv q)
     <= 900 * ((q' - q) * (q' - q))).
Proof.
  split; [| split].
  - apply cubic_unit_deriv_taylor.
  - apply quartic_unit_deriv_taylor.
  - apply quintic_unit_deriv_taylor.
Qed.

Lemma bspline_unit_deriv_taylor_witness :
  same_piece (@CubicSmoothingKernel.unit_value_pieces Q _) (1 # 8) (1 # 4) /\
  same_piece (@QuarticSmoothingKernel.unit_value_pieces Q _) (1 # 8) (1 # 4) /\
  same_piece (@QuinticSmoothingKernel.unit_value_pieces Q _) (1 # 8) (1 # 4) /\
  Qabs (CubicSmoothingKernel.unit_value (1 # 4)
        - CubicSmoothingKernel.unit_value (1 # 8)
        - ((1 # 4) - (1 # 8)) * CubicSmoothingKernel.unit_deriv (1 # 8))
    <= 5 * (((1 # 4) - (1 # 8)) * ((1 # 4) - (1 # 8))) /\
  Qabs (QuarticSmoothingKernel.unit_value (1 # 4)
        - QuarticSmoothingKernel.unit_value (1 # 8)
        - ((1 # 4) - (1 # 8)) * QuarticSmoothingKernel.unit_deriv (1 # 8))
    <= 120 * (((1 # 4) - (1 # 8)) * ((1 # 4) - (1 # 8))) /\
  Qabs (QuinticSmoothingKernel.unit_value (1 # 4)
        - QuinticSmoothingKernel.unit_value (1 # 8)
        - ((1 # 4) - (1 # 8)) * QuinticSmoothingKernel.unit_deriv (1 # 8))
    <= 900 * (((1 # 4) - (1 # 8)) * ((1 # 4) - (1 # 8))).
Proof.
  assert (H3 : same_piece (@CubicSmoothingKernel.unit_value_pieces Q _)
                 (1 # 8) (1 # 4)).
  { apply List.Exists_cons_hd. repeat split; try discriminate; reflexivity. }
  assert (H4 : same_piece (@QuarticSmoothingKernel.unit_value_pieces Q _)
                 (1 # 8) (1 # 4)).
  { apply List.Exists_cons_hd. repeat split; try discriminate; reflexivity. }
  assert (H5 : same_piece (@QuinticSmoothingKernel.unit_value_pieces Q _)
                 (1 # 8) (1 # 4)).
  { apply List.Exists_cons_hd. repeat split; try discriminate; reflexivity. }
  destruct (bspline_unit_deriv_taylor (1 # 8) (1 # 4)) as (T3 & T4 & T5).
  split; [exact H3 |]. split; [exact H4 |]. split; [exact H5 |].
  split; [exact (T3 H3) |]. split; [exact (T4 H4) | exact (T5 H5)].
Defined.

(** X13.  The value and derivative profiles of the cubic,
    quartic and quintic kernels agree where their pieces meet, and reach 0 at
    the unit radius. *)
Theorem bspline_profiles_continuous :
  Forall (fun pieces => boundaries_continuous Qeq pieces)
    [ @CubicSmoothingKernel.unit_value_pieces Q _;
      @CubicSmoothingKernel.unit_deriv_pieces Q _;
      @QuarticSmoothingKernel.unit_value_pieces Q _;
      @QuarticSmoothingKernel.unit_deriv_pieces Q _;
      @QuinticSmoothingKernel.unit_value_pieces Q _;
      @QuinticSmoothingKernel.unit_deriv_pieces Q _ ].
Proof.
  repeat (apply List.Forall_cons; [repeat constructor |]).
  apply List.Forall_nil.
Qed.

Section Euler.
Context {vec_ops : VecOps Q}.
Variable K : Kernel Q.

Lemma Q_pow_succ (x : Q) (n : nat) : pow x (n + 1) == pow x n * x.
Proof.
  induction n as [|n IH]; cbn [pow plus]; q_ops; rewrite !Qred_correct.
  - ring.
  - rewrite IH. ring.
Qed.

(** X14.  For every kernel, the value, the gradient and the width
    derivative are tied by the scaling of the kernel with its width:
    [h * radius_deriv(r, h) + Dim * value(r, h) + dot(r, grad(r, h)) = 0],
    where [q = norm r / h] is not small and [dot(r, c * r) = c * norm(r)^2]. *)
Theorem kernel_width_scaling (r : Vec Q) (h : Q) :
  0 < h ->
  is_small (inverse h * norm r)%num = false ->
  (forall c : Q, dot r (vscale c r) == c * (norm r * norm r)) ->
  h * SmoothingKernel.radius_deriv K r h
  + inject_Z (Z.of_nat (dim r)) * SmoothingKernel.value K r h
  + dot r (SmoothingKernel.grad K r h) == 0.
Proof.
  intros Hh Hsmall Hdot.
  unfold SmoothingKernel.grad. rewrite Hdot.
  unfold SmoothingKernel.radius_deriv, SmoothingKernel.value, safe_divide.
  rewrite Hsmall.
  set (q := (inverse h * norm r)%num) in *.
  assert (Hq : q == norm r / h).
  { unfold q, inverse. q_ops. rewrite !Qred_correct. field. lra. }
  assert (Hq0 : ~ q == 0).
  { intros E. unfold is_small in Hsmall.
    assert (num_leb (num_abs q) small_number_v = true); [| congruence].
    apply Q_abs_leb. rewrite E. discriminate. }
  assert (Hn : norm r == q * h) by (rewrite Hq; field; lra).
  replace (dim r + 2)%nat with (dim r + 1 + 1)%nat by lia.
  set (v := kernel_unit_value K q). set (d := kernel_unit_deriv K q).
  set (w := kernel_weight K (dim r)).
  q_ops. rewrite !Qred_correct, !Q_pow_succ, Hn.
  set (p := pow (inverse h) (dim r)).
  assert (Hi : inverse h == / h).
  { unfold inverse. q_ops. rewrite Qred_correct. field. lra. }
  rewrite Hi.
  replace (inject_Z (- Z.of_nat (dim r))) with (- inject_Z (Z.of_nat (dim r))).
  2:{ unfold inject_Z, Qopp. reflexivity. }
  field. split; [exact Hq0 | lra].
Qed.

End Euler.

Lemma kernel_width_scaling_witness :
  0 < 1 /\
  is_small (inverse 1 * norm [3 # 2])%num = false /\
  (forall c : Q,
     dot [3 # 2] (vscale c [3 # 2]) == c * (norm [3 # 2] * norm [3 # 2])) /\
  1 * SmoothingKernel.radius_deriv line_kernel [3 # 2] 1
  + inject_Z (Z.of_nat (dim [3 # 2])) * SmoothingKernel.value line_kernel [3 # 2] 1
  + dot [3 # 2] (SmoothingKernel.grad line_kernel [3 # 2] 1) == 0.
Proof.
  assert (Hdot : forall c : Q,
            dot [3 # 2] (vscale c [3 # 2])
            == c * (norm [3 # 2] * norm [3 # 2])).
  { intros c. unfold dot, norm, Q_VecOps, vscale.
    cbn [map zip_with fold_right]. q_ops. rewrite !Qred_correct.
    change (Qabs (3 # 2)) with (3 # 2). ring. }
  split; [reflexivity |]. split; [reflexivity |]. split; [exact Hdot |].
  apply (kernel_width_scaling line_kernel [3 # 2] 1);
    [reflexivity | reflexivity | exact Hdot].
Defined.


End SplineFacts.

(** *** The passes of the estimators *)
Section Frames.
Context {Num : Type} {number : Number Num} {vec_ops : VecOps Num}
  {eos : EquationOfState Num} {viscosity : ArtificialViscosity Num}
  {cloud : ParticleCloud Num}.
Variable K : Kernel Num.

Lemma length_for_each (body : nat -> Cloud Num -> Cloud Num) (c : Cloud Num) :
  (forall b c', length (body b c') = length c') ->
  length (for_each body c) = length c.
Proof.
  intros Hbody.
  apply (for_each_invariant (fun c' => length c' = length c)); [reflexivity |].
  intros a c' Hc'. rewrite Hbody. exact Hc'.
Qed.

Lemma length_classic_density_body (h_ab R : Num) (a : nat) (c : Cloud Num) :
  length (ClassicSmoothEstimator.density_body K h_ab R a c) = length c.
Proof.
  unfold ClassicSmoothEstimator.density_body.
  destruct (is_fixed a c); [reflexivity |]. cbv zeta.
  unfold ClassicSmoothEstimator.density_nearby. repeat length_step.
Qed.

Lemma length_classic_div_curl_body (h_ab R : Num) (a : nat) (c : Cloud Num) :
  length (ClassicSmoothEstimator.div_curl_body K h_ab R a c) = length c.
Proof.
  unfold ClassicSmoothEstimator.div_curl_body,
    ClassicSmoothEstimator.div_curl_nearby. cbv zeta. repeat length_step.
Qed.

Lemma length_gradh_div_curl_body (a : nat) (c : Cloud Num) :
  length (GradHSmoothEstimator.div_curl_body K a c) = length c.
Proof.
  unfold GradHSmoothEstimator.div_curl_body,
    GradHSmoothEstimator.div_curl_nearby. cbv zeta. repeat length_step.
Qed.

(** X18.  [estimate_forces], of either estimator, keeps the number
    of particles and, of every particle, the [fixed] flag and every variable
    other than [dv_dt], [deps_dt] and [dalpha_dt]. *)
Theorem estimate_forces_frame (h_ab : Num) (c : Cloud Num) (a : nat) :
  let classic := ClassicSmoothEstimator.estimate_forces K h_ab c in
  let gradh := GradHSmoothEstimator.estimate_forces K c in
  (length classic = length c /\
   keeps a not_forces_scalar not_forces_vector c classic) /\
  (length gradh = length c /\
   keeps a not_forces_scalar not_forces_vector c gradh).
Proof.
  cbv zeta. split; split.
  - apply length_for_each. intros b c'. apply length_classic_forces_body.
  - unfold ClassicSmoothEstimator.estimate_forces. cbv zeta.
    apply keeps_for_each; [apply keeps_refl |]. intros b c' Hk.
    unfold ClassicSmoothEstimator.forces_body.
    destruct (is_fixed b c'); [exact Hk |].
    unfold ClassicSmoothEstimator.forces_pairwise,
      ClassicSmoothEstimator.forces_nearby. cbv zeta. repeat keeps_step.
  - apply length_for_each. intros b c'. apply length_gradh_forces_body.
  - unfold GradHSmoothEstimator.estimate_forces.
    apply keeps_for_each; [apply keeps_refl |]. intros b c' Hk.
    unfold GradHSmoothEstimator.forces_body.
    destruct (is_fixed b c'); [exact Hk |].
    unfold GradHSmoothEstimator.forces_pairwise,
      GradHSmoothEstimator.forces_nearby. cbv zeta. repeat keeps_step.
Qed.

(** X17.  [estimate_density], of either estimator, keeps the number
    of particles and, of every particle, the [fixed] flag and every variable
    other than [h], [Omega], [rho], [p], [cs], [div_v] and [curl_v]: masses,
    positions and velocities are never written. *)
Theorem estimate_density_frame (h_ab eta : Num) (c : Cloud Num) (a : nat) :
  let classic := ClassicSmoothEstimator.estimate_density K h_ab c in
  let gradh := GradHSmoothEstimator.estimate_density K eta c in
  (length classic = length c /\
   keeps a not_density_scalar not_density_vector c classic) /\
  (length gradh = length c /\
   keeps a not_density_scalar not_density_vector c gradh).
Proof.
  cbv zeta. split; split.
  - unfold ClassicSmoothEstimator.estimate_density. cbv zeta.
    rewrite length_for_each
      by (intros b c'; apply length_classic_div_curl_body).
    apply length_for_each. intros b c'. apply length_classic_density_body.
  - unfold ClassicSmoothEstimator.estimate_density. cbv zeta.
    apply keeps_for_each; [apply keeps_for_each; [apply keeps_refl |] |];
      intros b c' Hk.
    + unfold ClassicSmoothEstimator.density_body.
      destruct (is_fixed b c'); [exact Hk |]. cbv zeta.
      unfold ClassicSmoothEstimator.density_nearby. repeat keeps_step.
    + unfold ClassicSmoothEstimator.div_curl_body,
        ClassicSmoothEstimator.div_curl_nearby. cbv zeta. repeat keeps_step.
  - unfold GradHSmoothEstimator.estimate_density. cbv zeta.
    rewrite length_for_each
      by (intros b c'; apply length_gradh_div_curl_body).
    apply length_for_each. intros b c'. apply length_gradh_density_body.
  - unfold GradHSmoothEstimator.estimate_density. cbv zeta.
    apply keeps_for_each; [apply keeps_for_each; [apply keeps_refl |] |];
      intros b c' Hk.
    + unfold GradHSmoothEstimator.density_body.
      destruct (is_fixed b c'); [exact Hk |]. cbv zeta.
      unfold GradHSmoothEstimator.density_finish,
        GradHSmoothEstimator.width_solve. cbv zeta.
      do 2 (apply keeps_sset; [keeps_side |]).
      apply keeps_newton_raphson; [exact Hk | |].
      * intros s' Hs'. unfold GradHSmoothEstimator.width_residual,
          GradHSmoothEstimator.width_nearby. cbv zeta. cbn [snd].
        repeat keeps_step.
      * intros val s' Hs'. repeat keeps_step.
    + unfold GradHSmoothEstimator.div_curl_body,
        GradHSmoothEstimator.div_curl_nearby. cbv zeta. repeat keeps_step.
Qed.

End Frames.

Section Particles.
Context {Num : Type} {number : Number Num}.

Lemma sget_sset_eq (x : PV.scalar) (a : nat) (val : Num) (c : Cloud Num) :
  (a < length c)%nat -> sget x a (sset x a val c) = val.
Proof.
  intros Ha. unfold sget. rewrite lookup_sset_eq by exact Ha.
  cbn. destruct (decide (x = x)); [reflexivity | contradiction].
Qed.

Lemma sget_sset_other (x y : PV.scalar) (a b : nat) (val : Num)
  (c : Cloud Num) :
  x <> y \/ a <> b -> sget x a (sset y b val c) = sget x a c.
Proof.
  intros Hne. unfold sget. rewrite lookup_sset.
  destruct (decide (b = a /\ (b < length c)%nat)) as [[-> _]|_];
    [| reflexivity].
  cbn. destruct (decide (x = y)) as [->|_]; [| reflexivity].
  destruct Hne as [Hne|Hne]; contradiction.
Qed.

Lemma lookup_sset_other (x : PV.scalar) (a b : nat) (val : Num)
  (c : Cloud Num) :
  a <> b -> sset x a val c !!! b = c !!! b.
Proof.
  intros Hne. rewrite lookup_sset.
  destruct (decide (a = b /\ (a < length c)%nat)) as [[E _]|_];
    [contradiction | reflexivity].
Qed.

Lemma is_fixed_sset (x : PV.scalar) (a b : nat) (val : Num) (c : Cloud Num) :
  is_fixed a (sset x b val c) = is_fixed a c.
Proof.
  unfold is_fixed. rewrite lookup_sset.
  destruct (decide (b = a /\ (b < length c)%nat)) as [[-> _]|_]; reflexivity.
Qed.

(** What the iterations of [for_each] for the other particles preserve is
    preserved up to, and after, the iteration for [a]. *)
Lemma for_each_before_other (P : Cloud Num -> Prop)
  (body : nat -> Cloud Num -> Cloud Num) (a : nat) (c : Cloud Num) :
  P c ->
  (forall b c', b <> a -> P c' -> P (body b c')) ->
  P (for_each_before body a c).
Proof.
  intros Hc Hother. unfold for_each_before.
  assert (Hseq : forall b, b ∈ seq 0 a -> b <> a)
    by (intros b Hb; apply elem_of_seq in Hb; lia).
  revert Hseq c Hc. generalize (seq 0 a). intros l.
  induction l as [|b l IH]; intros Hl c Hc; [exact Hc |].
  simpl. apply IH; [intros b' Hb'; apply Hl; right; exact Hb' |].
  apply Hother; [apply Hl; left | exact Hc].
Qed.

Lemma for_each_after_other (P : Cloud Num -> Prop)
  (body : nat -> Cloud Num -> Cloud Num) (a : nat) (c : Cloud Num) :
  (a < length c)%nat ->
  P (body a (for_each_before body a c)) ->
  (forall b c', b <> a -> P c' -> P (body b c')) ->
  P (for_each body c).
Proof.
  intros Ha Hc Hother. rewrite (for_each_at body a c Ha).
  assert (Hseq : forall b, b ∈ seq (S a) (length c - S a) -> b <> a)
    by (intros b Hb; apply elem_of_seq in Hb; lia).
  revert Hseq. generalize (seq (S a) (length c - S a)). intros l.
  revert Hc. generalize (body a (for_each_before body a c)).
  induction l as [|b l IH]; intros c' Hc' Hl; [exact Hc' |].
  simpl. apply IH; [| intros b' Hb'; apply Hl; right; exact Hb'].
  apply Hother; [apply Hl; left | exact Hc'].
Qed.

End Particles.

Section Init.
Context {Num : Type} {number : Number Num} {eos : EquationOfState Num}.

Lemma length_classic_init_body (h_ab : Num) (a : nat) (c : Cloud Num) :
  length (ClassicSmoothEstimator.init_body h_ab a c) = length c.
Proof.
  unfold ClassicSmoothEstimator.init_body.
  destruct (negb (is_fixed a c)); [reflexivity |]. cbv zeta.
  rewrite !length_sset. reflexivity.
Qed.

Lemma classic_init_body_other (h_ab : Num) (a b : nat) (c : Cloud Num) :
  b <> a -> ClassicSmoothEstimator.init_body h_ab b c !!! a = c !!! a.
Proof.
  intros Hne. unfold ClassicSmoothEstimator.init_body.
  destruct (negb (is_fixed b c)); [reflexivity |]. cbv zeta.
  rewrite !lookup_sset_other by exact Hne. reflexivity.
Qed.

Lemma length_gradh_init_body (real_pow : Num -> Num -> Num) (eta : Num)
  (a : nat) (c : Cloud Num) :
  length (GradHSmoothEstimator.init_body real_pow eta a c) = length c.
Proof.
  unfold GradHSmoothEstimator.init_body.
  destruct (negb (is_fixed a c)); [reflexivity |]. cbv zeta.
  rewrite !length_sset. reflexivity.
Qed.

Lemma gradh_init_body_other (real_pow : Num -> Num -> Num) (eta : Num)
  (a b : nat) (c : Cloud Num) :
  b <> a -> GradHSmoothEstimator.init_body real_pow eta b c !!! a = c !!! a.
Proof.
  intros Hne. unfold GradHSmoothEstimator.init_body.
  destruct (negb (is_fixed b c)); [reflexivity |]. cbv zeta.
  rewrite !lookup_sset_other by exact Hne. reflexivity.
Qed.

Lemma length_classic_init (h_ab : Num) (c : Cloud Num) :
  length (ClassicSmoothEstimator.init h_ab c) = length c.
Proof.
  unfold ClassicSmoothEstimator.init. cbv zeta.
  apply (for_each_invariant (fun c' => length c' = length c));
    [reflexivity |].
  intros b c' Hc'. rewrite length_classic_init_body. exact Hc'.
Qed.

Lemma classic_init_lookup (h_ab : Num) (c : Cloud Num) (a : nat) :
  (a < length c)%nat ->
  ClassicSmoothEstimator.init h_ab c !!! a =
    if is_fixed a c
    then with_scalar PV.cs
           (sound_speed
              (with_scalar PV.p (pressure (with_scalar PV.h h_ab (c !!! a)))
                 (with_scalar PV.h h_ab (c !!! a))))
           (with_scalar PV.p (pressure (with_scalar PV.h h_ab (c !!! a)))
              (with_scalar PV.h h_ab (c !!! a)))
    else c !!! a.
Proof.
  intros Ha. unfold ClassicSmoothEstimator.init. cbv zeta.
  set (body := ClassicSmoothEstimator.init_body h_ab).
  set (before := for_each_before body a c).
  assert (Hb : before !!! a = c !!! a).
  { apply (for_each_before_other (fun c' => c' !!! a = c !!! a));
      [reflexivity |].
    intros b c' Hne Hc'. unfold body.
    rewrite classic_init_body_other by exact Hne. exact Hc'. }
  assert (Hl : length before = length c).
  { apply length_for_each_before. intros b c'.
    apply length_classic_init_body. }
  match goal with
  | |- _ = ?rhs =>
      apply (for_each_after_other (fun c' => c' !!! a = rhs) body a c);
        [exact Ha | |]
  end.
  - fold before. unfold body, ClassicSmoothEstimator.init_body.
    assert (Hf : is_fixed a before = is_fixed a c)
      by (unfold is_fixed; rewrite Hb; reflexivity).
    rewrite Hf. destruct (is_fixed a c); cbn [negb]; [| exact Hb].
    cbv zeta.
    rewrite !lookup_sset_eq by (rewrite ?length_sset; lia).
    rewrite Hb. reflexivity.
  - intros b c' Hne Hc'. unfold body.
    rewrite classic_init_body_other by exact Hne. exact Hc'.
Qed.

(** X15.  [ClassicSmoothEstimator::init] keeps the number of
    particles and every particle that is not fixed; of a fixed particle it
    sets [h] to the kernel width, then [p] and [cs] from the equation of
    state, and nothing else. *)
Theorem classic_init_particle (h_ab : Num) (c : Cloud Num) (a : nat) :
  (a < length c)%nat ->
  let after := ClassicSmoothEstimator.init h_ab c in
  let P1 := with_scalar PV.h h_ab (c !!! a) in
  let P2 := with_scalar PV.p (pressure P1) P1 in
  length after = length c /\
  after !!! a =
    if is_fixed a c then with_scalar PV.cs (sound_speed P2) P2 else c !!! a.
Proof.
  intros Ha. cbv zeta. split.
  - apply length_classic_init.
  - apply classic_init_lookup. exact Ha.
Qed.

(** X16.  [GradHSmoothEstimator::init] keeps the number of particles
    and every particle that is not fixed; of a fixed particle it sets [h] to
    [eta * pow(rho / m, -inverse(1.0 * d))], [Omega] to 1, then [p] and [cs]
    from the equation of state, and nothing else. *)
Theorem gradh_init_particle (real_pow : Num -> Num -> Num) (eta : Num)
  (c : Cloud Num) (a : nat) :
  (a < length c)%nat ->
  let after := GradHSmoothEstimator.init eta real_pow c in
  let d := dim (vget PV.r a c) in
  let h_a :=
    num_mul eta
      (real_pow (num_div (sget PV.rho a c) (sget PV.m a c))
         (num_opp (inverse (num_mul (lit 1.0) (num_of_Z (Z.of_nat d)))))) in
  let P1 := with_scalar PV.Omega (lit 1.0) (with_scalar PV.h h_a (c !!! a)) in
  let P2 := with_scalar PV.p (pressure P1) P1 in
  length after = length c /\
  after !!! a =
    if is_fixed a c then with_scalar PV.cs (sound_speed P2) P2 else c !!! a.
Proof.
  intros Ha. cbv zeta. unfold GradHSmoothEstimator.init. cbv zeta. split.
  { apply (for_each_invariant (fun c' => length c' = length c));
      [reflexivity |].
    intros b c' Hc'. rewrite length_gradh_init_body. exact Hc'. }
  set (body := GradHSmoothEstimator.init_body real_pow eta).
  set (before := for_each_before body a c).
  assert (Hb : before !!! a = c !!! a).
  { apply (for_each_before_other (fun c' => c' !!! a = c !!! a));
      [reflexivity |].
    intros b c' Hne Hc'. unfold body.
    rewrite gradh_init_body_other by exact Hne. exact Hc'. }
  assert (Hl : length before = length c).
  { apply length_for_each_before. intros b c'.
    apply length_gradh_init_body. }
  match goal with
  | |- _ = ?rhs =>
      apply (for_each_after_other (fun c' => c' !!! a = rhs) body a c);
        [exact Ha | |]
  end.
  - fold before. unfold body, GradHSmoothEstimator.init_body.
    assert (Hf : is_fixed a before = is_fixed a c)
      by (unfold is_fixed; rewrite Hb; reflexivity).
    rewrite Hf. destruct (is_fixed a c); cbn [negb]; [| exact Hb].
    cbv zeta.
    rewrite !lookup_sset_eq by (rewrite ?length_sset; lia).
    unfold sget, vget. rewrite Hb. reflexivity.
  - intros b c' Hne Hc'. unfold body.
    rewrite gradh_init_body_other by exact Hne. exact Hc'.
Qed.

End Init.

Section ClassicDensity.
Context {Num : Type} {number : Number Num} {vec_ops : VecOps Num}
  {eos : EquationOfState Num} {cloud : ParticleCloud Num}.
Variable K : Kernel Num.
Variable h_ab : Num.

Lemma density_nearby_fold (c : Cloud Num) (a : nat) (l : list nat) :
  forall (c' : Cloud Num) (acc : Num),
    (a < length c')%nat ->
    (forall b, sget PV.m b c' = sget PV.m b c) ->
    (forall b, vget PV.r b c' = vget PV.r b c) ->
    sget PV.rho a c' = acc ->
    sget PV.rho a
      (fold_left
         (fun c'' b => ClassicSmoothEstimator.density_nearby K h_ab a b c'') l c')
    = fold_left
        (fun acc b =>
           num_add acc
             (num_mul (sget PV.m b c)
                (SmoothingKernel.value K (vget2 PV.r a b c) h_ab)))
        l acc.
Proof.
  induction l as [|b l IH]; intros c' acc Ha Hm Hr Hacc; [exact Hacc |].
  cbn [fold_left]. apply IH.
  - unfold ClassicSmoothEstimator.density_nearby. rewrite length_sset. exact Ha.
  - intros b'. unfold ClassicSmoothEstimator.density_nearby.
    rewrite sget_sset_other by (left; discriminate). apply Hm.
  - intros b'. unfold ClassicSmoothEstimator.density_nearby.
    rewrite vget_sset. apply Hr.
  - unfold ClassicSmoothEstimator.density_nearby.
    rewrite sget_sset_eq by exact Ha.
    rewrite Hacc, Hm. unfold vget2. rewrite !Hr. reflexivity.
Qed.

Lemma classic_density_pass_h (c : Cloud Num) (a : nat) :
  (a < length c)%nat ->
  is_fixed a c = false ->
  sget PV.h a (ClassicSmoothEstimator.estimate_density K h_ab c) = h_ab.
Proof.
  intros Ha Hfree. unfold ClassicSmoothEstimator.estimate_density. cbv zeta.
  set (R := SmoothingKernel.radius K h_ab).
  set (body := ClassicSmoothEstimator.density_body K h_ab R).
  assert (Hdc :
    keeps a not_div_v not_curl_v (for_each body c)
      (for_each (ClassicSmoothEstimator.div_curl_body K h_ab R)
         (for_each body c))).
  { apply keeps_for_each; [apply keeps_refl |]. intros b c'.
    apply classic_div_curl_body_keeps. }
  rewrite (keeps_sget _ _ _ _ _ _ Hdc) by reflexivity.
  destruct (for_each_own a every_scalar every_vector body c Ha) as [Hbefore Hafter].
  { intros b c1 c2 Hne. apply classic_density_body_other. exact Hne. }
  rewrite (keeps_sget _ _ _ _ _ _ Hafter) by reflexivity.
  set (before := for_each_before body a c) in *.
  assert (Hl : length before = length c).
  { apply length_for_each_before. intros b c'.
    apply length_classic_density_body. }
  unfold body, ClassicSmoothEstimator.density_body.
  rewrite (keeps_is_fixed _ _ _ _ _ Hbefore), Hfree. cbv zeta.
  rewrite !sget_sset_other by (left; discriminate).
  set (c1 := sset PV.h a h_ab before).
  assert (H1 : sget PV.h a (sset PV.rho a num_0 c1) = h_ab).
  { rewrite sget_sset_other by (left; discriminate).
    apply sget_sset_eq. lia. }
  revert H1. generalize (sset PV.rho a num_0 c1). intros c2 H2.
  apply (for_nearby_invariant (fun c' => sget PV.h a c' = h_ab)); [exact H2 |].
  intros b c' Hc'. unfold ClassicSmoothEstimator.density_nearby.
  rewrite sget_sset_other by (left; discriminate). exact Hc'.
Qed.

Hypothesis nearby_by_position :
  forall (c1 c2 : Cloud Num) (a : nat) (R : Num),
    length c1 = length c2 ->
    (forall b, vget PV.r b c1 = vget PV.r b c2) ->
    nearby c1 a R = nearby c2 a R.

(** X19.  After [estimate_density] of the fixed-width
    estimator, a particle [a] that is not fixed has the kernel width as [h]
    and, as [rho], the sum of [m[b] * W(r[a] - r[b], h)] over its neighbours
    [b], with masses, positions and neighbours as they were on entry: the
    iterations for the other particles do not enter it.  The neighbour query
    is assumed to depend on the positions only. *)
Theorem classic_density_is_kernel_sum (c : Cloud Num) (a : nat) :
  (a < length c)%nat ->
  is_fixed a c = false ->
  let after := ClassicSmoothEstimator.estimate_density K h_ab c in
  sget PV.h a after = h_ab /\
  sget PV.rho a after =
    kernel_sum K h_ab c a (nearby c a (SmoothingKernel.radius K h_ab)).
Proof.
  intros Ha Hfree. cbv zeta. split; [apply classic_density_pass_h; assumption |].
  unfold ClassicSmoothEstimator.estimate_density. cbv zeta.
  set (R := SmoothingKernel.radius K h_ab).
  set (body := ClassicSmoothEstimator.density_body K h_ab R).
  assert (Hdc :
    keeps a not_div_v not_curl_v (for_each body c)
      (for_each (ClassicSmoothEstimator.div_curl_body K h_ab R)
         (for_each body c))).
  { apply keeps_for_each; [apply keeps_refl |]. intros b c'.
    apply classic_div_curl_body_keeps. }
  rewrite (keeps_sget _ _ _ _ _ _ Hdc) by reflexivity.
  destruct (for_each_own a every_scalar every_vector body c Ha) as [Hbefore Hafter].
  { intros b c1 c2 Hne. apply classic_density_body_other. exact Hne. }
  rewrite (keeps_sget _ _ _ _ _ _ Hafter) by reflexivity.
  set (before := for_each_before body a c) in *.
  assert (Hl : length before = length c).
  { apply length_for_each_before. intros b c'.
    apply length_classic_density_body. }
  assert (Hframe : forall b,
            keeps b not_density_scalar not_density_vector c before).
  { intros b. unfold before, for_each_before.
    apply (fold_left_invariant
             (fun c' => keeps b not_density_scalar not_density_vector c c')).
    - apply keeps_refl.
    - intros b' c' Hk. unfold body, ClassicSmoothEstimator.density_body.
      destruct (is_fixed b' c'); [exact Hk |]. cbv zeta.
      unfold ClassicSmoothEstimator.density_nearby. repeat keeps_step. }
  unfold body, ClassicSmoothEstimator.density_body.
  rewrite (keeps_is_fixed _ _ _ _ _ Hbefore), Hfree. cbv zeta.
  rewrite !sget_sset_other by (left; discriminate).
  set (c2 := sset PV.rho a num_0 (sset PV.h a h_ab before)).
  assert (Hl2 : length c2 = length c)
    by (unfold c2; rewrite !length_sset; exact Hl).
  assert (Hm : forall b, sget PV.m b c2 = sget PV.m b c).
  { intros b. unfold c2. rewrite !sget_sset_other by (left; discriminate).
    apply (keeps_sget _ _ _ _ _ _ (Hframe b)). reflexivity. }
  assert (Hr : forall b, vget PV.r b c2 = vget PV.r b c).
  { intros b. unfold c2. rewrite !vget_sset.
    apply (keeps_vget _ _ _ _ _ _ (Hframe b)). reflexivity. }
  unfold for_nearby. rewrite (nearby_by_position c2 c a R Hl2 Hr).
  unfold kernel_sum. apply density_nearby_fold.
  - lia.
  - exact Hm.
  - exact Hr.
  - unfold c2. apply sget_sset_eq. rewrite length_sset. lia.
Qed.

End ClassicDensity.

Section ClassicWidth.
Context {Num : Type} {number : Number Num} {vec_ops : VecOps Num}
  {eos : EquationOfState Num} {cloud : ParticleCloud Num}.
Variable K : Kernel Num.
Variable h_ab : Num.

(** X20.  After [init] and then [estimate_density] of the
    fixed-width estimator every particle, fixed or not, has the kernel width
    as [h]. *)
Theorem classic_width_uniform (c : Cloud Num) (a : nat) :
  (a < length c)%nat ->
  sget PV.h a
    (ClassicSmoothEstimator.estimate_density K h_ab
       (ClassicSmoothEstimator.init h_ab c)) = h_ab.
Proof.
  intros Ha.
  pose proof (length_classic_init h_ab c) as Hl.
  pose proof (classic_init_lookup h_ab c a Ha) as Hp.
  set (c1 := ClassicSmoothEstimator.init h_ab c) in *.
  destruct (is_fixed a c) eqn:Hfixed.
  - assert (Hf1 : is_fixed a c1 = true).
    { unfold is_fixed. rewrite Hp. exact Hfixed. }
    assert (Hk : keeps a not_div_v not_curl_v c1
                   (ClassicSmoothEstimator.estimate_density K h_ab c1)).
    { unfold ClassicSmoothEstimator.estimate_density. cbv zeta.
      apply keeps_for_each.
      - apply keeps_for_each; [apply keeps_refl |].
        intros b c'. apply classic_density_body_keeps, Hf1.
      - intros b c'. apply classic_div_curl_body_keeps. }
    rewrite (keeps_sget _ _ _ _ _ _ Hk) by reflexivity.
    unfold sget. rewrite Hp. reflexivity.
  - apply classic_density_pass_h; [lia |].
    unfold is_fixed. rewrite Hp. exact Hfixed.
Qed.

End ClassicWidth.

Section ClassicMomentum.
Context {vec_ops : VecOps Q} {viscosity : ArtificialViscosity Q}
  {cloud : ParticleCloud Q}.
Variable K : Kernel Q.
Variable h_ab : Q.
Hypothesis norm_vopp : forall a : Vec Q, norm (vopp a) = norm a.

(** X21.  In the force loop of the fixed-width estimator the
    neighbour [b] takes from [dv_dt[a]] the vector
    [m[b] * (p[a]/rho[a]^2 + p[b]/rho[b]^2 + Pi_ab) * grad_ab]; with a
    viscosity term that is symmetric in the pair, [m[a]] times what [b]
    takes from [a] is the opposite of [m[b]] times what [a] takes from [b]:
    the pair exchanges no net momentum. *)
Theorem classic_pair_momentum (a b : nat) (c : Cloud Q) :
  (a < length c)%nat ->
  kinematic (c !!! b) (c !!! a) = kinematic (c !!! a) (c !!! b) ->
  vget PV.dv_dt a (ClassicSmoothEstimator.forces_nearby K h_ab a b c)
    = vsub (vget PV.dv_dt a c) (classic_pair_force K h_ab a b c) /\
  vscale (sget PV.m a c) (classic_pair_force K h_ab a b c)
    = vopp (vscale (sget PV.m b c) (classic_pair_force K h_ab b a c)).
Proof.
  intros Ha Hsym. split.
  - unfold ClassicSmoothEstimator.forces_nearby. cbv zeta.
    assert (E : forall flag stmt c',
              (forall c'', vget PV.dv_dt a (stmt c'') = vget PV.dv_dt a c'') ->
              vget PV.dv_dt a (when flag stmt c') = vget PV.dv_dt a c').
    { intros flag stmt c' Hstmt. unfold when. destruct flag; [apply Hstmt | reflexivity]. }
    rewrite E by (intros c''; apply vget_sset).
    rewrite vget_vset_eq by exact Ha. reflexivity.
  - unfold classic_pair_force. rewrite Hsym.
    unfold vget2. rewrite (vsub_swap (vget PV.r b c) (vget PV.r a c)).
    rewrite (grad_vopp K norm_vopp).
    set (g := SmoothingKernel.grad K _ h_ab).
    set (Pi := kinematic _ _).
    unfold vscale, vopp. rewrite !map_map. apply map_ext. intros x.
    unfold pow2. q_ops. apply Qred_complete. rewrite !Qred_correct. ring.
Qed.

End ClassicMomentum.

(** *** Range adaptors *)
Section ViewsFacts.
Context {A : Type}.
Local Open Scope N_scope.

Lemma divide_up_spec (a b : N) :
  0 < b -> a <= divide_up a b * b /\ (0 < a -> (divide_up a b - 1) * b < a).
Proof.
  intros Hb. unfold divide_up.
  pose proof (N.div_mod a b ltac:(lia)) as Hdm.
  pose proof (N.mod_lt a b ltac:(lia)) as Hlt.
  set (q := a / b) in *. set (m := a mod b) in *. clearbody q m.
  destruct (N.eqb_spec m 0) as [E|E]; split.
  - nia.
  - intros Ha. assert (0 < q) by nia. nia.
  - nia.
  - intros Ha. nia.
Qed.

Lemma concat_chunks (range : list A) (chunk_size : N) (k : nat) :
  0 < chunk_size ->
  N.of_nat k * chunk_size < 2 ^ 64 ->
  concat
    (map (fun chunk_index =>
            views.subrange range
              (N.min (views.size range)
                 ((chunk_index * chunk_size) mod 2 ^ 64))
              (N.min (views.size range)
                 (((chunk_index + 1) * chunk_size) mod 2 ^ 64)))
         (map N.of_nat (seq 0 k)))
  = take (N.to_nat (N.min (views.size range) (N.of_nat k * chunk_size))) range.
Proof.
  intros Hcs. induction k as [|k IH]; intros Hk.
  - simpl. rewrite N.min_0_r. reflexivity.
  - rewrite seq_S, !map_app, concat_app, IH by lia. cbn [map concat plus].
    rewrite app_nil_r.
    rewrite !N.mod_small by lia.
    replace (N.of_nat k + 1) with (N.of_nat (S k)) by lia.
    unfold views.subrange.
    set (sz := views.size range).
    set (f := N.min sz (N.of_nat k * chunk_size)).
    set (l := N.min sz (N.of_nat (S k) * chunk_size)).
    assert (Hfl : f <= l) by (unfold f, l; nia).
    rewrite take_take_drop. f_equal. lia.
Qed.

End ViewsFacts.

Section ChunkFacts.
Context {A : Type}.
Local Open Scope N_scope.

(** X23.  [chunk(range, chunk_size)], for a chunk size above 0: the
    chunks concatenated are the range; there are [divide_up(size, chunk_size)]
    of them; none is empty, none is longer than [chunk_size], and every chunk
    but the last has [chunk_size] elements. *)
Theorem chunk_partition (range : list A) (chunk_size : N) :
  0 < chunk_size ->
  views.size range + chunk_size <= 2 ^ 64 ->
  let chunks := views.chunk range chunk_size in
  concat chunks = range /\
  N.of_nat (length chunks) = divide_up (views.size range) chunk_size /\
  (forall (i : nat) (c : list A),
     chunks !! i = Some c ->
     c <> [] /\
     N.of_nat (length c) <= chunk_size /\
     ((S i < length chunks)%nat -> N.of_nat (length c) = chunk_size)).
Proof.
  intros Hcs Hfit. cbv zeta. unfold views.chunk. cbv zeta.
  set (sz := views.size range) in *.
  set (n := divide_up sz chunk_size).
  destruct (divide_up_spec sz chunk_size Hcs) as [Hup Hlow]. fold n in Hup, Hlow.
  assert (Hn : n * chunk_size < sz + chunk_size).
  { destruct (N.eq_dec sz 0) as [E|E].
    - assert (n = 0); [| nia]. unfold n, divide_up. rewrite E.
      rewrite N.Div0.div_0_l, N.Div0.mod_0_l by lia. reflexivity.
    - specialize (Hlow ltac:(lia)). nia. }
  unfold views.iota. rewrite N.sub_0_r. change (N.to_nat 0) with 0%nat.
  split; [| split].
  - subst sz. rewrite concat_chunks by (rewrite ?N2Nat.id; lia).
    rewrite N2Nat.id. set (sz := views.size range) in *.
    rewrite N.min_l by lia.
    unfold sz, views.size. rewrite Nat2N.id. apply take_ge. lia.
  - rewrite !length_map, length_seq. apply N2Nat.id.
  - intros i c Hc. rewrite !length_map, length_seq.
    rewrite !list_lookup_fmap in Hc.
    destruct (seq 0 (N.to_nat n) !! i) as [j|] eqn:Hj; [| discriminate].
    apply lookup_seq in Hj as [-> Hi]. cbn in Hc.
    injection Hc as <-.
    assert (Hin : N.of_nat i + 1 <= n) by lia.
    assert (Hi1 : N.of_nat i * chunk_size < sz).
    { destruct (N.eq_dec sz 0) as [E|E].
      - assert (n = 0); [| lia]. unfold n, divide_up. rewrite E.
        rewrite N.Div0.div_0_l, N.Div0.mod_0_l by lia. reflexivity.
      - specialize (Hlow ltac:(lia)). nia. }
    rewrite !N.mod_small by nia.
    rewrite (N.min_r sz (N.of_nat i * chunk_size)) by lia.
    unfold views.subrange.
    assert (Hlen : length range = N.to_nat sz)
      by (unfold sz, views.size; rewrite Nat2N.id; reflexivity).
    split; [| split].
    + intros E. apply (f_equal length) in E.
      rewrite length_take, length_drop in E. simpl in E. lia.
    + rewrite length_take, length_drop. lia.
    + intros Hnext. rewrite length_take, length_drop.
      assert ((N.of_nat i + 1) * chunk_size < sz).
      { destruct (N.eq_dec sz 0) as [E|E]; [lia |].
        specialize (Hlow ltac:(lia)). nia. }
      lia.
Qed.

End ChunkFacts.

Section EnumerateFacts.
Context {A : Type}.
Local Open Scope N_scope.

(** X24.  [enumerate(range)] pairs every element of the range with its
    index, in order; no access is past the end. *)
Theorem enumerate_indexed (range : list A) :
  views.enumerate range = imap (fun i x => (N.of_nat i, Some x)) range.
Proof.
  unfold views.enumerate, views.iota, views.size.
  rewrite N.sub_0_r, Nat2N.id. change (N.to_nat 0) with 0%nat.
  apply list_eq. intros i.
  rewrite !list_lookup_fmap, list_lookup_imap.
  destruct (range !! i) as [x|] eqn:Hx.
  - rewrite lookup_seq_lt by (apply lookup_lt_Some in Hx; exact Hx).
    cbn. unfold views.at_index. rewrite Nat2N.id, Hx. reflexivity.
  - rewrite lookup_seq_ge by (apply lookup_ge_None in Hx; lia).
    reflexivity.
Qed.

End EnumerateFacts.

Section AdjacentFacts.
Context {A B : Type}.
Local Open Scope N_scope.

(** X25.  [adjacent_transform<2>(range, func)] on a range that is
    not empty has [size - 1] elements, [func] of each element and the next,
    every access within the range.  On the empty range [size - 1] wraps
    around: the view has 2^64 - 1 elements and every access is past the
    end. *)
Theorem adjacent_transform_view (range : list A) (func : A -> A -> B) :
  views.size range < 2 ^ 64 ->
  (range <> [] ->
   views.adjacent_transform_size range = views.size range - 1 /\
   forall i, i < views.adjacent_transform_size range ->
     exists x y,
       range !! N.to_nat i = Some x /\
       range !! S (N.to_nat i) = Some y /\
       views.adjacent_transform_at range func i = Some (func x y)) /\
  (range = [] ->
   views.adjacent_transform_size range = 2 ^ 64 - 1 /\
   forall i, views.adjacent_transform_at range func i = None).
Proof.
  intros Hsize. unfold views.adjacent_transform_size. split.
  - intros Hne.
    assert (Hpos : 0 < views.size range).
    { unfold views.size. destruct range; [contradiction | simpl; lia]. }
    assert (E : (views.size range + 2 ^ 64 - 1) mod 2 ^ 64
                = views.size range - 1).
    { replace (views.size range + 2 ^ 64 - 1)
        with (views.size range - 1 + 1 * 2 ^ 64) by lia.
      rewrite N.Div0.mod_add. apply N.mod_small. lia. }
    rewrite E. split; [reflexivity |]. intros i Hi.
    unfold views.size in Hi, Hsize.
    destruct (lookup_lt_is_Some_2 range (N.to_nat i) ltac:(lia)) as [x Hx].
    destruct (lookup_lt_is_Some_2 range (S (N.to_nat i)) ltac:(lia)) as [y Hy].
    exists x, y. split; [exact Hx | split; [exact Hy |]].
    unfold views.adjacent_transform_at, views.at_index.
    rewrite N.mod_small by lia.
    replace (N.to_nat (i + 1)) with (S (N.to_nat i)) by lia.
    rewrite Hx, Hy. reflexivity.
  - intros ->. split; [reflexivity |]. intros i.
    unfold views.adjacent_transform_at, views.at_index.
    rewrite lookup_nil. reflexivity.
Qed.

End AdjacentFacts.

Section CartesianFacts.
Context {A : Type}.
Local Open Scope N_scope.

Lemma flat_size_mod (rest : list (list A)) :
  forall range : list A,
    views.flat_size (range :: rest) mod 2 ^ 64
    = size_product (range :: rest) mod 2 ^ 64.
Proof.
  induction rest as [|range' rest IH]; intros range.
  - cbn [views.flat_size size_product fold_right]. rewrite N.mul_1_r.
    reflexivity.
  - change (views.flat_size (range :: range' :: rest))
      with ((views.size range * views.flat_size (range' :: rest)) mod 2 ^ 64).
    change (size_product (range :: range' :: rest))
      with (views.size range * size_product (range' :: rest)).
    rewrite N.Div0.mod_mod.
    rewrite <- N.Div0.mul_mod_idemp_r, IH, N.Div0.mul_mod_idemp_r.
    reflexivity.
Qed.

Lemma flat_size_exact (ranges : list (list A)) :
  ranges <> [] ->
  size_product ranges < 2 ^ 64 ->
  views.flat_size ranges = size_product ranges.
Proof.
  intros Hne Hfit. destruct ranges as [|range rest]; [contradiction |].
  pose proof (flat_size_mod rest range) as E.
  rewrite (N.mod_small (size_product _)) in E by exact Hfit.
  rewrite <- E. symmetry. apply N.mod_small.
  destruct rest as [|range' rest].
  - cbn [views.flat_size size_product fold_right] in *. lia.
  - change (views.flat_size (range :: range' :: rest))
      with ((views.size range * views.flat_size (range' :: rest)) mod 2 ^ 64).
    apply N.mod_lt. lia.
Qed.

Lemma cartesian_fold_decode (rest : list (list A)) :
  forall i j : N,
    j < size_product rest ->
    fold_right views.cartesian_step ([], i * size_product rest + j) rest
    = (fst (fold_right views.cartesian_step ([], j) rest), i).
Proof.
  induction rest as [|w rest IH]; intros i j Hj.
  - cbn in *. f_equal. lia.
  - change (size_product (w :: rest))
      with (views.size w * size_product rest) in *.
    cbn [fold_right].
    set (Pr := size_product rest) in *.
    set (sw := views.size w) in *.
    assert (HPr : 0 < Pr).
    { destruct (N.eq_dec Pr 0) as [E|E]; [| lia].
      rewrite E, N.mul_0_r in Hj. lia. }
    assert (Hsw : 0 < sw).
    { destruct (N.eq_dec sw 0) as [E|E]; [| lia].
      rewrite E, N.mul_0_l in Hj. lia. }
    pose proof (N.div_mod j Pr ltac:(lia)) as Hdm.
    pose proof (N.mod_lt j Pr ltac:(lia)) as Hlt.
    set (j1 := j / Pr) in *. set (j2 := j mod Pr) in *.
    assert (Hj1 : j1 < sw) by nia.
    clearbody j1 j2. subst j.
    replace (i * (sw * Pr) + (Pr * j1 + j2)) with ((i * sw + j1) * Pr + j2)
      by nia.
    rewrite (IH (i * sw + j1) j2 Hlt).
    replace (Pr * j1 + j2) with (j1 * Pr + j2) by nia.
    rewrite (IH j1 j2 Hlt).
    unfold views.cartesian_step. cbv zeta. fold sw.
    cbn [fst].
    replace ((i * sw + j1) mod sw) with j1.
    2:{ rewrite N.add_comm, N.Div0.mod_add. symmetry. apply N.mod_small, Hj1. }
    replace ((i * sw + j1) / sw) with i.
    2:{ rewrite N.add_comm, N.div_add by lia.
        rewrite N.div_small by exact Hj1. reflexivity. }
    rewrite (N.mod_small j1 sw Hj1). reflexivity.
Qed.

Lemma iota_blocks (n Pr : N) :
  views.iota 0 (n * Pr)
  = flat_map (fun i => map (fun j => i * Pr + j) (views.iota 0 Pr))
             (views.iota 0 n).
Proof.
  unfold views.iota. rewrite !N.sub_0_r. change (N.to_nat 0) with 0%nat.
  rewrite N2Nat.inj_mul.
  induction (N.to_nat n) as [|k IH].
  - reflexivity.
  - rewrite seq_S, map_app, flat_map_app. cbn [map flat_map plus].
    rewrite app_nil_r, <- IH.
    replace (S k * N.to_nat Pr)%nat with (k * N.to_nat Pr + N.to_nat Pr)%nat
      by lia.
    rewrite seq_app, map_app. f_equal.
    rewrite map_map. cbn [plus].
    apply list_eq. intros x. rewrite !list_lookup_fmap.
    destruct (decide (x < N.to_nat Pr)%nat) as [Hx|Hx].
    + rewrite !lookup_seq_lt by lia. cbn. f_equal. lia.
    + rewrite !lookup_seq_ge by lia. reflexivity.
Qed.

Lemma cartesian_items (ranges : list (list A)) :
  map (views.cartesian_item ranges) (views.iota 0 (size_product ranges))
  = map (map Some) (tuples ranges).
Proof.
  induction ranges as [|v rest IH].
  - reflexivity.
  - change (size_product (v :: rest))
      with (views.size v * size_product rest).
    cbn [tuples].
    rewrite iota_blocks.
    set (Pr := size_product rest) in *.
    assert (Hv : views.iota 0 (views.size v)
                 = map N.of_nat (seq 0 (length v))).
    { unfold views.iota, views.size. rewrite N.sub_0_r, Nat2N.id. reflexivity. }
    rewrite Hv. clear Hv.
    assert (Hitem : forall (i : nat) (x : A) (j : N),
              v !! i = Some x -> j < Pr ->
              views.cartesian_item (v :: rest) (N.of_nat i * Pr + j)
              = Some x :: views.cartesian_item rest j).
    { intros i x j Hx Hj. unfold views.cartesian_item. cbn [fold_right].
      unfold Pr in *.
      rewrite (cartesian_fold_decode rest (N.of_nat i) j Hj).
      unfold views.cartesian_step at 1. cbn [fst].
      assert (Hi : N.of_nat i < views.size v).
      { unfold views.size. apply lookup_lt_Some in Hx. lia. }
      rewrite N.mod_small by exact Hi.
      unfold views.at_index. rewrite Nat2N.id, Hx. reflexivity. }
    assert (Hblock : forall (i : nat) (x : A),
              v !! i = Some x ->
              map (views.cartesian_item (v :: rest))
                  (map (fun j => N.of_nat i * Pr + j) (views.iota 0 Pr))
              = map (map Some) (map (cons x) (tuples rest))).
    { intros i x Hx.
      transitivity
        (map (cons (Some x))
             (map (views.cartesian_item rest) (views.iota 0 Pr))).
      - rewrite !map_map. apply map_ext_in. intros j Hj.
        apply Hitem; [exact Hx |].
        unfold views.iota in Hj. rewrite N.sub_0_r in Hj.
        apply in_map_iff in Hj as (k & <- & Hk). apply in_seq in Hk. lia.
      - rewrite IH, !map_map. reflexivity. }
    clear Hitem IH.
    rewrite flat_map_concat_map, !map_map.
    rewrite (flat_map_concat_map _ v).
    rewrite !concat_map, !map_map. f_equal.
    apply list_eq. intros i. rewrite !list_lookup_fmap.
    destruct (v !! i) as [x|] eqn:Hx.
    + rewrite lookup_seq_lt by (apply lookup_lt_Some in Hx; exact Hx).
      cbn. f_equal. apply (Hblock i x Hx).
    + rewrite lookup_seq_ge by (apply lookup_ge_None in Hx; lia).
      reflexivity.
Qed.

(** X26.  [cartesian_product(ranges...)] is the list of the tuples
    of the product, the first range varying slowest, when the product of the
    sizes fits [size_t]. *)
Theorem cartesian_product_tuples (ranges : list (list A)) :
  ranges <> [] ->
  size_product ranges < 2 ^ 64 ->
  views.cartesian_product ranges = map (map Some) (tuples ranges) /\
  N.of_nat (length (views.cartesian_product ranges)) = size_product ranges.
Proof.
  intros Hne Hfit. unfold views.cartesian_product.
  rewrite flat_size_exact by assumption. split.
  - apply cartesian_items.
  - rewrite length_map. unfold views.iota.
    rewrite length_map, length_seq, N.sub_0_r. apply N2Nat.id.
Qed.

End CartesianFacts.

(** *** Matrices and their inversion *)
Section MatrixFacts.
Local Open Scope Q_scope.
#[local] Existing Instance Num_inhabited.

Lemma shape_row {Num : Type} (n : nat) (a : list (list Num)) (i : nat) :
  shape n a -> (i < n)%nat -> length (a !!! i) = n.
Proof.
  intros [Hl Hr] Hi.
  apply (Forall_lookup_total_1 _ a i Hr). lia.
Qed.

Lemma shape_mat_set (n i j : nat) (v : Q) (a : list (list Q)) :
  shape n a -> shape n (mat_set i j v a).
Proof.
  intros [Hl Hr]. unfold mat_set, Mat, Vec in *.
  destruct (decide (i < length a)%nat) as [Hi | Hi].
  - split.
    + rewrite length_insert. exact Hl.
    + apply Forall_insert; [exact Hr |].
      pose proof (Forall_lookup_total_1 _ a i Hr Hi) as Hrow.
      change (length (<[j:=v]> (a !!! i)) = n).
      rewrite length_insert. exact Hrow.
  - rewrite list_insert_ge by lia. split; assumption.
Qed.

Lemma mat_get_set_eq (n i j : nat) (v : Q) (a : list (list Q)) :
  shape n a -> (i < n)%nat -> (j < n)%nat ->
  mat_get (mat_set i j v a) i j = v.
Proof.
  intros Ha Hi Hj. unfold mat_get, mat_set, Mat, Vec in *.
  destruct Ha as [Hl Hr].
  rewrite list_lookup_total_insert_eq by lia.
  apply list_lookup_total_insert_eq.
  pose proof (Forall_lookup_total_1 _ a i Hr) as Hrow.
  specialize (Hrow ltac:(lia)).
  change (length (a !!! i) = n) in Hrow. rewrite Hrow. lia.
Qed.

Lemma mat_get_set_ne (i j i' j' : nat) (v : Q) (a : list (list Q)) :
  (i <> i' \/ j <> j') ->
  mat_get (mat_set i j v a) i' j' = mat_get a i' j'.
Proof.
  intros Hne. unfold mat_get, mat_set, Mat, Vec in *.
  destruct (decide (i = i')) as [-> | Hi].
  - destruct (decide (i' < length a)%nat) as [Hl | Hl].
    + rewrite list_lookup_total_insert_eq by lia.
      apply list_lookup_total_insert_ne. destruct Hne; congruence.
    + rewrite list_insert_ge by lia. reflexivity.
  - rewrite list_lookup_total_insert_ne by exact Hi. reflexivity.
Qed.

Lemma mat_set_set (i j : nat) (v w : Q) (a : list (list Q)) :
  mat_set i j v (mat_set i j w a) = mat_set i j v a.
Proof.
  unfold mat_set, Mat, Vec in *.
  destruct (decide (i < length a)%nat) as [Hl | Hl].
  - rewrite list_lookup_total_insert_eq by lia.
    rewrite list_insert_insert_eq, list_insert_insert_eq. reflexivity.
  - rewrite !(list_insert_ge a) by lia. reflexivity.
Qed.

Lemma mat_set_get (i j : nat) (a : list (list Q)) :
  mat_set i j (mat_get a i j) a = a.
Proof.
  unfold mat_set, mat_get, Mat, Vec in *.
  apply list_insert_id'. intros Hi.
  rewrite list_lookup_alt. split; [exact Hi |].
  symmetry. apply list_insert_id'. intros Hj.
  rewrite list_lookup_alt. split; [exact Hj | reflexivity].
Qed.

Lemma fold_left_ext_In {A B : Type} (f g : A -> B -> A) (ks : list B) (a : A) :
  (forall a k, In k ks -> f a k = g a k) ->
  fold_left f ks a = fold_left g ks a.
Proof.
  revert a. induction ks as [| k ks IH]; intros a H; cbn; [reflexivity |].
  rewrite (H a k) by (left; reflexivity).
  apply IH. intros a' k' Hk'. apply H. right. exact Hk'.
Qed.

(** A loop that only accumulates into the entry [(i, j)], with terms that
    do not read that entry, is one assignment of the accumulated value. *)
Lemma accumulate_entry (term : list (list Q) -> nat -> Q) (n i j : nat)
  (ks : list nat) (m : list (list Q)) :
  shape n m -> (i < n)%nat -> (j < n)%nat ->
  (forall (v : Q) (m' : list (list Q)) (k : nat),
     In k ks -> term (mat_set i j v m') k = term m' k) ->
  fold_left (fun m k => mat_set i j (Qred (mat_get m i j - term m k)) m) ks m
  = mat_set i j
      (fold_left (fun acc k => Qred (acc - term m k)) ks (mat_get m i j)) m.
Proof.
  intros Hm Hi Hj. revert m Hm.
  induction ks as [| k ks IH]; intros m Hm Hterm; cbn [fold_left].
  - symmetry. apply mat_set_get.
  - rewrite IH.
    + rewrite (mat_get_set_eq n) by assumption.
      rewrite mat_set_set. f_equal.
      apply fold_left_ext_In. intros acc k' Hk'.
      rewrite Hterm by (right; exact Hk'). reflexivity.
    + apply shape_mat_set. exact Hm.
    + intros v m' k' Hk'. apply Hterm. right. exact Hk'.
Qed.

Lemma sumQ_cons (f : nat -> Q) (k : nat) (ks : list nat) :
  sumQ f (k :: ks) = f k + sumQ f ks.
Proof. reflexivity. Qed.

Lemma sumQ_nil (f : nat -> Q) : sumQ f [] = 0.
Proof. reflexivity. Qed.

Lemma sumQ_ext (f g : nat -> Q) (ks : list nat) :
  (forall k, In k ks -> f k == g k) -> sumQ f ks == sumQ g ks.
Proof.
  induction ks as [| k ks IH]; intros H; [reflexivity |].
  rewrite !sumQ_cons.
  rewrite (H k) by (left; reflexivity).
  rewrite IH; [reflexivity |]. intros k' Hk'. apply H. right. exact Hk'.
Qed.

Lemma sumQ_app (f : nat -> Q) (ks ls : list nat) :
  sumQ f (ks ++ ls) == sumQ f ks + sumQ f ls.
Proof.
  induction ks as [| k ks IH]; cbn [app].
  - rewrite sumQ_nil. ring.
  - rewrite !sumQ_cons, IH. ring.
Qed.

Lemma sumQ_zero (f : nat -> Q) (ks : list nat) :
  (forall k, In k ks -> f k == 0) -> sumQ f ks == 0.
Proof.
  induction ks as [| k ks IH]; intros H; [reflexivity |].
  rewrite sumQ_cons.
  rewrite (H k) by (left; reflexivity).
  rewrite IH; [ring |]. intros k' Hk'. apply H. right. exact Hk'.
Qed.

Lemma sumQ_scale (c : Q) (f : nat -> Q) (ks : list nat) :
  sumQ (fun k => c * f k) ks == c * sumQ f ks.
Proof.
  induction ks as [| k ks IH].
  - rewrite !sumQ_nil. ring.
  - rewrite !sumQ_cons, IH. ring.
Qed.

Lemma sumQ_add (f g : nat -> Q) (ks : list nat) :
  sumQ (fun k => f k + g k) ks == sumQ f ks + sumQ g ks.
Proof.
  induction ks as [| k ks IH].
  - rewrite !sumQ_nil. ring.
  - rewrite !sumQ_cons, IH. ring.
Qed.

Lemma sumQ_swap (F : nat -> nat -> Q) (ks js : list nat) :
  sumQ (fun j => sumQ (fun k => F j k) ks) js
  == sumQ (fun k => sumQ (fun j => F j k) js) ks.
Proof.
  induction js as [| j js IH].
  - rewrite sumQ_nil. symmetry. apply sumQ_zero. intros; reflexivity.
  - rewrite sumQ_cons, IH.
    rewrite <- sumQ_add. apply sumQ_ext. intros k _. reflexivity.
Qed.

Lemma fold_sub_sum (f : nat -> Q) (ks : list nat) (a0 : Q) :
  fold_left (fun acc k => Qred (acc - Qred (f k))) ks a0 == a0 - sumQ f ks.
Proof.
  revert a0. induction ks as [| k ks IH]; intros a0; cbn [fold_left].
  - rewrite sumQ_nil. ring.
  - rewrite IH, sumQ_cons, !Qred_correct. ring.
Qed.

Section Factorisation.
Variable n : nat.
Variable a : list (list Q).

Lemma lower_entry_assigns (i j : nat) (l u : list (list Q)) :
  shape n l -> (i < n)%nat -> (j < n)%nat ->
  exists W : Q,
    MatInv.lower_entry a i j (l, u) = (mat_set i j W l, u) /\
    W == (mat_get a i j
          - sumQ (fun k => mat_get l i k * mat_get u k j) (seq 0 j))
         / mat_get u j j.
Proof.
  intros Hl Hi Hj. unfold MatInv.lower_entry. q_ops.
  set (l0 := mat_set i j (mat_get a i j) l).
  assert (Hl0 : shape n l0) by (apply shape_mat_set; exact Hl).
  rewrite (accumulate_entry
             (fun m k => Qred (mat_get m i k * mat_get u k j)) n i j)
    by (try assumption; intros v m' k Hk; apply in_seq in Hk;
        rewrite mat_get_set_ne by lia; reflexivity).
  rewrite (mat_get_set_eq n) by assumption.
  rewrite mat_set_set. unfold l0 at 3. rewrite mat_set_set.
  eexists. split; [reflexivity |].
  rewrite Qred_correct, fold_sub_sum.
  unfold l0. rewrite (mat_get_set_eq n) by assumption.
  apply Qdiv_comp; [| reflexivity].
  apply Qplus_comp; [reflexivity |]. apply Qopp_comp.
  apply sumQ_ext. intros k Hk. apply in_seq in Hk.
  rewrite mat_get_set_ne by lia. reflexivity.
Qed.

Lemma upper_entry_assigns (i j : nat) (l u : list (list Q)) :
  shape n u -> (i < n)%nat -> (j < n)%nat ->
  exists W : Q,
    MatInv.upper_entry a i j (l, u) = (l, mat_set i j W u) /\
    W == mat_get a i j
         - sumQ (fun k => mat_get l i k * mat_get u k j) (seq 0 i).
Proof.
  intros Hu Hi Hj. unfold MatInv.upper_entry. q_ops.
  set (u0 := mat_set i j (mat_get a i j) u).
  assert (Hu0 : shape n u0) by (apply shape_mat_set; exact Hu).
  rewrite (accumulate_entry
             (fun m k => Qred (mat_get l i k * mat_get m k j)) n i j)
    by (try assumption; intros v m' k Hk; apply in_seq in Hk;
        rewrite mat_get_set_ne by lia; reflexivity).
  unfold u0 at 3. rewrite mat_set_set.
  eexists. split; [reflexivity |].
  rewrite fold_sub_sum.
  unfold u0. rewrite (mat_get_set_eq n) by assumption.
  apply Qplus_comp; [reflexivity |]. apply Qopp_comp.
  apply sumQ_ext. intros k Hk. apply in_seq in Hk.
  rewrite mat_get_set_ne by lia. reflexivity.
Qed.


Lemma lower_entry_state (i j : nat) (lu : list (list Q) * list (list Q)) :
  (j < i)%nat -> (i < n)%nat ->
  factors_state n a i j lu ->
  factors_state n a i (S j) (MatInv.lower_entry a i j lu).
Proof.
  intros Hji Hin. destruct lu as [l u]. intros (Hl & Hu & H).
  cbn [fst snd] in *.
  destruct (lower_entry_assigns i j l u Hl Hin ltac:(lia)) as (W & -> & HW).
  unfold factors_state. cbn [fst snd].
  split; [apply shape_mat_set; exact Hl |]. split; [exact Hu |].
  intros r c Hr Hc. destruct (H r c Hr Hc) as (H1 & H2 & H3 & H4).
  repeat split.
  - intros Hcr Hdone. unfold lower_recurrence.
    destruct (decide (r = i /\ c = j)) as [[-> ->] | Hne].
    + rewrite (mat_get_set_eq n) by assumption. rewrite HW.
      apply Qdiv_comp; [| reflexivity].
      apply Qplus_comp; [reflexivity |]. apply Qopp_comp.
      apply sumQ_ext. intros k Hk. apply in_seq in Hk.
      rewrite mat_get_set_ne by lia. reflexivity.
    + assert (Hd : computed i j r c) by (unfold computed in *; lia).
      specialize (H1 Hcr Hd). unfold lower_recurrence in H1.
      rewrite mat_get_set_ne by lia. rewrite H1.
      apply Qdiv_comp; [| reflexivity].
      apply Qplus_comp; [reflexivity |]. apply Qopp_comp.
      apply sumQ_ext. intros k Hk. apply in_seq in Hk.
      unfold computed in Hd.
      rewrite mat_get_set_ne by lia. reflexivity.
  - intros Hrc. rewrite mat_get_set_ne by lia. apply H2. exact Hrc.
  - intros Hrc Hdone. unfold upper_recurrence.
    assert (Hd : computed i j r c) by (unfold computed in *; lia).
    specialize (H3 Hrc Hd). unfold upper_recurrence in H3. rewrite H3.
    apply Qplus_comp; [reflexivity |]. apply Qopp_comp.
    apply sumQ_ext. intros k Hk. apply in_seq in Hk.
    unfold computed in Hd.
    rewrite mat_get_set_ne by lia. reflexivity.
  - exact H4.
Qed.

Lemma upper_entry_state (i j : nat) (lu : list (list Q) * list (list Q)) :
  (i <= j)%nat -> (j < n)%nat ->
  factors_state n a i j lu ->
  factors_state n a i (S j) (MatInv.upper_entry a i j lu).
Proof.
  intros Hij Hjn. destruct lu as [l u]. intros (Hl & Hu & H).
  cbn [fst snd] in *.
  destruct (upper_entry_assigns i j l u Hu ltac:(lia) Hjn) as (W & -> & HW).
  unfold factors_state. cbn [fst snd].
  split; [exact Hl |]. split; [apply shape_mat_set; exact Hu |].
  intros r c Hr Hc. destruct (H r c Hr Hc) as (H1 & H2 & H3 & H4).
  repeat split.
  - intros Hcr Hdone. unfold lower_recurrence.
    assert (Hd : computed i j r c) by (unfold computed in *; lia).
    specialize (H1 Hcr Hd). unfold lower_recurrence in H1. rewrite H1.
    unfold computed in Hd.
    apply Qdiv_comp; [| rewrite mat_get_set_ne by lia; reflexivity].
    apply Qplus_comp; [reflexivity |]. apply Qopp_comp.
    apply sumQ_ext. intros k Hk. apply in_seq in Hk.
    rewrite mat_get_set_ne by lia. reflexivity.
  - exact H2.
  - intros Hrc Hdone. unfold upper_recurrence.
    destruct (decide (r = i /\ c = j)) as [[-> ->] | Hne].
    + rewrite (mat_get_set_eq n) by (assumption || lia). rewrite HW.
      apply Qplus_comp; [reflexivity |]. apply Qopp_comp.
      apply sumQ_ext. intros k Hk. apply in_seq in Hk.
      rewrite mat_get_set_ne by lia. reflexivity.
    + assert (Hd : computed i j r c) by (unfold computed in *; lia).
      specialize (H3 Hrc Hd). unfold upper_recurrence in H3.
      rewrite mat_get_set_ne by lia. rewrite H3.
      apply Qplus_comp; [reflexivity |]. apply Qopp_comp.
      apply sumQ_ext. intros k Hk. apply in_seq in Hk.
      unfold computed in Hd.
      rewrite mat_get_set_ne by lia. reflexivity.
  - intros Hcr. rewrite mat_get_set_ne by lia. apply H4. exact Hcr.
Qed.

Lemma factor_row_state (i : nat) (lu : list (list Q) * list (list Q)) :
  (i < n)%nat ->
  factors_state n a i 0 lu ->
  factors_state n a (S i) 0 (MatInv.factor_row n a i lu).
Proof.
  intros Hin H0. unfold MatInv.factor_row.
  assert (Hlow : forall j, (j <= i)%nat ->
            factors_state n a i j
              (fold_left (fun lu j => MatInv.lower_entry a i j lu)
                 (seq 0 j) lu)).
  { induction j as [| j IH]; intros Hj; [exact H0 |].
    rewrite seq_S, fold_left_app. cbn [fold_left Nat.add].
    apply lower_entry_state; [lia | exact Hin | apply IH; lia]. }
  specialize (Hlow i (Nat.le_refl i)).
  set (lu1 := fold_left (fun lu j => MatInv.lower_entry a i j lu)
                (seq 0 i) lu) in *.
  clearbody lu1.
  assert (Hup : forall m, (i + m <= n)%nat ->
            factors_state n a i (i + m)
              (fold_left (fun lu j => MatInv.upper_entry a i j lu)
                 (seq i m) lu1)).
  { induction m as [| m IH]; intros Hm.
    - rewrite Nat.add_0_r. exact Hlow.
    - rewrite seq_S, fold_left_app. cbn [fold_left].
      replace (i + S m)%nat with (S (i + m)) by lia.
      apply upper_entry_state; [lia | lia | apply IH; lia]. }
  specialize (Hup (n - i)%nat ltac:(lia)).
  destruct Hup as (Hl & Hu & H). split; [exact Hl |]. split; [exact Hu |].
  intros r c Hr Hc. destruct (H r c Hr Hc) as (H1 & H2 & H3 & H4).
  repeat split; try assumption.
  - intros Hcr Hd. apply H1; [exact Hcr |]. unfold computed in *. lia.
  - intros Hrc Hd. apply H3; [exact Hrc |]. unfold computed in *. lia.
Qed.

Lemma scalar_mat_shape (q : Q) : shape n (scalar_mat n q).
Proof.
  unfold scalar_mat, shape. split.
  - rewrite length_map, length_seq. reflexivity.
  - apply Forall_map. apply Forall_forall. intros i _. cbn.
    rewrite length_map, length_seq. reflexivity.
Qed.

Lemma scalar_mat_get (q : Q) (r c : nat) :
  (r < n)%nat -> (c < n)%nat ->
  mat_get (scalar_mat n q) r c = if (r =? c)%nat then q else 0.
Proof.
  intros Hr Hc. unfold mat_get, scalar_mat, Mat, Vec.
  rewrite !list_lookup_total_alt.
  rewrite list_lookup_fmap, lookup_seq_lt by exact Hr. cbn.
  rewrite list_lookup_fmap, lookup_seq_lt by exact Hc. cbn. reflexivity.
Qed.

Lemma factors_final :
  factors_state n a n 0 (MatInv.factors n a).
Proof.
  unfold MatInv.factors.
  assert (H : forall i, (i <= n)%nat ->
            factors_state n a i 0
              (fold_left (fun lu i => MatInv.factor_row n a i lu) (seq 0 i)
                 (scalar_mat n (lit 1.0), scalar_mat n (lit 0.0)))).
  { induction i as [| i IH]; intros Hi.
    - cbn [seq fold_left]. split; [apply scalar_mat_shape |].
      split; [apply scalar_mat_shape |]. cbn [fst snd].
      intros r c Hr Hc. unfold computed. repeat split; try lia.
      + intros _. rewrite scalar_mat_get by assumption.
        destruct (r =? c)%nat; reflexivity.
      + intros _. rewrite scalar_mat_get by assumption.
        destruct (r =? c)%nat; reflexivity.
    - rewrite seq_S, fold_left_app. cbn [fold_left Nat.add].
      apply factor_row_state; [lia | apply IH; lia]. }
  apply H. lia.
Qed.

End Factorisation.

Lemma seq_split_at (n j : nat) :
  (j < n)%nat -> seq 0 n = seq 0 j ++ [j] ++ seq (S j) (n - S j).
Proof.
  intros Hj.
  replace n with (j + S (n - S j))%nat at 1 by lia.
  rewrite seq_app. reflexivity.
Qed.

Lemma det_pivots (l u : list (list Q)) (ks : list nat) (d0 : Q) :
  ~ fold_left
      (fun d i => Qred (d * Qred (mat_get l i i * mat_get u i i))) ks d0
    == 0 ->
  ~ d0 == 0 /\ forall i, In i ks -> ~ mat_get u i i == 0.
Proof.
  revert d0. induction ks as [| k ks IH]; intros d0 Hd; cbn [fold_left] in Hd.
  - split; [exact Hd |]. intros i [].
  - destruct (IH _ Hd) as [H0 Hks].
    rewrite !Qred_correct in H0. split.
    + intros E. apply H0. rewrite E. ring.
    + intros i [<- | Hi]; [| apply Hks; exact Hi].
      intros E. apply H0. rewrite E. ring.
Qed.

Lemma pivots_nonzero (n : nat) (a : list (list Q)) :
  ~ MatInv.det (MatInv.make n a) == 0 ->
  forall i, (i < n)%nat ->
    ~ mat_get (MatInv._u (MatInv.make n a)) i i == 0.
Proof.
  unfold MatInv.det, MatInv.make. cbn [MatInv._det MatInv._u].
  unfold MatInv.determinant.
  destruct (MatInv.factors n a) as [l u]. cbn [fst snd]. q_ops.
  intros Hd. apply det_pivots in Hd. destruct Hd as [H0 Hks].
  intros i Hi. destruct i as [| i].
  - intros E. apply H0. rewrite Qred_correct, E. ring.
  - apply Hks. apply in_seq. lia.
Qed.

Lemma factors_product (n : nat) (a : list (list Q)) (i j : nat) :
  ~ MatInv.det (MatInv.make n a) == 0 ->
  (i < n)%nat -> (j < n)%nat ->
  sumQ (fun k => mat_get (MatInv._l (MatInv.make n a)) i k
                 * mat_get (MatInv._u (MatInv.make n a)) k j) (seq 0 n)
  == mat_get a i j.
Proof.
  intros Hdet Hi Hj.
  set (l := MatInv._l (MatInv.make n a)).
  set (u := MatInv._u (MatInv.make n a)).
  pose proof (pivots_nonzero n a Hdet) as Hpiv.
  pose proof (factors_final n a) as (_ & _ & H).
  fold u in Hpiv. change (fst (MatInv.factors n a)) with l in H.
  change (snd (MatInv.factors n a)) with u in H.
  assert (Hdone : forall r c, (r < n)%nat -> computed n 0 r c)
    by (intros r c Hr; left; exact Hr).
  destruct (Nat.lt_ge_cases j i) as [Hji | Hij].
  - rewrite (seq_split_at n j) by lia.
    rewrite !sumQ_app. cbn [sumQ fold_right].
    rewrite (sumQ_zero _ (seq (S j) (n - S j))).
    2:{ intros k Hk. apply in_seq in Hk.
        destruct (H k j ltac:(lia) Hj) as (_ & _ & _ & H4).
        rewrite H4 by lia. ring. }
    destruct (H i j Hi Hj) as (H1 & _).
    specialize (H1 Hji (Hdone i j Hi)). unfold lower_recurrence in H1.
    rewrite H1. field. apply Hpiv. exact Hj.
  - rewrite (seq_split_at n i) by lia.
    rewrite !sumQ_app. cbn [sumQ fold_right].
    rewrite (sumQ_zero _ (seq (S i) (n - S i))).
    2:{ intros k Hk. apply in_seq in Hk.
        destruct (H i k Hi ltac:(lia)) as (_ & H2 & _).
        rewrite H2 by lia.
        replace (i =? k)%nat with false
          by (symmetry; apply Nat.eqb_neq; lia).
        ring. }
    destruct (H i j Hi Hj) as (_ & _ & H3 & _).
    specialize (H3 Hij (Hdone i j Hi)). unfold upper_recurrence in H3.
    destruct (H i i Hi Hi) as (_ & H2 & _).
    specialize (H2 (Nat.le_refl i)). rewrite Nat.eqb_refl in H2.
    rewrite H2, H3. ring.
Qed.

Lemma factors_triangular (n : nat) (a : list (list Q)) (i j : nat) :
  (i < n)%nat -> (j < n)%nat ->
  mat_get (MatInv._l (MatInv.make n a)) i i == 1 /\
  ((i < j)%nat -> mat_get (MatInv._l (MatInv.make n a)) i j == 0) /\
  ((j < i)%nat -> mat_get (MatInv._u (MatInv.make n a)) i j == 0).
Proof.
  intros Hi Hj.
  set (l := MatInv._l (MatInv.make n a)).
  set (u := MatInv._u (MatInv.make n a)).
  pose proof (factors_final n a) as (_ & _ & H).
  change (fst (MatInv.factors n a)) with l in H.
  change (snd (MatInv.factors n a)) with u in H.
  split; [| split].
  - destruct (H i i Hi Hi) as (_ & H2 & _).
    specialize (H2 (Nat.le_refl i)). rewrite Nat.eqb_refl in H2. exact H2.
  - intros Hlt. destruct (H i j Hi Hj) as (_ & H2 & _).
    rewrite H2 by lia.
    replace (i =? j)%nat with false by (symmetry; apply Nat.eqb_neq; lia).
    reflexivity.
  - intros Hlt. destruct (H i j Hi Hj) as (_ & _ & _ & H4).
    apply H4. exact Hlt.
Qed.

(** X27.  The factors that the constructor of [MatInv] computes.  When
    the determinant it stores is not zero, [_l] is lower triangular with a
    unit diagonal, [_u] is upper triangular with no zero on its diagonal,
    and the product of [_l] and [_u] is the matrix [a], entry by entry. *)
Theorem mat_inv_factors (n : nat) (a : Mat Q) (i j : nat) :
  ~ MatInv.det (MatInv.make n a) == 0 ->
  (i < n)%nat -> (j < n)%nat ->
  let l := MatInv._l (MatInv.make n a) in
  let u := MatInv._u (MatInv.make n a) in
  sumQ (fun k => mat_get l i k * mat_get u k j) (seq 0 n) == mat_get a i j /\
  ~ mat_get u i i == 0 /\
  mat_get l i i == 1 /\
  ((i < j)%nat -> mat_get l i j == 0) /\
  ((j < i)%nat -> mat_get u i j == 0).
Proof.
  intros Hdet Hi Hj l u. split; [| split].
  - apply factors_product; assumption.
  - apply pivots_nonzero; assumption.
  - apply factors_triangular; assumption.
Qed.


(** A loop that only accumulates into the component [i], with terms that
    do not read that component, is one assignment. *)
Lemma accumulate_component (term : list Q -> nat -> Q) (i : nat)
  (ks : list nat) (x : list Q) :
  (i < length x)%nat ->
  (forall (v : Q) (x' : list Q) (k : nat),
     In k ks -> term (<[i := v]> x') k = term x' k) ->
  fold_left (fun x k => <[i := Qred (x !!! i - term x k)]> x) ks x
  = <[i := fold_left (fun acc k => Qred (acc - term x k)) ks (x !!! i)]> x.
Proof.
  revert x. induction ks as [| k ks IH]; intros x Hi Hterm; cbn [fold_left].
  - symmetry. apply list_insert_id'. intros _.
    apply list_lookup_alt. split; [exact Hi | reflexivity].
  - rewrite IH.
    + rewrite list_lookup_total_insert_eq by exact Hi.
      rewrite list_insert_insert_eq. f_equal.
      apply fold_left_ext_In. intros acc k' Hk'.
      rewrite Hterm by (right; exact Hk'). reflexivity.
    + rewrite length_insert. exact Hi.
    + intros v x' k' Hk'. apply Hterm. right. exact Hk'.
Qed.

Lemma forward_row_assigns (self : MatInv.t Q) (i : nat) (x : list Q) :
  (i < length x)%nat ->
  exists W : Q,
    MatInv.forward_row self i x = <[i := W]> x /\
    W == (x !!! i
          - sumQ (fun j => mat_get (MatInv._l self) i j * x !!! j) (seq 0 i))
         / mat_get (MatInv._l self) i i.
Proof.
  intros Hi. unfold MatInv.forward_row. q_ops.
  rewrite (accumulate_component
             (fun x j => Qred (mat_get (MatInv._l self) i j * x !!! j)) i)
    by (try assumption; intros v x' k Hk; apply in_seq in Hk;
        rewrite list_lookup_total_insert_ne by lia; reflexivity).
  rewrite list_lookup_total_insert_eq by exact Hi.
  rewrite list_insert_insert_eq.
  eexists. split; [reflexivity |].
  rewrite Qred_correct, fold_sub_sum. reflexivity.
Qed.

Lemma backward_row_assigns (self : MatInv.t Q) (num_rows i : nat)
  (x : list Q) :
  (i < length x)%nat ->
  exists W : Q,
    MatInv.backward_row self num_rows i x = <[i := W]> x /\
    W == (x !!! i
          - sumQ (fun j => mat_get (MatInv._u self) i j * x !!! j)
              (seq (S i) (num_rows - S i)))
         / mat_get (MatInv._u self) i i.
Proof.
  intros Hi. unfold MatInv.backward_row. q_ops.
  replace (i + 1)%nat with (S i) by lia.
  rewrite (accumulate_component
             (fun x j => Qred (mat_get (MatInv._u self) i j * x !!! j)) i)
    by (try assumption; intros v x' k Hk; apply in_seq in Hk;
        rewrite list_lookup_total_insert_ne by lia; reflexivity).
  rewrite list_lookup_total_insert_eq by exact Hi.
  rewrite list_insert_insert_eq.
  eexists. split; [reflexivity |].
  rewrite Qred_correct, fold_sub_sum. reflexivity.
Qed.

Section Substitution.
Variable self : MatInv.t Q.
Variable n : nat.

(** The first loop of [operator()] solves the lower triangular system. *)
Lemma forward_substitution (b : list Q) :
  length b = n ->
  let y := fold_left (fun x i => MatInv.forward_row self i x) (seq 0 n) b in
  length y = n /\
  forall r, (r < n)%nat ->
    y !!! r ==
    (b !!! r
     - sumQ (fun j => mat_get (MatInv._l self) r j * y !!! j) (seq 0 r))
    / mat_get (MatInv._l self) r r.
Proof.
  intros Hb.
  assert (H : forall i, (i <= n)%nat ->
            let x := fold_left (fun x i => MatInv.forward_row self i x)
                       (seq 0 i) b in
            length x = n /\
            (forall r, (r < i)%nat ->
               x !!! r ==
               (b !!! r
                - sumQ (fun j => mat_get (MatInv._l self) r j * x !!! j)
                    (seq 0 r))
               / mat_get (MatInv._l self) r r) /\
            (forall r, (i <= r)%nat -> x !!! r = b !!! r)).
  { induction i as [| i IH]; intros Hi.
    - cbn [seq fold_left]. split; [exact Hb |]. split; [lia | reflexivity].
    - rewrite seq_S, fold_left_app. cbn [fold_left Nat.add].
      destruct (IH ltac:(lia)) as (Hlen & Hdone & Hrest).
      set (x := fold_left (fun x i => MatInv.forward_row self i x)
                  (seq 0 i) b) in *.
      clearbody x. unfold Vec in *.
      destruct (forward_row_assigns self i x ltac:(lia)) as (W & -> & HW).
      cbn zeta. split; [rewrite length_insert; exact Hlen |]. split.
      + intros r Hr. destruct (decide (r = i)) as [-> | Hne].
        * rewrite list_lookup_total_insert_eq by lia.
          rewrite HW, (Hrest i) by lia.
          apply Qdiv_comp; [| reflexivity].
          apply Qplus_comp; [reflexivity |]. apply Qopp_comp.
          apply sumQ_ext. intros k Hk. apply in_seq in Hk.
          rewrite list_lookup_total_insert_ne by lia. reflexivity.
        * rewrite list_lookup_total_insert_ne by lia.
          rewrite Hdone by lia.
          apply Qdiv_comp; [| reflexivity].
          apply Qplus_comp; [reflexivity |]. apply Qopp_comp.
          apply sumQ_ext. intros k Hk. apply in_seq in Hk.
          rewrite list_lookup_total_insert_ne by lia. reflexivity.
      + intros r Hr. rewrite list_lookup_total_insert_ne by lia.
        apply Hrest. lia. }
  destruct (H n (Nat.le_refl n)) as (Hlen & Hdone & _).
  cbn zeta. split; assumption.
Qed.

(** The second loop solves the upper triangular system. *)
Lemma backward_substitution (y : list Q) :
  length y = n ->
  let x := fold_left (fun x i => MatInv.backward_row self n i x)
             (rev (seq 0 n)) y in
  length x = n /\
  forall r, (r < n)%nat ->
    x !!! r ==
    (y !!! r
     - sumQ (fun j => mat_get (MatInv._u self) r j * x !!! j)
         (seq (S r) (n - S r)))
    / mat_get (MatInv._u self) r r.
Proof.
  intros Hy.
  assert (H : forall i x0, (i <= n)%nat ->
            length x0 = n ->
            (forall r, (i <= r)%nat -> (r < n)%nat ->
               x0 !!! r ==
               (y !!! r
                - sumQ (fun j => mat_get (MatInv._u self) r j * x0 !!! j)
                    (seq (S r) (n - S r)))
               / mat_get (MatInv._u self) r r) ->
            (forall r, (r < i)%nat -> x0 !!! r = y !!! r) ->
            let x := fold_left (fun x i => MatInv.backward_row self n i x)
                       (rev (seq 0 i)) x0 in
            length x = n /\
            forall r, (r < n)%nat ->
              x !!! r ==
              (y !!! r
               - sumQ (fun j => mat_get (MatInv._u self) r j * x !!! j)
                   (seq (S r) (n - S r)))
              / mat_get (MatInv._u self) r r).
  { unfold Vec in *.
    induction i as [| i IH]; intros x0 Hi Hlen Hdone Hrest.
    - cbn [seq rev fold_left]. cbn zeta. split; [exact Hlen |].
      intros r Hr. apply Hdone; lia.
    - rewrite seq_S, rev_unit. cbn [fold_left Nat.add].
      destruct (backward_row_assigns self n i x0 ltac:(lia))
        as (W & -> & HW).
      apply IH.
      + lia.
      + rewrite length_insert. exact Hlen.
      + intros r Hir Hr. destruct (decide (r = i)) as [-> | Hne].
        * rewrite list_lookup_total_insert_eq by lia.
          rewrite HW, (Hrest i) by lia.
          apply Qdiv_comp; [| reflexivity].
          apply Qplus_comp; [reflexivity |]. apply Qopp_comp.
          apply sumQ_ext. intros k Hk. apply in_seq in Hk.
          rewrite list_lookup_total_insert_ne by lia. reflexivity.
        * rewrite list_lookup_total_insert_ne by lia.
          rewrite Hdone by lia.
          apply Qdiv_comp; [| reflexivity].
          apply Qplus_comp; [reflexivity |]. apply Qopp_comp.
          apply sumQ_ext. intros k Hk. apply in_seq in Hk.
          rewrite list_lookup_total_insert_ne by lia. reflexivity.
      + intros r Hr. rewrite list_lookup_total_insert_ne by lia.
        apply Hrest. lia. }
  apply (H n y (Nat.le_refl n) Hy).
  - intros r Hr1 Hr2. lia.
  - reflexivity.
Qed.

End Substitution.

Lemma sumQ_seq_shift (f : nat -> Q) (s m : nat) :
  sumQ f (seq (S s) m) = sumQ (fun j => f (S j)) (seq s m).
Proof.
  revert s. induction m as [| m IH]; intros s; [reflexivity |].
  cbn [seq]. rewrite !sumQ_cons, IH. reflexivity.
Qed.

Lemma dot_sum (row x : list Q) :
  length row = length x ->
  dot row x == sumQ (fun j => row !!! j * x !!! j) (seq 0 (length x)).
Proof.
  revert x. induction row as [| p row IH]; intros [| q x] Hlen;
    try discriminate.
  - reflexivity.
  - cbn [length seq]. rewrite sumQ_cons, sumQ_seq_shift.
    cbn [dot Q_VecOps zip_with fold_right]. rewrite !Qred_correct.
    apply Qplus_comp; [reflexivity |].
    apply (IH x). cbn in Hlen. lia.
Qed.


Lemma upper_row_cancel (p q0 q1 : Q) :
  ~ p == 0 -> 0 + (p * ((q0 - q1) / p) + 0 + q1) == q0.
Proof. intros Hp. field. exact Hp. Qed.

Lemma lower_row_cancel (q0 q1 : Q) :
  q1 + (1 * ((q0 - q1) / 1) + 0 + 0) == q0.
Proof. field. Qed.

(** X28.  [MatInv] inverts.  For a matrix [a] of [n] rows and columns
    whose stored determinant is not zero, the product of [a] and the vector
    that [operator()] returns for [b] is [b] again. *)
Theorem mat_inv_solves (n : nat) (a : Mat Q) (b : Vec Q) :
  shape n a -> length b = n ->
  ~ MatInv.det (MatInv.make n a) == 0 ->
  Forall2 Qeq (mat_mul_vec a (MatInv.apply (MatInv.make n a) b)) b.
Proof.
  intros Ha Hb Hdet. unfold Mat, Vec in *.
  set (self := MatInv.make n a).
  pose proof (pivots_nonzero n a Hdet) as Hpiv. fold self in Hpiv.
  assert (HLU : forall i j, (i < n)%nat -> (j < n)%nat ->
            sumQ (fun k => mat_get (MatInv._l self) i k
                           * mat_get (MatInv._u self) k j) (seq 0 n)
            == mat_get a i j /\
            mat_get (MatInv._l self) i i == 1 /\
            ((i < j)%nat -> mat_get (MatInv._l self) i j == 0) /\
            ((j < i)%nat -> mat_get (MatInv._u self) i j == 0)).
  { intros i j Hi Hj. split.
    - apply factors_product; assumption.
    - apply factors_triangular; assumption. }
  unfold MatInv.apply. rewrite Hb.
  pose proof (forward_substitution self n b Hb) as [Hylen Hy].
  set (y := fold_left (fun x i => MatInv.forward_row self i x) (seq 0 n) b)
    in *.
  clearbody y.
  pose proof (backward_substitution self n y Hylen) as [Hxlen Hx].
  set (x := fold_left (fun x i => MatInv.backward_row self n i x)
              (rev (seq 0 n)) y) in *.
  clearbody x.
  assert (HU : forall k, (k < n)%nat ->
            sumQ (fun j => mat_get (MatInv._u self) k j * x !!! j) (seq 0 n)
            == y !!! k).
  { intros k Hk. rewrite (seq_split_at n k) by exact Hk.
    rewrite !sumQ_app. rewrite sumQ_cons, sumQ_nil.
    rewrite (sumQ_zero _ (seq 0 k)).
    2:{ intros j Hj. apply in_seq in Hj.
        destruct (HLU k j Hk ltac:(lia)) as (_ & _ & _ & H4).
        rewrite H4 by lia. ring. }
    rewrite (Hx k Hk) at 1.
    apply upper_row_cancel. apply Hpiv. exact Hk. }
  assert (HL : forall r, (r < n)%nat ->
            sumQ (fun k => mat_get (MatInv._l self) r k * y !!! k) (seq 0 n)
            == b !!! r).
  { intros r Hr. rewrite (seq_split_at n r) by exact Hr.
    rewrite !sumQ_app. rewrite sumQ_cons, sumQ_nil.
    rewrite (sumQ_zero _ (seq (S r) (n - S r))).
    2:{ intros k Hk. apply in_seq in Hk.
        destruct (HLU r k Hr ltac:(lia)) as (_ & _ & H3 & _).
        rewrite H3 by lia. ring. }
    destruct (HLU r r Hr Hr) as (_ & H2 & _).
    rewrite (Hy r Hr) at 1. rewrite H2. apply lower_row_cancel. }
  apply Forall2_same_length_lookup. split.
  - unfold mat_mul_vec, Mat, Vec in *. rewrite length_map.
    destruct Ha as [Hl _]. lia.
  - intros r p q Hp Hq. unfold mat_mul_vec, Mat, Vec in *.
    rewrite list_lookup_fmap in Hp.
    destruct (a !! r) as [row |] eqn:Hrow; [| discriminate].
    cbn in Hp. injection Hp as <-.
    assert (Hr : (r < n)%nat).
    { apply lookup_lt_Some in Hq. lia. }
    assert (Hrowlen : length row = n).
    { destruct Ha as [_ Hrows].
      rewrite Forall_lookup in Hrows. exact (Hrows r row Hrow). }
    assert (Hq' : b !!! r = q).
    { rewrite list_lookup_total_alt, Hq. reflexivity. }
    rewrite <- Hq'.
    etransitivity; [apply dot_sum; lia |].
    rewrite Hxlen, <- (HL r Hr).
    transitivity
      (sumQ (fun j =>
               sumQ (fun k => mat_get (MatInv._l self) r k
                              * (mat_get (MatInv._u self) k j * x !!! j))
                 (seq 0 n)) (seq 0 n)).
    + apply sumQ_ext. intros j Hj. apply in_seq in Hj.
      assert (E : row !!! j = mat_get a r j).
      { unfold mat_get. rewrite (list_lookup_total_alt a), Hrow.
        reflexivity. }
      rewrite E. destruct (HLU r j Hr ltac:(lia)) as (H1 & _).
      rewrite <- H1. rewrite Qmult_comm, <- sumQ_scale.
      apply sumQ_ext. intros k _. ring.
    + rewrite sumQ_swap. apply sumQ_ext. intros k Hk. apply in_seq in Hk.
      rewrite sumQ_scale. rewrite (HU k) by lia. reflexivity.
Qed.

End MatrixFacts.


(** *** The menus *)
Section MenuFacts.
Context {Str Node : Type}.
Implicit Types children : list (Menu.MenuItemProps Str Node).

Lemma max_fold_bounds children (m0 : Z) :
  let m := fold_left (fun max item => Z.max max (Menu.group item)) children m0 in
  m0 <= m /\
  (forall item, item ∈ children -> Menu.group item <= m) /\
  (forall B, m0 <= B -> (forall item, item ∈ children -> Menu.group item <= B)
             -> m <= B).
Proof.
  revert m0. induction children as [| x l IH]; intros m0; cbn [fold_left].
  - split; [lia |]. split; [| intros; assumption].
    intros item Hitem. inversion Hitem.
  - destruct (IH (Z.max m0 (Menu.group x))) as (H1 & H2 & H3).
    cbn zeta in *. split; [lia |]. split.
    + intros item Hitem. apply elem_of_cons in Hitem as [-> | Hitem].
      * lia.
      * apply H2. exact Hitem.
    + intros B HB Hall. apply H3.
      * pose proof (Hall x ltac:(left)). lia.
      * intros item Hitem. apply Hall. right. exact Hitem.
Qed.

Lemma group_buttons_spec children (active g : Z) (index : nat) (flag : bool) :
  (index, flag) ∈ Menu.group_buttons children active g <->
  exists item, children !! index = Some item /\ Menu.group item = g /\
               flag = (Z.of_nat index =? active).
Proof.
  unfold Menu.group_buttons. rewrite list_elem_of_omap. split.
  - intros (o & Ho & ->). apply elem_of_lookup_imap in Ho.
    destruct Ho as (i & item & Ho & Hi).
    destruct (Menu.group item =? g) eqn:Hg; [| discriminate].
    injection Ho as -> ->. exists item. split; [exact Hi |].
    split; [lia | reflexivity].
  - intros (item & Hi & Hg & ->).
    exists (Some (index, Z.of_nat index =? active)). split; [| reflexivity].
    apply elem_of_lookup_imap. exists index, item. split; [| exact Hi].
    rewrite (proj2 (Z.eqb_eq _ _) Hg). reflexivity.
Qed.

Lemma buttons_from_NoDup children (active g : Z) (k : nat) :
  let buttons :=
    omap (fun button => button)
      (imap
         (fun index item =>
            if Menu.group item =? g
            then Some ((k + index)%nat, Z.of_nat (k + index) =? active)
            else None)
         children) in
  NoDup buttons /\ forall p, p ∈ buttons -> (k <= fst p)%nat.
Proof.
  revert k. induction children as [| x l IH]; intros k; cbn zeta.
  - split; [constructor |]. intros p Hp. inversion Hp.
  - rewrite imap_cons. cbn [omap].
    assert (E : imap
                  ((fun index item =>
                      if Menu.group item =? g
                      then Some ((k + index)%nat,
                                 Z.of_nat (k + index) =? active)
                      else None) ∘ S) l
                = imap
                    (fun index item =>
                       if Menu.group item =? g
                       then Some ((S k + index)%nat,
                                  Z.of_nat (S k + index) =? active)
                       else None) l).
    { apply imap_ext. intros i y _. cbn.
      replace (k + S i)%nat with (S (k + i)) by lia. reflexivity. }
    rewrite E. destruct (IH (S k)) as [Hnd Hge]. cbn zeta in Hnd, Hge.
    destruct (Menu.group x =? g).
    + cbn. split.
      * constructor; [| exact Hnd].
        intros Hin. apply Hge in Hin. cbn in Hin. lia.
      * intros p Hp. apply elem_of_cons in Hp as [-> | Hp]; [cbn; lia |].
        apply Hge in Hp. lia.
    + cbn. split; [exact Hnd |]. intros p Hp. apply Hge in Hp. lia.
Qed.

Lemma group_buttons_NoDup children (active g : Z) :
  NoDup (Menu.group_buttons children active g).
Proof.
  exact (proj1 (buttons_from_NoDup children active g 0)).
Qed.

Lemma concat_buttons_NoDup children (active : Z) (keys : list Z) :
  NoDup keys ->
  NoDup (concat (map (Menu.group_buttons children active) keys)).
Proof.
  induction keys as [| g keys IH]; intros Hnd; [constructor |].
  apply NoDup_cons in Hnd as [Hg Hnd].
  cbn [map concat]. apply NoDup_app. split; [apply group_buttons_NoDup |].
  split; [| apply IH; exact Hnd].
  intros [index flag] Hin Hin'.
  apply group_buttons_spec in Hin as (item & Hi & Hgi & _).
  apply list_elem_of_In, in_concat in Hin' as (l & Hl & Hx).
  apply in_map_iff in Hl as (g' & <- & Hg').
  apply list_elem_of_In, group_buttons_spec in Hx as (item' & Hi' & Hgi' & _).
  apply Hg. apply list_elem_of_In.
  rewrite Hi in Hi'. injection Hi' as <-. rewrite <- Hgi, Hgi'. exact Hg'.
Qed.

(** X30.  Every item of a menu gets its button once.  With every
    group below 2^32 - 1 the menu renders, with one division for each group
    from 0 to [maxGroup]: an item whose group is not
    negative has its button in the division of its group, marked active
    exactly when its index is the active one; a division holds no other
    buttons; and no button is rendered twice. *)
Theorem menu_buttons_once children (activeItemIndex : Z) :
  Forall (fun item => Menu.group item < 2 ^ 32 - 1) children ->
  exists divs,
    Menu.menu_buttons children activeItemIndex = Some divs /\
    Z.of_nat (length divs) = Menu.maxGroup children + 1 /\
    (forall index item,
       children !! index = Some item -> 0 <= Menu.group item ->
       exists buttons,
         divs !! Z.to_nat (Menu.group item) = Some buttons /\
         (index, Z.of_nat index =? activeItemIndex) ∈ buttons) /\
    (forall g buttons index flag,
       divs !! g = Some buttons -> (index, flag) ∈ buttons ->
       exists item,
         children !! index = Some item /\ Menu.group item = Z.of_nat g /\
         flag = (Z.of_nat index =? activeItemIndex)) /\
    NoDup (concat divs).
Proof.
  intros Hall. unfold Menu.menu_buttons, Menu.group_keys.
  destruct (max_fold_bounds children 0) as (H0 & Hmax & Hle).
  fold (Menu.maxGroup children) in H0, Hmax, Hle.
  assert (Hb : Menu.maxGroup children <= 2 ^ 32 - 2).
  { apply Hle; [lia |]. intros item Hitem.
    rewrite Forall_forall in Hall. specialize (Hall item Hitem).
    cbn beta in Hall. lia. }
  replace ((0 <=? Menu.maxGroup children + 1)
           && (Menu.maxGroup children + 1 <=? 2 ^ 32 - 1)) with true.
  2:{ symmetry. apply andb_true_iff. split; apply Z.leb_le; lia. }
  eexists. split; [reflexivity |].
  set (n := Z.to_nat (Menu.maxGroup children + 1)).
  split; [| split; [| split]].
  - rewrite !length_map, length_seq. unfold n. lia.
  - intros index item Hi Hg.
    exists (Menu.group_buttons children activeItemIndex (Menu.group item)).
    split.
    + rewrite list_lookup_fmap, list_lookup_fmap.
      rewrite lookup_seq_lt.
      * cbn. rewrite Z2Nat.id by exact Hg. reflexivity.
      * pose proof (Hmax item (list_elem_of_lookup_2 _ _ _ Hi)). lia.
    + apply group_buttons_spec. exists item. repeat split. exact Hi.
  - intros g buttons index flag Hd Hin.
    rewrite list_lookup_fmap, list_lookup_fmap in Hd.
    destruct (seq 0 n !! g) as [g' |] eqn:Hseq; [| discriminate].
    apply lookup_seq in Hseq as [-> _]. cbn in Hd. injection Hd as <-.
    apply group_buttons_spec in Hin. exact Hin.
  - apply concat_buttons_NoDup.
    apply NoDup_fmap; [intros x y; lia | apply NoDup_seq].
Qed.

End MenuFacts.


(** *** Instances *)
Lemma bisection_nested_witness :
  (0 <= 2)%Q /\
  bisection square_minus_two_residual small_number_v 0%Q 2%Q 3
    = (BisectionStatus.fail_max_iter, (7 # 5)%Q, 2%Q) /\
  (0 <= 7 # 5)%Q /\ (7 # 5 <= 2)%Q /\ (2 <= 2)%Q.
Proof.
  split; [discriminate |]. split; [vm_compute; reflexivity |].
  apply (bisection_nested square_minus_two_residual small_number_v 0%Q 2%Q 3
           BisectionStatus.fail_max_iter (7 # 5)%Q 2%Q);
    [discriminate | vm_compute; reflexivity].
Defined.

Lemma bisection_status_witness :
  bisection square_minus_two_residual small_number_v 0%Q 2%Q 3
    = (BisectionStatus.fail_max_iter, (7 # 5)%Q, 2%Q) /\
  (BisectionStatus.fail_max_iter = BisectionStatus.failure_sign ->
   (7 # 5)%Q = 0%Q /\ 2%Q = 2%Q /\
   Qeq_bool (sign (square_minus_two_residual 2))
            (sign (square_minus_two_residual 0)) = true) /\
  (BisectionStatus.fail_max_iter = BisectionStatus.fail_max_iter ->
   num_leb (num_abs (square_minus_two_residual (7 # 5))) small_number_v = false /\
   num_leb (num_abs (square_minus_two_residual 2)) small_number_v = false /\
   (3%nat <> 0%nat ->
    Qeq_bool (sign (square_minus_two_residual 2))
             (sign (square_minus_two_residual (7 # 5))) = false)).
Proof.
  split; [vm_compute; reflexivity |].
  apply (bisection_status square_minus_two_residual small_number_v 0%Q 2%Q 3
           BisectionStatus.fail_max_iter (7 # 5)%Q 2%Q).
  vm_compute. reflexivity.
Defined.

Lemma bisection_linear_exact_witness :
  (0 <= small_number_v)%Q /\
  num_leb (num_abs (line 2 (-3) 0)) small_number_v = false /\
  num_leb (num_abs (line 2 (-3) 5)) small_number_v = false /\
  Qeq_bool (sign (line 2 (-3) 5)) (sign (line 2 (-3) 0)) = false /\
  exists x,
    bisection (line 2 (-3)) small_number_v 0%Q 5%Q 1
      = (BisectionStatus.success, x, x) /\
    (2 * x + -3 == 0)%Q.
Proof.
  split; [discriminate |]. split; [reflexivity |]. split; [reflexivity |].
  split; [reflexivity |].
  apply (bisection_linear_exact 2 (-3) 0 5 small_number_v 0);
    [discriminate | reflexivity | reflexivity | reflexivity].
Defined.

Section KernelWitnesses.
Local Open Scope Q_scope.

Lemma spline_compact_support_witness :
  In line_kernel (spline_kernels (113 # 355)) /\
  (0 < 1)%Q /\
  (SmoothingKernel.radius line_kernel 1 <= norm [5 # 2])%Q /\
  SmoothingKernel.value line_kernel [5 # 2] 1 = 0%Q /\
  SmoothingKernel.grad line_kernel [5 # 2] 1 = vzero (dim [(5 # 2)%Q]) /\
  SmoothingKernel.radius_deriv line_kernel [5 # 2] 1 = 0%Q.
Proof.
  split; [left; reflexivity |]. split; [reflexivity |].
  split; [discriminate |].
  apply (spline_compact_support (113 # 355) line_kernel [(5 # 2)%Q] 1%Q);
    [left; reflexivity | reflexivity | discriminate].
Defined.

Lemma spline_value_nonneg_witness :
  In line_kernel (spline_kernels (113 # 355)) /\
  (0 <= 113 # 355)%Q /\ (0 < 1)%Q /\
  (0 <= SmoothingKernel.value line_kernel [1 # 2] 1)%Q.
Proof.
  split; [left; reflexivity |]. split; [discriminate |].
  split; [reflexivity |].
  apply (spline_value_nonneg (113 # 355) line_kernel [(1 # 2)%Q] 1%Q);
    [left; reflexivity | discriminate | reflexivity].
Defined.

Lemma bspline_grad_inward_witness :
  In line_kernel (bspline_kernels (113 # 355)) /\
  (0 <= 113 # 355)%Q /\ (0 < 1)%Q /\ (0 <= norm [1 # 2])%Q /\
  exists c : Q,
    (c <= 0)%Q /\ SmoothingKernel.grad line_kernel [1 # 2] 1 = vscale c [1 # 2]%Q.
Proof.
  split; [left; reflexivity |]. split; [discriminate |].
  split; [reflexivity |]. split; [discriminate |].
  apply (bspline_grad_inward (113 # 355) line_kernel [(1 # 2)%Q] 1%Q);
    [left; reflexivity | discriminate | reflexivity | discriminate].
Defined.

End KernelWitnesses.

Lemma line_nearby_by_position (c1 c2 : Cloud Q) (a : nat) (R : Q) :
  length c1 = length c2 ->
  (forall b, vget PV.r b c1 = vget PV.r b c2) ->
  line_nearby c1 a R = line_nearby c2 a R.
Proof.
  intros Hl Hr. unfold line_nearby, vget2. rewrite Hl.
  apply list_filter_iff. intros b. rewrite !Hr. reflexivity.
Qed.

Lemma classic_init_particle_witness :
  (0 < length wall_and_free)%nat /\
  (let eos := density_eos in
   let after := ClassicSmoothEstimator.init (1 # 2)%Q wall_and_free in
   let P1 := with_scalar PV.h (1 # 2)%Q (wall_and_free !!! 0%nat) in
   let P2 := with_scalar PV.p (pressure P1) P1 in
   length after = length wall_and_free /\
   after !!! 0%nat =
     if is_fixed 0 wall_and_free
     then with_scalar PV.cs (sound_speed P2) P2
     else wall_and_free !!! 0%nat).
Proof.
  split; [simpl; lia |].
  apply (classic_init_particle (eos := density_eos) (1 # 2)%Q wall_and_free 0).
  simpl; lia.
Defined.

Lemma gradh_init_particle_witness :
  (0 < length wall_and_free)%nat /\
  (let eos := density_eos in
   let after :=
     GradHSmoothEstimator.init (6 # 5)%Q reciprocal_pow wall_and_free in
   let d := dim (vget PV.r 0 wall_and_free) in
   let h_a :=
     num_mul (6 # 5)%Q
       (reciprocal_pow
          (num_div (sget PV.rho 0 wall_and_free) (sget PV.m 0 wall_and_free))
          (num_opp (inverse (num_mul (lit 1.0) (num_of_Z (Z.of_nat d)))))) in
   let P1 :=
     with_scalar PV.Omega (lit 1.0)
       (with_scalar PV.h h_a (wall_and_free !!! 0%nat)) in
   let P2 := with_scalar PV.p (pressure P1) P1 in
   length after = length wall_and_free /\
   after !!! 0%nat =
     if is_fixed 0 wall_and_free
     then with_scalar PV.cs (sound_speed P2) P2
     else wall_and_free !!! 0%nat).
Proof.
  split; [simpl; lia |].
  apply (gradh_init_particle (eos := density_eos) reciprocal_pow (6 # 5)%Q
           wall_and_free 0).
  simpl; lia.
Defined.

Lemma classic_density_is_kernel_sum_witness :
  (1 < length wall_and_free)%nat /\
  is_fixed 1 wall_and_free = false /\
  (forall (c1 c2 : Cloud Q) (a : nat) (R : Q),
     length c1 = length c2 ->
     (forall b, vget PV.r b c1 = vget PV.r b c2) ->
     line_nearby c1 a R = line_nearby c2 a R) /\
  (let eos := density_eos in
   let cloud := line_cloud true in
   let after :=
     ClassicSmoothEstimator.estimate_density line_kernel 1%Q wall_and_free in
   sget PV.h 1 after = 1%Q /\
   sget PV.rho 1 after =
     kernel_sum line_kernel 1%Q wall_and_free 1
       (nearby wall_and_free 1 (SmoothingKernel.radius line_kernel 1%Q))).
Proof.
  split; [simpl; lia |]. split; [reflexivity |].
  split; [exact line_nearby_by_position |].
  apply (classic_density_is_kernel_sum (eos := density_eos)
           (cloud := line_cloud true) line_kernel 1%Q
           line_nearby_by_position wall_and_free 1);
    [simpl; lia | reflexivity].
Defined.

Lemma classic_width_uniform_witness :
  (0 < length wall_and_free)%nat /\
  sget PV.h 0
    (ClassicSmoothEstimator.estimate_density (eos := density_eos)
       (cloud := line_cloud true) line_kernel (1 # 2)%Q
       (ClassicSmoothEstimator.init (eos := density_eos) (1 # 2)%Q
          wall_and_free)) = (1 # 2)%Q.
Proof.
  split; [simpl; lia |].
  apply (classic_width_uniform (eos := density_eos) (cloud := line_cloud true)
           line_kernel (1 # 2)%Q wall_and_free 0).
  simpl; lia.
Defined.

Lemma classic_pair_momentum_witness :
  (forall a : Vec Q, norm (vopp a) = norm a) /\
  (0 < length wall_and_free)%nat /\
  (let viscosity := no_viscosity in
   let cloud := line_cloud true in
   kinematic (wall_and_free !!! 1%nat) (wall_and_free !!! 0%nat)
     = kinematic (wall_and_free !!! 0%nat) (wall_and_free !!! 1%nat) /\
   vget PV.dv_dt 0
     (ClassicSmoothEstimator.forces_nearby line_kernel 1%Q 0 1 wall_and_free)
     = vsub (vget PV.dv_dt 0 wall_and_free)
         (classic_pair_force line_kernel 1%Q 0 1 wall_and_free) /\
   vscale (sget PV.m 0 wall_and_free)
     (classic_pair_force line_kernel 1%Q 0 1 wall_and_free)
     = vopp (vscale (sget PV.m 1 wall_and_free)
               (classic_pair_force line_kernel 1%Q 1 0 wall_and_free))).
Proof.
  split; [exact Q_norm_vopp |]. split; [simpl; lia |].
  cbv zeta. split; [reflexivity |].
  apply (classic_pair_momentum (viscosity := no_viscosity)
           (cloud := line_cloud true) line_kernel 1%Q Q_norm_vopp 0 1
           wall_and_free);
    [simpl; lia | reflexivity].
Defined.

Section ViewsWitnesses.
Local Open Scope N_scope.

Lemma chunk_partition_witness :
  0 < 2 /\
  views.size [1; 2; 3; 4; 5]%nat + 2 <= 2 ^ 64 /\
  (let chunks := views.chunk [1; 2; 3; 4; 5]%nat 2 in
   concat chunks = [1; 2; 3; 4; 5]%nat /\
   N.of_nat (length chunks) = divide_up (views.size [1; 2; 3; 4; 5]%nat) 2 /\
   (forall (i : nat) (c : list nat),
      chunks !! i = Some c ->
      c <> [] /\
      N.of_nat (length c) <= 2 /\
      ((S i < length chunks)%nat -> N.of_nat (length c) = 2))).
Proof.
  split; [reflexivity |]. split; [discriminate |].
  apply (chunk_partition [1; 2; 3; 4; 5]%nat 2); [reflexivity | discriminate].
Defined.

Lemma adjacent_transform_view_witness :
  views.size [1; 2; 3]%nat < 2 ^ 64 /\
  ([1; 2; 3]%nat <> [] ->
   views.adjacent_transform_size [1; 2; 3]%nat = views.size [1; 2; 3]%nat - 1 /\
   forall i, i < views.adjacent_transform_size [1; 2; 3]%nat ->
     exists x y,
       [1; 2; 3]%nat !! N.to_nat i = Some x /\
       [1; 2; 3]%nat !! S (N.to_nat i) = Some y /\
       views.adjacent_transform_at [1; 2; 3]%nat Nat.add i = Some (Nat.add x y)) /\
  ([1; 2; 3]%nat = [] ->
   views.adjacent_transform_size [1; 2; 3]%nat = 2 ^ 64 - 1 /\
   forall i, views.adjacent_transform_at [1; 2; 3]%nat Nat.add i = None).
Proof.
  split; [reflexivity |].
  apply (adjacent_transform_view [1; 2; 3]%nat Nat.add). reflexivity.
Defined.

Lemma cartesian_product_tuples_witness :
  [[1; 2]; [3; 4; 5]]%nat <> [] /\
  size_product [[1; 2]; [3; 4; 5]]%nat < 2 ^ 64 /\
  views.cartesian_product [[1; 2]; [3; 4; 5]]%nat
    = map (map Some) (tuples [[1; 2]; [3; 4; 5]]%nat) /\
  N.of_nat (length (views.cartesian_product [[1; 2]; [3; 4; 5]]%nat))
    = size_product [[1; 2]; [3; 4; 5]]%nat.
Proof.
  split; [discriminate |]. split; [reflexivity |].
  apply (cartesian_product_tuples [[1; 2]; [3; 4; 5]]%nat);
    [discriminate | reflexivity].
Defined.

End ViewsWitnesses.

Section MatrixWitnesses.
Local Open Scope Q_scope.
#[local] Existing Instance Num_inhabited.

Lemma mat_inv_factors_witness :
  ~ MatInv.det (MatInv.make 2 example_matrix) == 0 /\
  (let l := MatInv._l (MatInv.make 2 example_matrix) in
   let u := MatInv._u (MatInv.make 2 example_matrix) in
   sumQ (fun k => mat_get l 1 k * mat_get u k 0) (seq 0 2)
   == mat_get example_matrix 1 0 /\
   ~ mat_get u 1 1 == 0 /\
   mat_get l 1 1 == 1 /\
   ((1 < 0)%nat -> mat_get l 1 0 == 0) /\
   ((0 < 1)%nat -> mat_get u 1 0 == 0)).
Proof.
  assert (Hd : ~ MatInv.det (MatInv.make 2 example_matrix) == 0)
    by (intros H; vm_compute in H; discriminate H).
  split; [exact Hd |].
  apply (mat_inv_factors 2 example_matrix 1 0 Hd); lia.
Defined.

Lemma mat_inv_solves_witness :
  shape 2 example_matrix /\
  length [4; 14] = 2%nat /\
  ~ MatInv.det (MatInv.make 2 example_matrix) == 0 /\
  Forall2 Qeq
    (mat_mul_vec example_matrix
       (MatInv.apply (MatInv.make 2 example_matrix) [4; 14]))
    [4; 14].
Proof.
  assert (Hs : shape 2 example_matrix).
  { split; [reflexivity |].
    repeat (apply List.Forall_cons; [reflexivity |]). apply List.Forall_nil. }
  assert (Hd : ~ MatInv.det (MatInv.make 2 example_matrix) == 0)
    by (intros H; vm_compute in H; discriminate H).
  split; [exact Hs |]. split; [reflexivity |]. split; [exact Hd |].
  apply (mat_inv_solves 2 example_matrix [4; 14] Hs); [reflexivity | exact Hd].
Defined.

End MatrixWitnesses.

Lemma menu_buttons_once_witness :
  Forall (fun item => Menu.group item < 2 ^ 32 - 1) example_menu /\
  exists divs,
    Menu.menu_buttons example_menu 0 = Some divs /\
    Z.of_nat (length divs) = Menu.maxGroup example_menu + 1 /\
    (forall index item,
       example_menu !! index = Some item -> 0 <= Menu.group item ->
       exists buttons,
         divs !! Z.to_nat (Menu.group item) = Some buttons /\
         (index, Z.of_nat index =? 0) ∈ buttons) /\
    (forall g buttons index flag,
       divs !! g = Some buttons -> (index, flag) ∈ buttons ->
       exists item,
         example_menu !! index = Some item /\
         Menu.group item = Z.of_nat g /\
         flag = (Z.of_nat index =? 0)) /\
    NoDup (concat divs).
Proof.
  assert (H : Forall (fun item => Menu.group item < 2 ^ 32 - 1) example_menu).
  { repeat (apply List.Forall_cons; [reflexivity |]). apply List.Forall_nil. }
  split; [exact H |].
  apply (menu_buttons_once example_menu 0 H).
Defined.

(** *** The force sum of the variable-width estimator *)
Section GradHForceSum.
Context {Num : Type} {number : Number Num} {vec_ops : VecOps Num}
  {viscosity : ArtificialViscosity Num} {cloud : ParticleCloud Num}.
Variable K : Kernel Num.

(** The neighbour query reads positions, and the viscosity reads no
    variable that the force pass writes. *)
Hypothesis nearby_by_position :
  forall (c1 c2 : Cloud Num) (a : nat) (R : Num),
    length c1 = length c2 ->
    (forall b, vget PV.r b c1 = vget PV.r b c2) ->
    nearby c1 a R = nearby c2 a R.

Hypothesis kinematic_outside_forces :
  forall P P' Q Q' : Particle Num,
    same_outside_forces P P' -> same_outside_forces Q Q' ->
    kinematic P' Q' = kinematic P Q.

Lemma keeps_same_outside_forces (c c' : Cloud Num) (b : nat) :
  keeps b not_forces_scalar not_forces_vector c c' ->
  same_outside_forces (c !!! b) (c' !!! b).
Proof. intros H. exact H. Qed.

Lemma gradh_forces_nearby_dv_dt (a b : nat) (c : Cloud Num) :
  (a < length c)%nat ->
  vget PV.dv_dt a (GradHSmoothEstimator.forces_nearby K a b c)
  = vsub (vget PV.dv_dt a c)
      (vscale (sget PV.m b c)
         (GradHSmoothEstimator.pair_term K
            (pressure_factor a c) (pressure_factor b c)
            (kinematic (c !!! a) (c !!! b))
            (vget2 PV.r a b c) (sget PV.h a c) (sget PV.h b c))).
Proof.
  intros Ha. unfold GradHSmoothEstimator.forces_nearby. cbv zeta.
  unfold when.
  destruct (has PV.eps && has PV.deps_dt); rewrite ?vget_sset;
    apply vget_vset_eq; exact Ha.
Qed.

Lemma gradh_forces_nearby_keeps (c0 : Cloud Num) (a b b' : nat)
  (c : Cloud Num) :
  keeps b' not_forces_scalar not_forces_vector c0 c ->
  keeps b' not_forces_scalar not_forces_vector c0
    (GradHSmoothEstimator.forces_nearby K a b c).
Proof.
  intros Hk. unfold GradHSmoothEstimator.forces_nearby. cbv zeta.
  repeat keeps_step.
Qed.

Lemma length_gradh_forces_nearby (a b : nat) (c : Cloud Num) :
  length (GradHSmoothEstimator.forces_nearby K a b c) = length c.
Proof.
  unfold GradHSmoothEstimator.forces_nearby. cbv zeta. repeat length_step.
Qed.

(** The neighbour loop adds up the pair terms of the cloud it started
    from. *)
Lemma gradh_forces_nearby_fold (c : Cloud Num) (a : nat) (l : list nat) :
  forall (c' : Cloud Num) (acc : Vec Num),
    (a < length c')%nat ->
    (forall b, keeps b not_forces_scalar not_forces_vector c c') ->
    vget PV.dv_dt a c' = acc ->
    vget PV.dv_dt a
      (fold_left
         (fun c'' b => GradHSmoothEstimator.forces_nearby K a b c'') l c')
    = fold_left
        (fun acc b =>
           vsub acc
             (vscale (sget PV.m b c)
                (GradHSmoothEstimator.pair_term K
                   (pressure_factor a c) (pressure_factor b c)
                   (kinematic (c !!! a) (c !!! b))
                   (vget2 PV.r a b c) (sget PV.h a c) (sget PV.h b c))))
        l acc.
Proof.
  induction l as [| b l IH]; intros c' acc Ha Hk Hacc; [exact Hacc |].
  cbn [fold_left]. apply IH.
  - rewrite length_gradh_forces_nearby. exact Ha.
  - intros b'. apply gradh_forces_nearby_keeps. apply Hk.
  - rewrite gradh_forces_nearby_dv_dt by exact Ha. rewrite Hacc.
    unfold pressure_factor, vget2.
    rewrite !(keeps_sget _ _ _ _ _ _ (Hk a)) by reflexivity.
    rewrite !(keeps_sget _ _ _ _ _ _ (Hk b)) by reflexivity.
    rewrite (keeps_vget _ _ _ _ _ PV.r (Hk a)) by reflexivity.
    rewrite (keeps_vget _ _ _ _ _ PV.r (Hk b)) by reflexivity.
    rewrite (kinematic_outside_forces (c !!! a) (c' !!! a)
               (c !!! b) (c' !!! b)) by (apply keeps_same_outside_forces, Hk).
    reflexivity.
Qed.

(** What [estimate_forces] leaves in [dv_dt[a]] for a particle that is not
    fixed: the sum of the pair terms over the neighbours of [a], all read
    from the cloud on entry, less the gravity on component 1. *)
Lemma gradh_estimate_forces_sum (c : Cloud Num) (a : nat) :
  (a < length c)%nat ->
  is_fixed a c = false ->
  vget PV.dv_dt a (GradHSmoothEstimator.estimate_forces K c)
  = vsub_at 1 (lit 9.81)
      (gradh_force_sum K c a
         (nearby c a (SmoothingKernel.radius K (sget PV.h a c)))).
Proof.
  intros Ha Hfree.
  set (body := GradHSmoothEstimator.forces_body K).
  set (before := for_each_before body a c).
  destruct (for_each_own a every_scalar every_vector body c Ha)
    as [Hbefore Hown].
  { intros b c1 c2 Hne Hk. apply gradh_forces_body_other; assumption. }
  fold before in Hbefore, Hown.
  assert (Hl : length before = length c).
  { apply length_for_each_before. intros b c'.
    apply length_gradh_forces_body. }
  assert (Hkeep : forall b,
            keeps b not_forces_scalar not_forces_vector c before).
  { intros b. unfold before, for_each_before.
    apply (fold_left_invariant
             (keeps b not_forces_scalar not_forces_vector c));
      [apply keeps_refl |].
    intros b' c' Hk. unfold body, GradHSmoothEstimator.forces_body.
    destruct (is_fixed b' c'); [exact Hk |].
    unfold GradHSmoothEstimator.forces_pairwise,
      GradHSmoothEstimator.forces_nearby. cbv zeta. repeat keeps_step. }
  unfold GradHSmoothEstimator.estimate_forces. fold body.
  rewrite (keeps_vget _ _ _ _ _ PV.dv_dt Hown eq_refl).
  assert (Hfree' : is_fixed a before = false).
  { destruct Hbefore as (Hfix & _). unfold is_fixed. rewrite Hfix.
    exact Hfree. }
  unfold body at 1.
  destruct (forces_body_dv_dt K num_0 num_0 a before
              ltac:(rewrite Hl; exact Ha) Hfree') as [-> _].
  f_equal.
  unfold GradHSmoothEstimator.forces_pairwise. cbv zeta.
  set (c1 := vset PV.dv_dt a (vzero (dim (vget PV.dv_dt a before))) before).
  set (c2 := when (has PV.eps && has PV.deps_dt)
               (sset PV.deps_dt a num_0) c1).
  assert (Hk2 : forall b,
            keeps b not_forces_scalar not_forces_vector c c2).
  { intros b. unfold c2, c1. repeat keeps_step. apply Hkeep. }
  assert (Hl2 : length c2 = length c).
  { unfold c2, c1, when.
    destruct (has PV.eps && has PV.deps_dt);
      rewrite ?length_sset, length_vset; exact Hl. }
  assert (Hacc : vget PV.dv_dt a c2 = vzero (dim (vget PV.dv_dt a c))).
  { unfold c2, when.
    destruct (has PV.eps && has PV.deps_dt); rewrite ?vget_sset;
      unfold c1; rewrite vget_vset_eq by (rewrite Hl; exact Ha);
      rewrite (keeps_vget _ _ _ _ _ PV.dv_dt Hbefore eq_refl);
      reflexivity. }
  unfold for_nearby.
  rewrite (keeps_sget _ _ _ _ _ _ (Hk2 a)) by reflexivity.
  rewrite (nearby_by_position c2 c a) .
  - apply gradh_forces_nearby_fold;
      [rewrite Hl2; exact Ha | exact Hk2 | exact Hacc].
  - exact Hl2.
  - intros b. apply (keeps_vget _ _ _ _ _ PV.r (Hk2 b)). reflexivity.
Qed.

End GradHForceSum.

(** C4.  For a particle [a] that is not fixed, [estimate_forces] of the
    variable-width estimator leaves in [dv_dt[a]] the sum over the
    neighbours [b] of [- m[b] * (P_a * grad(r_ab, h_a) + P_b * grad(r_ab,
    h_b) + Pi_ab * grad_ab)], read from the cloud on entry, less the gravity
    on component 1, with every number type: each pressure factor is on the
    gradient at its own width, and the averaged gradient [grad_ab =
    avg(grad(r_ab, h_a), grad(r_ab, h_b))] carries the viscosity factor
    [Pi_ab] only.  In exact arithmetic the averaged gradient of the pair in
    the other order is exactly its negation, and so is the whole bracket
    when [Pi_ba = Pi_ab]. *)
Theorem gradh_force_terms :
  (forall (Num : Type) (number : Number Num) (vec_ops : VecOps Num)
          (viscosity : ArtificialViscosity Num) (cloud : ParticleCloud Num)
          (K : Kernel Num),
     (forall (c1 c2 : Cloud Num) (a : nat) (R : Num),
        length c1 = length c2 ->
        (forall b, vget PV.r b c1 = vget PV.r b c2) ->
        nearby c1 a R = nearby c2 a R) ->
     (forall P P' P0 P0' : Particle Num,
        same_outside_forces P P' -> same_outside_forces P0 P0' ->
        kinematic P' P0' = kinematic P P0) ->
     forall (c : Cloud Num) (a : nat),
       (a < length c)%nat ->
       is_fixed a c = false ->
       vget PV.dv_dt a (GradHSmoothEstimator.estimate_forces K c)
       = vsub_at 1 (lit 9.81)
           (gradh_force_sum K c a
              (nearby c a (SmoothingKernel.radius K (sget PV.h a c))))) /\
  (forall (vec_ops : VecOps Q) (viscosity : ArtificialViscosity Q)
          (K : Kernel Q),
     (forall r : Vec Q, norm (vopp r) = norm r) ->
     forall (c : Cloud Q) (a b : nat),
       let r_ab := vget2 PV.r a b c in
       let r_ba := vget2 PV.r b a c in
       let h_a := sget PV.h a c in
       let h_b := sget PV.h b c in
       GradHSmoothEstimator.symmetrized_grad K r_ab h_a h_b
       = vopp (GradHSmoothEstimator.symmetrized_grad K r_ba h_b h_a) /\
       (kinematic (c !!! b) (c !!! a) = kinematic (c !!! a) (c !!! b) ->
        GradHSmoothEstimator.pair_term K
          (pressure_factor a c) (pressure_factor b c)
          (kinematic (c !!! a) (c !!! b)) r_ab h_a h_b
        = vopp
            (GradHSmoothEstimator.pair_term K
               (pressure_factor b c) (pressure_factor a c)
               (kinematic (c !!! b) (c !!! a)) r_ba h_b h_a))).
Proof.
  split.
  - intros Num number vec_ops viscosity cloud K Hnearby Hkin c a Ha Hfree.
    apply gradh_estimate_forces_sum; assumption.
  - intros vec_ops viscosity K norm_vopp c a b r_ab r_ba h_a h_b.
    assert (Hr : r_ba = vopp r_ab).
    { unfold r_ba, r_ab, vget2. apply vsub_swap. }
    split.
    + unfold GradHSmoothEstimator.symmetrized_grad.
      rewrite Hr, !(grad_vopp K norm_vopp). apply avg_vopp_swap.
    + intros Hsym. rewrite Hsym.
      unfold GradHSmoothEstimator.pair_term,
        GradHSmoothEstimator.symmetrized_grad.
      rewrite Hr, !(grad_vopp K norm_vopp), avg_vopp. apply bracket_vopp.
Qed.

Lemma mean_density_viscosity_outside_forces (P P' P0 P0' : Particle Q) :
  same_outside_forces P P' -> same_outside_forces P0 P0' ->
  kinematic (ArtificialViscosity := mean_density_viscosity) P' P0'
  = kinematic (ArtificialViscosity := mean_density_viscosity) P P0.
Proof.
  intros (_ & HP & _) (_ & HQ & _). cbn.
  rewrite (HP PV.rho eq_refl), (HQ PV.rho eq_refl). reflexivity.
Qed.

Lemma gradh_force_terms_witness :
  let viscosity := mean_density_viscosity in
  let cloud := line_cloud false in
  let c := unequal_pair in
  (0 < length c)%nat /\
  is_fixed 0 c = false /\
  vget PV.dv_dt 0 (GradHSmoothEstimator.estimate_forces line_kernel c)
  = vsub_at 1 (lit 9.81)
      (gradh_force_sum line_kernel c 0
         (nearby c 0 (SmoothingKernel.radius line_kernel (sget PV.h 0 c)))) /\
  GradHSmoothEstimator.symmetrized_grad line_kernel (vget2 PV.r 0 1 c)
    (sget PV.h 0 c) (sget PV.h 1 c)
  = vopp
      (GradHSmoothEstimator.symmetrized_grad line_kernel (vget2 PV.r 1 0 c)
         (sget PV.h 1 c) (sget PV.h 0 c)) /\
  GradHSmoothEstimator.pair_term line_kernel
    (pressure_factor 0 c) (pressure_factor 1 c)
    (kinematic (c !!! 0%nat) (c !!! 1%nat)) (vget2 PV.r 0 1 c)
    (sget PV.h 0 c) (sget PV.h 1 c)
  = vopp
      (GradHSmoothEstimator.pair_term line_kernel
         (pressure_factor 1 c) (pressure_factor 0 c)
         (kinematic (c !!! 1%nat) (c !!! 0%nat)) (vget2 PV.r 1 0 c)
         (sget PV.h 1 c) (sget PV.h 0 c)).
Proof.
  intros viscosity cloud c.
  split; [simpl; lia |]. split; [reflexivity |]. split.
  - apply (proj1 gradh_force_terms Q Q_Number Q_VecOps
             mean_density_viscosity (line_cloud false) line_kernel
             line_nearby_by_position mean_density_viscosity_outside_forces
             unequal_pair 0%nat); [simpl; lia | reflexivity].
  - pose proof (proj2 gradh_force_terms Q_VecOps mean_density_viscosity
                  line_kernel Q_norm_vopp unequal_pair 0%nat 1%nat)
      as [Hgrad Hterm].
    split; [exact Hgrad |]. apply Hterm. reflexivity.
Defined.

(** The force term is not on the averaged gradient as a whole.  On two
    particles of widths 1 and 2 and pressures 1 and 3 the acceleration that
    [estimate_forces] computes for the first is not the one with every
    factor on [grad_ab]; and exchanging the two widths, which leaves the
    averaged gradient as it is, changes the acceleration. *)
Lemma gradh_pressure_terms_not_averaged :
  let viscosity := mean_density_viscosity in
  let cloud := line_cloud false in
  let c := unequal_pair in
  let c' := unequal_pair_exchanged in
  let neighbours :=
    nearby c 0 (SmoothingKernel.radius line_kernel (sget PV.h 0 c)) in
  let computed :=
    vget PV.dv_dt 0 (GradHSmoothEstimator.estimate_forces line_kernel c) in
  is_fixed 0 c = false /\
  neighbours = [0; 1]%nat /\
  computed = [- (104751 # 181760); - (981 # 100)]%Q /\
  vsub_at 1 (lit 9.81) (averaged_gradient_sum line_kernel c 0 neighbours)
  = [- (175941 # 181760); - (981 # 100)]%Q /\
  computed
  <> vsub_at 1 (lit 9.81) (averaged_gradient_sum line_kernel c 0 neighbours) /\
  GradHSmoothEstimator.symmetrized_grad line_kernel (vget2 PV.r 0 1 c')
    (sget PV.h 0 c') (sget PV.h 1 c')
  = GradHSmoothEstimator.symmetrized_grad line_kernel (vget2 PV.r 0 1 c)
      (sget PV.h 0 c) (sget PV.h 1 c) /\
  vget PV.dv_dt 0 (GradHSmoothEstimator.estimate_forces line_kernel c')
  = [- (247131 # 181760); - (981 # 100)]%Q.
Proof.
  cbv zeta.
  split; [reflexivity |]. split; [vm_compute; reflexivity |].
  split; [vm_compute; reflexivity |]. split; [vm_compute; reflexivity |].
  split; [intros H; vm_compute in H; discriminate H |].
  split; vm_compute; reflexivity.
Qed.
